(** * Message elements of the chat client: layout, cloning and paints

    A shallow embedding of [src/messages/MessageElement.cpp] and of
    [src/providers/seventv/paints/UrlPaint.cpp].

    Conventions of the embedding.
    - A [QString] is the list of its UTF-16 code units; a [QChar] is one code
      unit, kept as a [Z] in the range 0..65535.
    - C++ [int] values (pixel widths, sizes) are unbounded [Z]: the code never
      relies on wrap-around, and signed overflow would be undefined.
    - [float] values stay abstract: the arithmetic that the code performs on
      them is supplied by a [FloatOps] record, so nothing proved here depends
      on rounding.
    - Objects that the code only reads through a pointer (images, emotes) are
      immutable snapshots; a pointer carries the address it compares by.
    - Globals ([getApp()], [getSettings()]) are explicit arguments.
    - The headers are not among the sources.  Member defaults and default
      arguments (an empty text, no link, a trailing space, the font style
      [ChatMedium], the colour [MessageColor::Text]) are written as the
      constructors below show them; no property proved here depends on
      them. *)

From Stdlib Require Import ZArith Ascii String.
From stdpp Require Import base tactics option list gmap.

Local Open Scope Z_scope.

(** ** Qt value types *)

Definition QChar := Z.
Definition QString := list QChar.

(** [QChar::isHighSurrogate]: the code unit lies in D800..DBFF. *)
Definition isHighSurrogate (ucs : QChar) : bool :=
  Z.land ucs 0xfffffc00 =? 0xd800.

(** [QChar::isSpace]: ASCII white space, NEL, NBSP and the Unicode
    separators (categories Zs, Zl, Zp) of the Basic Multilingual Plane. *)
Definition isSpace (ucs : QChar) : bool :=
  (ucs =? 0x20) || ((0x09 <=? ucs) && (ucs <=? 0x0d))
  || (ucs =? 0x85) || (ucs =? 0xa0) || (ucs =? 0x1680)
  || ((0x2000 <=? ucs) && (ucs <=? 0x200a))
  || (ucs =? 0x2028) || (ucs =? 0x2029) || (ucs =? 0x202f)
  || (ucs =? 0x205f) || (ucs =? 0x3000).

(** A string literal of the source, one code unit per ASCII character. *)
Fixpoint QStringLiteral (s : string) : QString :=
  match s with
  | EmptyString => []
  | String a s' => Z.of_N (N_of_ascii a) :: QStringLiteral s'
  end.

(** [QString::mid(position, n)] and [QString::mid(position)] for positions
    inside the string. *)
Definition mid (s : QString) (position n : nat) : QString :=
  take n (drop position s).

Definition mid_from (s : QString) (position : nat) : QString :=
  drop position s.

(** [QString::split(sep)] with the default [Qt::KeepEmptyParts]: the result
    always has one more part than the string has separators. *)
Fixpoint split (sep : QChar) (s : QString) : list QString :=
  match s with
  | [] => [[]]
  | c :: s' =>
      if c =? sep then [] :: split sep s'
      else match split sep s' with
           | [] => [[c]]
           | part :: parts => (c :: part) :: parts
           end
  end.

Fixpoint trimmed_left (s : QString) : QString :=
  match s with
  | [] => []
  | c :: s' => if isSpace c then trimmed_left s' else s
  end.

(** [QString::trimmed]: white space removed from both ends. *)
Definition trimmed (s : QString) : QString :=
  reverse (trimmed_left (reverse (trimmed_left s))).

Module QSize.
Record t := mk { width : Z; height : Z }.
End QSize.

Module QRect.
Record t := mk { x : Z; y : Z; width : Z; height : Z }.
End QRect.

(** A [QColor], by its ARGB value. *)
Definition QColor := Z.

(** A [QTime], in milliseconds since midnight. *)
Definition QTime := Z.

(** A [QPixmap] is described by the way it was produced: the painting calls of
    the source are kept as a term instead of being rendered. *)
Inductive QPixmap :=
| LoadedPixmap (id : positive)
| scaledToWidth (pixmap : QPixmap) (w : Z)
| filledLike (pixmap : QPixmap) (color : QColor)
| drawPixmap (device : QPixmap) (px py : Z) (pixmap : QPixmap)
| copy (pixmap : QPixmap) (rect : QRect.t).

(** The two [QBrush] constructors that the source uses. *)
Inductive QBrush :=
| SolidBrush (color : QColor)
| TextureBrush (pixmap : QPixmap).

(** ** Flag sets *)

(** [MessageElementFlags] is [FlagsEnum<MessageElementFlag>]: an [int64_t]
    used as a bit set. *)
Definition MessageElementFlags := Z.

(** Modelled from the spec: [FlagsEnum::hasAny] ([common/FlagsEnum.hpp] is not
    among the sources).  The spec words the gate [flags.hasAny(getFlags())] as
    "[renderFlags] intersects the element's own flags": a common bit. *)
Definition hasAny (self flags : MessageElementFlags) : bool :=
  negb (Z.land self flags =? 0).

(** Modelled from the spec: [FlagsEnum::has], the same test for one
    enumerator (which may name several bits, as [EmoteImages] does). *)
Definition has (self flag : MessageElementFlags) : bool :=
  negb (Z.land self flag =? 0).

(** Modelled from the spec: [FlagsEnum::set], used by [addFlags]: the bits
    are added. *)
Definition set (self flags : MessageElementFlags) : MessageElementFlags :=
  Z.lor self flags.

(** The values of the [MessageElementFlag] enumerators that the source names.
    The enum is declared in [MessageElement.hpp], which is not among the
    sources, so the values are parameters of the development. *)
Record MessageElementFlag := {
  FlagNone : MessageElementFlags;
  Misc : MessageElementFlags;
  EmoteImages : MessageElementFlags;
  Timestamp : MessageElementFlags;
  ModeratorTools : MessageElementFlags;
  RepliedMessage : MessageElementFlags;
}.

(** ** Floating point

    The operations on [float] that the source uses.  [f_to_int] is the
    conversion [int(x)] (also the implicit narrowing in [QSize(int, int)]),
    [f_round] is [qRound], used by [QSize::operator*(qreal)]. *)
Record FloatOps (float : Type) := {
  f_of_int : Z -> float;
  f_of_ratio : Z -> positive -> float;
  f_mul : float -> float -> float;
  f_to_int : float -> Z;
  f_round : float -> Z;
}.
Arguments f_of_int {float}.
Arguments f_of_ratio {float}.
Arguments f_mul {float}.
Arguments f_to_int {float}.
Arguments f_round {float}.

(** ** Resources and small value types *)

(** An [Image], as the layout code sees it at render time.  [ImagePtr] is a
    shared pointer to an image; images are only read here, so the pointer is
    identified with the image it points to. *)
Module Image.
Record t := mk {
  url : QString;
  width : Z;
  height : Z;
  isEmpty : bool;
  animated : bool;
  pixmapOrLoad : option QPixmap;
}.
End Image.

Definition ImagePtr := Image.t.

Module Link.
Inductive Type_ := None | Url | UserAction.
Record t := mk { type : Type_; value : QString }.
End Link.

#[global] Instance Link_Type_eq_dec : EqDecision Link.Type_.
Proof. solve_decision. Defined.

(** [MessageColor]: a custom colour or one of the theme's roles. *)
Inductive MessageColor :=
| MessageColor_Custom (color : QColor)
| MessageColor_Text
| MessageColor_Link
| MessageColor_System.

(** [FontStyle]: the source names [ChatMedium] only; the other enumerators
    are kept by their number. *)
Inductive FontStyle :=
| ChatMedium
| OtherFontStyle (n : nat).

Inductive ThumbnailType := Link_YouTube | Link_General.

(** [TextElement::Word]: a piece of text and its cached pixel width. *)
Module Word.
Record t := mk { text : QString; width : Z }.
End Word.

(** A configured moderation action, through the getters the source calls. *)
Module ModerationAction.
Record t := mk {
  getImage : option ImagePtr;
  getLine1 : QString;
  getLine2 : QString;
  getAction : QString;
}.
End ModerationAction.

(** [QFontMetrics] for one font at one scale.  [elidedText] is
    [QFontMetrics::elidedText(text, Qt::ElideRight, width)]. *)
Record QFontMetrics := {
  horizontalAdvance : QString -> Z;
  horizontalAdvanceChar : QChar -> Z;
  elidedText : QString -> Z -> QString;
  height : Z;
}.

(** The members of [MessageElement].  [thumbnail_] may be a null pointer. *)
Record MessageElementBase := {
  text_ : QString;
  link_ : Link.t;
  tooltip_ : QString;
  thumbnail_ : option ImagePtr;
  thumbnailType_ : ThumbnailType;
  flags_ : MessageElementFlags;
  trailingSpace : bool;
}.

(** [MessageElement::MessageElement(flags)]: the members other than
    [flags_] take their default values. *)
Definition MessageElement_new (flags : MessageElementFlags) : MessageElementBase :=
  {| text_ := [];
     link_ := Link.mk Link.None [];
     tooltip_ := [];
     thumbnail_ := Datatypes.None;
     thumbnailType_ := Link_YouTube;
     flags_ := flags;
     trailingSpace := true |}.

Definition Base_setLink (b : MessageElementBase) (link : Link.t) : MessageElementBase :=
  {| text_ := text_ b; link_ := link; tooltip_ := tooltip_ b;
     thumbnail_ := thumbnail_ b; thumbnailType_ := thumbnailType_ b;
     flags_ := flags_ b; trailingSpace := trailingSpace b |}.

Definition Base_setText (b : MessageElementBase) (text : QString) : MessageElementBase :=
  {| text_ := text; link_ := link_ b; tooltip_ := tooltip_ b;
     thumbnail_ := thumbnail_ b; thumbnailType_ := thumbnailType_ b;
     flags_ := flags_ b; trailingSpace := trailingSpace b |}.

Definition Base_setTooltip (b : MessageElementBase) (tooltip : QString) : MessageElementBase :=
  {| text_ := text_ b; link_ := link_ b; tooltip_ := tooltip;
     thumbnail_ := thumbnail_ b; thumbnailType_ := thumbnailType_ b;
     flags_ := flags_ b; trailingSpace := trailingSpace b |}.

Definition Base_setThumbnail (b : MessageElementBase) (thumbnail : option ImagePtr) : MessageElementBase :=
  {| text_ := text_ b; link_ := link_ b; tooltip_ := tooltip_ b;
     thumbnail_ := thumbnail; thumbnailType_ := thumbnailType_ b;
     flags_ := flags_ b; trailingSpace := trailingSpace b |}.

Definition Base_setThumbnailType (b : MessageElementBase) (type : ThumbnailType) : MessageElementBase :=
  {| text_ := text_ b; link_ := link_ b; tooltip_ := tooltip_ b;
     thumbnail_ := thumbnail_ b; thumbnailType_ := type;
     flags_ := flags_ b; trailingSpace := trailingSpace b |}.

Definition Base_setTrailingSpace (b : MessageElementBase) (value : bool) : MessageElementBase :=
  {| text_ := text_ b; link_ := link_ b; tooltip_ := tooltip_ b;
     thumbnail_ := thumbnail_ b; thumbnailType_ := thumbnailType_ b;
     flags_ := flags_ b; trailingSpace := value |}.

Definition Base_addFlags (b : MessageElementBase) (flags : MessageElementFlags) : MessageElementBase :=
  {| text_ := text_ b; link_ := link_ b; tooltip_ := tooltip_ b;
     thumbnail_ := thumbnail_ b; thumbnailType_ := thumbnailType_ b;
     flags_ := set (flags_ b) flags; trailingSpace := trailingSpace b |}.

(** [MessageElement::cloneFrom]: six members are copied from [source];
    [trailingSpace] is not among them. *)
Definition Base_cloneFrom (this source : MessageElementBase) : MessageElementBase :=
  {| text_ := text_ source;
     link_ := link_ source;
     tooltip_ := tooltip_ source;
     thumbnail_ := thumbnail_ source;
     thumbnailType_ := thumbnailType_ source;
     flags_ := flags_ source;
     trailingSpace := trailingSpace this |}.

(** [TextElement]: its base members, colour, font style and words. *)
Record TextElement := {
  text_base : MessageElementBase;
  text_color_ : MessageColor;
  text_style_ : FontStyle;
  text_words_ : list Word.t;
}.

(** [TextElement::TextElement(const QString &, ...)]: one word per part of
    the text split at spaces, each with the width not yet measured. *)
Definition TextElement_new (text : QString) (flags : MessageElementFlags)
    (color : MessageColor) (style : FontStyle) : TextElement :=
  {| text_base := MessageElement_new flags;
     text_color_ := color;
     text_style_ := style;
     text_words_ := (fun word => Word.mk word (-1)) <$> split 32 text |}.

(** [TextElement::TextElement(std::vector<Word> &&, ...)]. *)
Definition TextElement_of_words (words : list Word.t) (flags : MessageElementFlags)
    (color : MessageColor) (style : FontStyle) : TextElement :=
  {| text_base := MessageElement_new flags;
     text_color_ := color;
     text_style_ := style;
     text_words_ := words |}.

(** [TextElement::clone]. *)
Definition TextElement_clone (this : TextElement) : TextElement :=
  let el := TextElement_new [] (flags_ (text_base this)) (text_color_ this) (text_style_ this) in
  {| text_base := Base_cloneFrom (text_base el) (text_base this);
     text_color_ := text_color_ el;
     text_style_ := text_style_ el;
     text_words_ := text_words_ this |}.

(** ** The embedding proper, for any representation of [float] *)

Section Model.

Context {float : Type} (fops : FloatOps float).
Context (Flag : MessageElementFlag).

(** [ImageSet::getImageOrLoaded(scale)]: the best image available now at a
    scale; the empty image when there is none.  [ImageSet] is declared
    outside the sources, so a set is the function that answers this query. *)
Record ImageSet := {
  getImageOrLoaded : float -> ImagePtr;
}.

(** An [Emote], through the members the source reads: [images],
    [tooltip.string] and [getCopyString()]. *)
Record Emote := {
  images : ImageSet;
  tooltip : QString;
  getCopyString : QString;
}.

(** [EmotePtr] is a shared pointer to a constant emote: the address decides
    identity (and the order in a [std::set<EmotePtr>]), [deref] is [*ptr]. *)
Record EmotePtr := {
  address : positive;
  deref : Emote;
}.

(** [LayeredEmoteElement::Emote]: one layer. *)
Record LayeredEmote := {
  ptr : EmotePtr;
  flags : MessageElementFlags;
}.

(** A token of [Emojis::parse]: [boost::variant<EmotePtr, QString>]. *)
Inductive ParsedWord :=
| ParsedEmote (emote : EmotePtr)
| ParsedText (text : QString).

(** [getSettings()]: the settings the source reads. *)
Record Settings := {
  emoteScale : float;
  timestampFormat : QString;
  moderationActions : list ModerationAction.t;
}.

(** [getApp()]: fonts, theme and the emoji parser.  [getColor] is
    [MessageColor::getColor(theme)], [normalizeColor] the theme's in-place
    normalisation, [locale_toString] is [QLocale("en_US").toString(time, format)]. *)
Record Application := {
  getFontMetrics : FontStyle -> float -> QFontMetrics;
  getColor : MessageColor -> QColor;
  normalizeColor : QColor -> QColor;
  parse : QString -> list ParsedWord;
  locale_toString : QTime -> QString -> QString;
}.

(** ** Layout elements

    The classes of [MessageLayoutElement.hpp] are not among the sources, and
    the spec calls their objects "visual primitives" without more.  A layout
    element records its class, the constructor arguments, and the members
    that the setters called by the source write; the reference to the
    creating element is left out.  A new layout element has no link, no text
    and a trailing space, and the size it was given (the circle background
    adds its padding on every side, the reply curve has its width and no
    height); no property proved here depends on these choices. *)
Inductive LayoutElementKind :=
| KImage (image : ImagePtr)
| KImageWithBackground (image : ImagePtr) (color : QColor)
| KImageWithCircleBackground (image : ImagePtr) (background : QColor) (padding : Z)
| KLayeredImage (images : list ImagePtr) (sizes : list QSize.t)
| KText (text : QString) (color : QColor) (style : FontStyle) (scale : float)
| KTextIcon (line1 line2 : QString) (scale : float)
| KReplyCurve (width thickness radius neededMargin : float).

Record MessageLayoutElement := {
  kind : LayoutElementKind;
  rect_size : QSize.t;
  le_link : Link.t;
  le_trailingSpace : bool;
  le_text : QString;
  listensToLinkChanges : bool;
}.

Definition MessageLayoutElement_new (k : LayoutElementKind) (size : QSize.t) : MessageLayoutElement :=
  {| kind := k; rect_size := size; le_link := Link.mk Link.None [];
     le_trailingSpace := true; le_text := []; listensToLinkChanges := false |}.

Definition le_setLink (e : MessageLayoutElement) (link : Link.t) : MessageLayoutElement :=
  {| kind := kind e; rect_size := rect_size e; le_link := link;
     le_trailingSpace := le_trailingSpace e; le_text := le_text e;
     listensToLinkChanges := listensToLinkChanges e |}.

Definition le_setTrailingSpace (e : MessageLayoutElement) (value : bool) : MessageLayoutElement :=
  {| kind := kind e; rect_size := rect_size e; le_link := le_link e;
     le_trailingSpace := value; le_text := le_text e;
     listensToLinkChanges := listensToLinkChanges e |}.

Definition le_setText (e : MessageLayoutElement) (text : QString) : MessageLayoutElement :=
  {| kind := kind e; rect_size := rect_size e; le_link := le_link e;
     le_trailingSpace := le_trailingSpace e; le_text := text;
     listensToLinkChanges := listensToLinkChanges e |}.

Definition le_listenToLinkChanges (e : MessageLayoutElement) : MessageLayoutElement :=
  {| kind := kind e; rect_size := rect_size e; le_link := le_link e;
     le_trailingSpace := le_trailingSpace e; le_text := le_text e;
     listensToLinkChanges := true |}.

Definition ImageLayoutElement (image : ImagePtr) (size : QSize.t) :=
  MessageLayoutElement_new (KImage image) size.

Definition ImageWithBackgroundLayoutElement (image : ImagePtr) (size : QSize.t) (color : QColor) :=
  MessageLayoutElement_new (KImageWithBackground image color) size.

Definition ImageWithCircleBackgroundLayoutElement (image : ImagePtr) (imageSize : QSize.t)
    (background : QColor) (padding : Z) :=
  MessageLayoutElement_new (KImageWithCircleBackground image background padding)
    (QSize.mk (QSize.width imageSize + 2 * padding) (QSize.height imageSize + 2 * padding)).

Definition LayeredImageLayoutElement (imgs : list ImagePtr) (sizes : list QSize.t)
    (largestSize : QSize.t) :=
  MessageLayoutElement_new (KLayeredImage imgs sizes) largestSize.

Definition TextLayoutElement (text : QString) (size : QSize.t) (color : QColor)
    (style : FontStyle) (scale : float) :=
  MessageLayoutElement_new (KText text color style scale) size.

Definition TextIconLayoutElement (line1 line2 : QString) (scale : float) (size : QSize.t) :=
  MessageLayoutElement_new (KTextIcon line1 line2 scale) size.

Definition ReplyCurveLayoutElement (width thickness radius neededMargin : float) :=
  MessageLayoutElement_new (KReplyCurve width thickness radius neededMargin)
    (QSize.mk (f_to_int fops width) 0).

(** ** The layout container *)

(** The member [first] of the container; the source writes [Neutral]. *)
Inductive FirstWord := Neutral | RTL | LTR.

(** What a container accumulates, in emission order: layout elements and
    forced line breaks. *)
Inductive Primitive :=
| Element (e : MessageLayoutElement)
| LineBreak.

(** Modelled from the spec: the class [MessageLayoutContainer], which is not
    among the sources.  The spec: the container "tracks current render scale,
    remaining horizontal width on the current line, and accumulates emitted
    visual primitives; exposes line-break and fits-in-line queries".  The
    remaining width is kept as the width of a line and the cursor on it. *)
Record MessageLayoutContainer := {
  scale_ : float;
  width_ : Z;
  spaceWidth_ : Z;
  currentX_ : Z;
  first : FirstWord;
  emitted : list Primitive;
}.

(** Modelled from the spec: [MessageLayoutContainer::getScale], the current
    render scale. *)
Definition getScale (c : MessageLayoutContainer) : float := scale_ c.

(** Modelled from the spec: [MessageLayoutContainer::remainingWidth], the
    width left on the current line. *)
Definition remainingWidth (c : MessageLayoutContainer) : Z :=
  width_ c - currentX_ c.

(** Modelled from the spec: [MessageLayoutContainer::fitsInLine], a piece of
    the given width still fits on the current line. *)
Definition fitsInLine (c : MessageLayoutContainer) (width : Z) : bool :=
  currentX_ c + width <=? width_ c.

(** Modelled from the spec: [MessageLayoutContainer::atStartOfLine], nothing
    was added since the last line break. *)
Definition atStartOfLine (c : MessageLayoutContainer) : bool :=
  match last (emitted c) with
  | Some (Element _) => false
  | Some LineBreak => true
  | Datatypes.None => true
  end.

(** Modelled from the spec: [MessageLayoutContainer::breakLine], the forced
    line break; the cursor returns to the start of a line. *)
Definition breakLine (c : MessageLayoutContainer) : MessageLayoutContainer :=
  {| scale_ := scale_ c; width_ := width_ c; spaceWidth_ := spaceWidth_ c;
     currentX_ := 0; first := first c;
     emitted := emitted c ++ [LineBreak] |}.

(** Modelled from the spec: [MessageLayoutContainer::addElementNoLineBreak],
    the element is appended at the cursor, which advances by the element's
    width and by a space when it has a trailing space. *)
Definition addElementNoLineBreak (c : MessageLayoutContainer) (e : MessageLayoutElement)
    : MessageLayoutContainer :=
  {| scale_ := scale_ c; width_ := width_ c; spaceWidth_ := spaceWidth_ c;
     currentX_ := currentX_ c + QSize.width (rect_size e)
                  + (if le_trailingSpace e then spaceWidth_ c else 0);
     first := first c;
     emitted := emitted c ++ [Element e] |}.

(** Modelled from the spec: [MessageLayoutContainer::addElement], as above,
    after a line break when the element does not fit on the current line. *)
Definition addElement (c : MessageLayoutContainer) (e : MessageLayoutElement)
    : MessageLayoutContainer :=
  if fitsInLine c (QSize.width (rect_size e))
  then addElementNoLineBreak c e
  else addElementNoLineBreak (breakLine c) e.

(** The assignment [container.first = f]. *)
Definition set_first (c : MessageLayoutContainer) (f : FirstWord) : MessageLayoutContainer :=
  {| scale_ := scale_ c; width_ := width_ c; spaceWidth_ := spaceWidth_ c;
     currentX_ := currentX_ c; first := f; emitted := emitted c |}.

(** ** The element classes *)

Record EmoteElement := {
  emote_base : MessageElementBase;
  emote_ : EmotePtr;
  emote_textElement_ : option TextElement;
}.

Record LayeredEmoteElement := {
  layered_base : MessageElementBase;
  emotes_ : list LayeredEmote;
  emoteTooltips_ : list QString;
  layered_textElement_ : option TextElement;
  textElementColor_ : MessageColor;
}.

(** [BadgeElement] and its three subclasses, which override
    [makeImageLayoutElement] only. *)
Inductive BadgeClass :=
| Badge
| ModBadge
| VipBadge
| FfzBadge (color : QColor).

Record BadgeElement := {
  badge_base : MessageElementBase;
  badge_emote_ : EmotePtr;
  badge_class : BadgeClass;
}.

Record SingleLineTextElement := {
  single_base : MessageElementBase;
  single_color_ : MessageColor;
  single_style_ : FontStyle;
  single_words_ : list Word.t;
}.

Record TimestampElement := {
  timestamp_base : MessageElementBase;
  time_ : QTime;
  element_ : TextElement;
  format_ : QString;
}.

(** The class hierarchy under [MessageElement], as a closed sum. *)
Inductive MessageElement :=
| Empty (b : MessageElementBase)
| Image (b : MessageElementBase) (image_ : ImagePtr)
| CircularImage (b : MessageElementBase) (image_ : ImagePtr) (padding_ : Z) (background_ : QColor)
| EmoteE (e : EmoteElement)
| LayeredEmoteE (e : LayeredEmoteElement)
| BadgeE (e : BadgeElement)
| Text (e : TextElement)
| SingleLineText (e : SingleLineTextElement)
| TimestampE (e : TimestampElement)
| TwitchModeration (b : MessageElementBase)
| Linebreak (b : MessageElementBase)
| ScalingImage (b : MessageElementBase) (images_ : ImageSet)
| ReplyCurve (b : MessageElementBase).

(** The [MessageElement] subobject of an element. *)
Definition base (el : MessageElement) : MessageElementBase :=
  match el with
  | Empty b | Image b _ | CircularImage b _ _ _ | TwitchModeration b
  | Linebreak b | ScalingImage b _ | ReplyCurve b => b
  | EmoteE e => emote_base e
  | LayeredEmoteE e => layered_base e
  | BadgeE e => badge_base e
  | Text e => text_base e
  | SingleLineText e => single_base e
  | TimestampE e => timestamp_base e
  end.

Definition with_base (el : MessageElement) (b : MessageElementBase) : MessageElement :=
  match el with
  | Empty _ => Empty b
  | Image _ i => Image b i
  | CircularImage _ i p c => CircularImage b i p c
  | EmoteE e =>
      EmoteE {| emote_base := b; emote_ := emote_ e;
                emote_textElement_ := emote_textElement_ e |}
  | LayeredEmoteE e =>
      LayeredEmoteE {| layered_base := b; emotes_ := emotes_ e;
                       emoteTooltips_ := emoteTooltips_ e;
                       layered_textElement_ := layered_textElement_ e;
                       textElementColor_ := textElementColor_ e |}
  | BadgeE e =>
      BadgeE {| badge_base := b; badge_emote_ := badge_emote_ e;
                badge_class := badge_class e |}
  | Text e =>
      Text {| text_base := b; text_color_ := text_color_ e;
              text_style_ := text_style_ e; text_words_ := text_words_ e |}
  | SingleLineText e =>
      SingleLineText {| single_base := b; single_color_ := single_color_ e;
                        single_style_ := single_style_ e;
                        single_words_ := single_words_ e |}
  | TimestampE e =>
      TimestampE {| timestamp_base := b; time_ := time_ e;
                    element_ := element_ e; format_ := format_ e |}
  | TwitchModeration _ => TwitchModeration b
  | Linebreak _ => Linebreak b
  | ScalingImage _ i => ScalingImage b i
  | ReplyCurve _ => ReplyCurve b
  end.

(** The accessors and setters of [MessageElement]. *)
Definition getText (el : MessageElement) : QString := text_ (base el).
Definition getLink (el : MessageElement) : Link.t := link_ (base el).
Definition getTooltip (el : MessageElement) : QString := tooltip_ (base el).
Definition getThumbnail (el : MessageElement) : option ImagePtr := thumbnail_ (base el).
Definition getThumbnailType (el : MessageElement) : ThumbnailType := thumbnailType_ (base el).
Definition hasTrailingSpace (el : MessageElement) : bool := trailingSpace (base el).
Definition getFlags (el : MessageElement) : MessageElementFlags := flags_ (base el).

Definition setLink (el : MessageElement) (link : Link.t) : MessageElement :=
  with_base el (Base_setLink (base el) link).
Definition setText (el : MessageElement) (text : QString) : MessageElement :=
  with_base el (Base_setText (base el) text).
Definition setTooltip (el : MessageElement) (tooltip : QString) : MessageElement :=
  with_base el (Base_setTooltip (base el) tooltip).
Definition setThumbnail (el : MessageElement) (thumbnail : option ImagePtr) : MessageElement :=
  with_base el (Base_setThumbnail (base el) thumbnail).
Definition setThumbnailType (el : MessageElement) (type : ThumbnailType) : MessageElement :=
  with_base el (Base_setThumbnailType (base el) type).
Definition setTrailingSpace (el : MessageElement) (value : bool) : MessageElement :=
  with_base el (Base_setTrailingSpace (base el) value).
Definition addFlags (el : MessageElement) (flags : MessageElementFlags) : MessageElement :=
  with_base el (Base_addFlags (base el) flags).

(** [QSize::operator*(qreal)]: both dimensions rounded. *)
Definition QSize_mul (s : QSize.t) (c : float) : QSize.t :=
  QSize.mk (f_round fops (f_mul fops (f_of_int fops (QSize.width s)) c))
           (f_round fops (f_mul fops (f_of_int fops (QSize.height s)) c)).

(** [getBoundingBoxSize]: the largest width and the largest height. *)
Definition getBoundingBoxSize (imgs : list ImagePtr) : QSize.t :=
  let '(width, height) :=
    foldl (fun '(width, height) img =>
             (Z.max width (Image.width img), Z.max height (Image.height img)))
          (0, 0) imgs in
  QSize.mk width height.

(** ** Constructors *)

Definition EmptyElement_new : MessageElement :=
  Empty (MessageElement_new (FlagNone Flag)).

Definition ImageElement_new (image : ImagePtr) (flags : MessageElementFlags) : MessageElement :=
  Image (MessageElement_new flags) image.

Definition CircularImageElement_new (image : ImagePtr) (padding : Z) (background : QColor)
    (flags : MessageElementFlags) : MessageElement :=
  CircularImage (MessageElement_new flags) image padding background.

(** [EmoteElement::EmoteElement]: the fallback text element shows the copy
    string, the tooltip is the emote's. *)
Definition EmoteElement_new (emote : EmotePtr) (flags : MessageElementFlags)
    (textElementColor : MessageColor) : EmoteElement :=
  {| emote_base := Base_setTooltip (MessageElement_new flags) (tooltip (deref emote));
     emote_ := emote;
     emote_textElement_ :=
       Some (TextElement_new (getCopyString (deref emote)) (Misc Flag) textElementColor
               ChatMedium) |}.

(** ** Layered emotes *)

(** The loop of [LayeredEmoteElement::getCopyString], from index [i] on:
    a space before every layer but the first, then the layer's copy string. *)
Fixpoint getCopyString_loop (layers : list LayeredEmote) (i : nat) (result : QString) : QString :=
  match layers with
  | [] => result
  | emote :: layers' =>
      let result := if (i =? 0)%nat then result else result ++ QStringLiteral " " in
      getCopyString_loop layers' (S i) (result ++ getCopyString (deref (ptr emote)))
  end.

Definition LayeredEmoteElement_getCopyString (this : LayeredEmoteElement) : QString :=
  getCopyString_loop (emotes_ this) 0 [].

(** [LayeredEmoteElement::updateTooltips]. *)
Definition updateTooltips (this : LayeredEmoteElement) : LayeredEmoteElement :=
  let this1 :=
    match emotes_ this with
    | [] => this
    | _ :: _ =>
        let copyStr := LayeredEmoteElement_getCopyString this in
        {| layered_base := Base_setTooltip (layered_base this) copyStr;
           emotes_ := emotes_ this;
           emoteTooltips_ := emoteTooltips_ this;
           layered_textElement_ :=
             Some (TextElement_new copyStr (Misc Flag) (textElementColor_ this) ChatMedium);
           textElementColor_ := textElementColor_ this |}
    end in
  {| layered_base := layered_base this1;
     emotes_ := emotes_ this1;
     emoteTooltips_ := (fun emote => tooltip (deref (ptr emote))) <$> emotes_ this1;
     layered_textElement_ := layered_textElement_ this1;
     textElementColor_ := textElementColor_ this1 |}.

(** [LayeredEmoteElement::LayeredEmoteElement]. *)
Definition LayeredEmoteElement_new (emotes : list LayeredEmote) (flags : MessageElementFlags)
    (textElementColor : MessageColor) : LayeredEmoteElement :=
  updateTooltips
    {| layered_base := MessageElement_new flags;
       emotes_ := emotes;
       emoteTooltips_ := [];
       layered_textElement_ := Datatypes.None;
       textElementColor_ := textElementColor |}.

(** [LayeredEmoteElement::addEmoteLayer]. *)
Definition addEmoteLayer (this : LayeredEmoteElement) (emote : LayeredEmote) : LayeredEmoteElement :=
  updateTooltips
    {| layered_base := layered_base this;
       emotes_ := emotes_ this ++ [emote];
       emoteTooltips_ := emoteTooltips_ this;
       layered_textElement_ := layered_textElement_ this;
       textElementColor_ := textElementColor_ this |}.

(** [LayeredEmoteElement::getLoadedImages]: the images of the layers at the
    scale, the empty ones skipped. *)
Fixpoint getLoadedImages_loop (layers : list LayeredEmote) (scale : float) (res : list ImagePtr)
    : list ImagePtr :=
  match layers with
  | [] => res
  | emote :: layers' =>
      let image := getImageOrLoaded (images (deref (ptr emote))) scale in
      if Image.isEmpty image then getLoadedImages_loop layers' scale res
      else getLoadedImages_loop layers' scale (res ++ [image])
  end.

Definition getLoadedImages (this : LayeredEmoteElement) (scale : float) : list ImagePtr :=
  getLoadedImages_loop (emotes_ this) scale [].

Definition getEmoteTooltips (this : LayeredEmoteElement) : list QString := emoteTooltips_ this.
Definition getEmotes (this : LayeredEmoteElement) : list LayeredEmote := emotes_ this.

(** The functor [NotDuplicate] of [getUniqueEmotes]: its state is the set of
    pointers seen so far, a call tells whether the pointer was inserted. *)
Definition NotDuplicate (seen : gset positive) (element : LayeredEmote) : bool * gset positive :=
  (bool_decide (address (ptr element) ∉ seen), {[ address (ptr element) ]} ∪ seen).

(** [std::copy_if] with a predicate that carries state. *)
Fixpoint copy_if {A S : Type} (pred : S -> A -> bool * S) (st : S) (l : list A) : list A :=
  match l with
  | [] => []
  | a :: l' =>
      let '(keep, st') := pred st a in
      if keep then a :: copy_if pred st' l' else copy_if pred st' l'
  end.

(** [LayeredEmoteElement::getUniqueEmotes]. *)
Definition getUniqueEmotes (this : LayeredEmoteElement) : list LayeredEmote :=
  copy_if NotDuplicate ∅ (emotes_ this).

(** ** Text *)

(** The lambda [getTextLayoutElement] of the two text classes; [b], [color_]
    and [style_] are the members of the element it closes over. *)
Definition getTextLayoutElement (app : Application) (metrics : QFontMetrics)
    (container : MessageLayoutContainer) (b : MessageElementBase)
    (color_ : MessageColor) (style_ : FontStyle)
    (text : QString) (width : Z) (hasTrailingSpace : bool) : MessageLayoutElement :=
  let color := normalizeColor app (getColor app color_) in
  let e := le_setLink
             (TextLayoutElement text (QSize.mk width (height metrics)) color style_
                (getScale container))
             (link_ b) in
  let e := le_setTrailingSpace e hasTrailingSpace in
  let e := le_setText e text in
  if decide (Link.type (link_ b) = Link.Url) then le_listenToLinkChanges e else e.

(** Inside the wrapping loop at index [i]: whether a surrogate pair starts
    there, and the width of the character (one or two code units). *)
Definition isSurrogateAt (text : QString) (i : nat) : bool :=
  bool_decide (S i < length text)%nat && isHighSurrogate (text !!! i).

Definition charWidthAt (metrics : QFontMetrics) (text : QString) (i : nat) : Z :=
  if isSurrogateAt text i
  then horizontalAdvance metrics (mid text i 2)
  else horizontalAdvanceChar metrics (text !!! i).

(** The character loop of [TextElement::addToContainer]
    ([for (int i = 0; i < textLength; i++)]), from the state [(i, wordStart,
    width)].  Every round advances [i], so [fuel] rounds with
    [length text <= i + fuel] run the loop to its end. *)
Fixpoint wrapLoop (app : Application) (metrics : QFontMetrics) (this : TextElement)
    (text : QString) (fuel : nat) (i wordStart : nat) (width : Z)
    (container : MessageLayoutContainer) : nat * Z * MessageLayoutContainer :=
  match fuel with
  | O => (wordStart, width, container)
  | S fuel' =>
      if bool_decide (i < length text)%nat then
        let isSurrogate := isSurrogateAt text i in
        let charWidth := charWidthAt metrics text i in
        if negb (fitsInLine container (width + charWidth)) then
          let container :=
            addElementNoLineBreak container
              (getTextLayoutElement app metrics container (text_base this)
                 (text_color_ this) (text_style_ this)
                 (mid text wordStart (i - wordStart)) width false) in
          let container := breakLine container in
          wrapLoop app metrics this text fuel'
            (S (if isSurrogate then S i else i)) i charWidth container
        else
          wrapLoop app metrics this text fuel'
            (S (if isSurrogate then S i else i)) wordStart (width + charWidth) container
      else (wordStart, width, container)
  end.

(** "we done goofed, we need to wrap the text": the character loop and the
    final piece. *)
Definition wrapText (app : Application) (metrics : QFontMetrics) (this : TextElement)
    (text : QString) (container : MessageLayoutContainer) : MessageLayoutContainer :=
  let '(wordStart, width, container) :=
    wrapLoop app metrics this text (length text) 0 0 0 container in
  addElementNoLineBreak container
    (getTextLayoutElement app metrics container (text_base this)
       (text_color_ this) (text_style_ this)
       (mid_from text wordStart) width (trailingSpace (text_base this))).

(** The body of the loop over the words of a [TextElement]. *)
Definition TextElement_addWord (app : Application) (metrics : QFontMetrics)
    (this : TextElement) (container : MessageLayoutContainer) (word : Word.t)
    : Word.t * MessageLayoutContainer :=
  let word := Word.mk (Word.text word) (horizontalAdvance metrics (Word.text word)) in
  let whole (container : MessageLayoutContainer) :=
    addElementNoLineBreak container
      (getTextLayoutElement app metrics container (text_base this)
         (text_color_ this) (text_style_ this)
         (Word.text word) (Word.width word) (trailingSpace (text_base this))) in
  if fitsInLine container (Word.width word) then (word, whole container)
  else if negb (atStartOfLine container) then
    let container := breakLine container in
    if fitsInLine container (Word.width word) then (word, whole container)
    else (word, wrapText app metrics this (Word.text word) container)
  else (word, wrapText app metrics this (Word.text word) container).

Fixpoint TextElement_addWords (app : Application) (metrics : QFontMetrics)
    (this : TextElement) (words : list Word.t) (container : MessageLayoutContainer)
    : list Word.t * MessageLayoutContainer :=
  match words with
  | [] => ([], container)
  | word :: words' =>
      let '(word, container) := TextElement_addWord app metrics this container word in
      let '(words', container) := TextElement_addWords app metrics this words' container in
      (word :: words', container)
  end.

(** [TextElement::addToContainer].  The element comes back with the widths of
    its words measured. *)
Definition TextElement_addToContainer (app : Application) (this : TextElement)
    (container : MessageLayoutContainer) (flags : MessageElementFlags)
    : TextElement * MessageLayoutContainer :=
  if hasAny flags (flags_ (text_base this)) then
    let metrics := getFontMetrics app (text_style_ this) (getScale container) in
    let '(words, container) :=
      TextElement_addWords app metrics this (text_words_ this) container in
    ({| text_base := text_base this; text_color_ := text_color_ this;
        text_style_ := text_style_ this; text_words_ := words |}, container)
  else (this, container).

(** [SingleLineTextElement::SingleLineTextElement]. *)
Definition SingleLineTextElement_new (text : QString) (flags : MessageElementFlags)
    (color : MessageColor) (style : FontStyle) : SingleLineTextElement :=
  {| single_base := MessageElement_new flags;
     single_color_ := color;
     single_style_ := style;
     single_words_ := (fun word => Word.mk word (-1)) <$> split 32 text |}.

Definition ellipsis : QString := QStringLiteral "...".

(** The inner loop of [SingleLineTextElement::addToContainer], over the
    tokens of one word.  A [break] ends this loop only: the function returns
    the pending text and the container, and the loop over the words goes on
    with the next word. *)
Fixpoint parsedWordsLoop (settings : Settings) (app : Application) (metrics : QFontMetrics)
    (this : SingleLineTextElement) (parsedWords : list ParsedWord)
    (currentText : QString) (container : MessageLayoutContainer)
    : QString * MessageLayoutContainer :=
  match parsedWords with
  | [] => (currentText, container)
  | ParsedText text :: parsedWords' =>
      let currentText :=
        if bool_decide (currentText = []) then currentText
        else currentText ++ QStringLiteral " " in
      let currentText := currentText ++ text in
      let prev := currentText in
      let currentText := elidedText metrics currentText (remainingWidth container) in
      if bool_decide (currentText <> prev) then (currentText, container)
      else parsedWordsLoop settings app metrics this parsedWords' currentText container
  | ParsedEmote emote :: parsedWords' =>
      let image := getImageOrLoaded (images (deref emote)) (getScale container) in
      if negb (Image.isEmpty image) then
        let emoteScale := emoteScale settings in
        let currentWidth := horizontalAdvance metrics currentText in
        let emoteSize :=
          QSize_mul (QSize.mk (Image.width image) (Image.height image))
                    (f_mul fops emoteScale (getScale container)) in
        if negb (fitsInLine container (currentWidth + QSize.width emoteSize)) then
          (currentText ++ ellipsis, container)
        else
          let container :=
            addElementNoLineBreak container
              (getTextLayoutElement app metrics container (single_base this)
                 (single_color_ this) (single_style_ this)
                 currentText currentWidth false) in
          let currentText : QString := [] in
          let container :=
            addElementNoLineBreak container
              (le_setLink (ImageLayoutElement image emoteSize) (link_ (single_base this))) in
          parsedWordsLoop settings app metrics this parsedWords' currentText container
      else parsedWordsLoop settings app metrics this parsedWords' currentText container
  end.

(** The outer loop, over the words of the element. *)
Fixpoint singleLineWordsLoop (settings : Settings) (app : Application) (metrics : QFontMetrics)
    (this : SingleLineTextElement) (words : list Word.t)
    (currentText : QString) (container : MessageLayoutContainer)
    : QString * MessageLayoutContainer :=
  match words with
  | [] => (currentText, container)
  | word :: words' =>
      let '(currentText, container) :=
        parsedWordsLoop settings app metrics this (parse app (Word.text word))
          currentText container in
      singleLineWordsLoop settings app metrics this words' currentText container
  end.

(** [SingleLineTextElement::addToContainer]. *)
Definition SingleLineTextElement_addToContainer (settings : Settings) (app : Application)
    (this : SingleLineTextElement) (container : MessageLayoutContainer)
    (flags : MessageElementFlags) : MessageLayoutContainer :=
  if hasAny flags (flags_ (single_base this)) then
    let metrics := getFontMetrics app (single_style_ this) (getScale container) in
    let container := set_first container Neutral in
    let '(currentText, container) :=
      singleLineWordsLoop settings app metrics this (single_words_ this) [] container in
    let container :=
      if negb (bool_decide (currentText = [])) then
        let currentText := trimmed currentText in
        let width := horizontalAdvance metrics currentText in
        addElementNoLineBreak container
          (getTextLayoutElement app metrics container (single_base this)
             (single_color_ this) (single_style_ this) currentText width false)
      else container in
    breakLine container
  else container.

(** ** Images, emotes and badges *)

(** [ImageElement::addToContainer]. *)
Definition ImageElement_addToContainer (b : MessageElementBase) (image_ : ImagePtr)
    (container : MessageLayoutContainer) (flags : MessageElementFlags)
    : MessageLayoutContainer :=
  if hasAny flags (flags_ b) then
    let size :=
      QSize.mk
        (f_to_int fops (f_mul fops (f_of_int fops (Image.width image_)) (getScale container)))
        (f_to_int fops (f_mul fops (f_of_int fops (Image.height image_)) (getScale container))) in
    addElement container (le_setLink (ImageLayoutElement image_ size) (link_ b))
  else container.

(** [CircularImageElement::addToContainer]. *)
Definition CircularImageElement_addToContainer (b : MessageElementBase) (image_ : ImagePtr)
    (padding_ : Z) (background_ : QColor)
    (container : MessageLayoutContainer) (flags : MessageElementFlags)
    : MessageLayoutContainer :=
  if hasAny flags (flags_ b) then
    let imgSize :=
      QSize_mul (QSize.mk (Image.width image_) (Image.height image_)) (getScale container) in
    addElement container
      (le_setLink
         (ImageWithCircleBackgroundLayoutElement image_ imgSize background_ padding_)
         (link_ b))
  else container.

(** [EmoteElement::addToContainer]: the image when emote images are asked
    for, the fallback text otherwise. *)
Definition EmoteElement_addToContainer (settings : Settings) (app : Application)
    (this : EmoteElement) (container : MessageLayoutContainer)
    (flags : MessageElementFlags) : EmoteElement * MessageLayoutContainer :=
  if hasAny flags (flags_ (emote_base this)) then
    if has flags (EmoteImages Flag) then
      let image := getImageOrLoaded (images (deref (emote_ this))) (getScale container) in
      if Image.isEmpty image then (this, container)
      else
        let emoteScale := emoteScale settings in
        let size :=
          QSize.mk
            (f_to_int fops
               (f_mul fops (f_mul fops (getScale container) (f_of_int fops (Image.width image)))
                  emoteScale))
            (f_to_int fops
               (f_mul fops (f_mul fops (getScale container) (f_of_int fops (Image.height image)))
                  emoteScale)) in
        (this,
         addElement container
           (le_setLink (ImageLayoutElement image size) (link_ (emote_base this))))
    else
      match emote_textElement_ this with
      | Some textElement =>
          let '(textElement, container) :=
            TextElement_addToContainer app textElement container (Misc Flag) in
          ({| emote_base := emote_base this; emote_ := emote_ this;
              emote_textElement_ := Some textElement |}, container)
      | Datatypes.None => (this, container)
      end
  else (this, container).

(** [LayeredEmoteElement::addToContainer]. *)
Definition LayeredEmoteElement_addToContainer (settings : Settings) (app : Application)
    (this : LayeredEmoteElement) (container : MessageLayoutContainer)
    (flags : MessageElementFlags) : LayeredEmoteElement * MessageLayoutContainer :=
  if hasAny flags (flags_ (layered_base this)) then
    if has flags (EmoteImages Flag) then
      let imgs := getLoadedImages this (getScale container) in
      match imgs with
      | [] => (this, container)
      | _ :: _ =>
          let emoteScale := emoteScale settings in
          let overallScale := f_mul fops emoteScale (getScale container) in
          let largestSize := QSize_mul (getBoundingBoxSize imgs) overallScale in
          let individualSizes :=
            (fun img => QSize_mul (QSize.mk (Image.width img) (Image.height img)) overallScale)
              <$> imgs in
          (this,
           addElement container
             (le_setLink (LayeredImageLayoutElement imgs individualSizes largestSize)
                (link_ (layered_base this))))
      end
    else
      match layered_textElement_ this with
      | Some textElement =>
          let '(textElement, container) :=
            TextElement_addToContainer app textElement container (Misc Flag) in
          ({| layered_base := layered_base this; emotes_ := emotes_ this;
              emoteTooltips_ := emoteTooltips_ this;
              layered_textElement_ := Some textElement;
              textElementColor_ := textElementColor_ this |}, container)
      | Datatypes.None => (this, container)
      end
  else (this, container).

(** [BadgeElement::BadgeElement] and the constructors of its subclasses. *)
Definition BadgeElement_new (class : BadgeClass) (emote : EmotePtr)
    (flags : MessageElementFlags) : BadgeElement :=
  {| badge_base := Base_setTooltip (MessageElement_new flags) (tooltip (deref emote));
     badge_emote_ := emote;
     badge_class := class |}.

Definition modBadgeBackgroundColor : QColor := 0x34AE0A.

(** The virtual [makeImageLayoutElement] of the badge classes. *)
Definition BadgeElement_makeImageLayoutElement (this : BadgeElement)
    (image : ImagePtr) (size : QSize.t) : MessageLayoutElement :=
  match badge_class this with
  | Badge | VipBadge =>
      le_setLink (ImageLayoutElement image size) (link_ (badge_base this))
  | ModBadge =>
      le_setLink (ImageWithBackgroundLayoutElement image size modBadgeBackgroundColor)
        (link_ (badge_base this))
  | FfzBadge color =>
      le_setLink (ImageWithBackgroundLayoutElement image size color)
        (link_ (badge_base this))
  end.

(** [BadgeElement::addToContainer], inherited by the subclasses. *)
Definition BadgeElement_addToContainer (this : BadgeElement)
    (container : MessageLayoutContainer) (flags : MessageElementFlags)
    : MessageLayoutContainer :=
  if hasAny flags (flags_ (badge_base this)) then
    let image := getImageOrLoaded (images (deref (badge_emote_ this))) (getScale container) in
    if Image.isEmpty image then container
    else
      let size :=
        QSize.mk
          (f_to_int fops (f_mul fops (getScale container) (f_of_int fops (Image.width image))))
          (f_to_int fops (f_mul fops (getScale container) (f_of_int fops (Image.height image)))) in
      addElement container (BadgeElement_makeImageLayoutElement this image size)
  else container.

(** [ScalingImageElement::addToContainer]. *)
Definition ScalingImageElement_addToContainer (b : MessageElementBase) (images_ : ImageSet)
    (container : MessageLayoutContainer) (flags : MessageElementFlags)
    : MessageLayoutContainer :=
  if hasAny flags (flags_ b) then
    let image := getImageOrLoaded images_ (getScale container) in
    if Image.isEmpty image then container
    else
      let size :=
        QSize.mk
          (f_to_int fops (f_mul fops (f_of_int fops (Image.width image)) (getScale container)))
          (f_to_int fops (f_mul fops (f_of_int fops (Image.height image)) (getScale container))) in
      addElement container (le_setLink (ImageLayoutElement image size) (link_ b))
  else container.

(** ** Timestamps *)

(** [TimestampElement::formatTime]: the time in the format of the settings,
    as a text element. *)
Definition formatTime (settings : Settings) (app : Application) (time : QTime) : TextElement :=
  let format := locale_toString app time (timestampFormat settings) in
  TextElement_new format (Timestamp Flag) MessageColor_System ChatMedium.

(** [TimestampElement::TimestampElement]: [format_] starts out empty. *)
Definition TimestampElement_new (settings : Settings) (app : Application) (time : QTime)
    : TimestampElement :=
  {| timestamp_base := MessageElement_new (Timestamp Flag);
     time_ := time;
     element_ := formatTime settings app time;
     format_ := [] |}.

(** The first statement of [TimestampElement::addToContainer]: the cached
    element is replaced when the format of the settings is not the cached
    one. *)
Definition TimestampElement_refresh (settings : Settings) (app : Application)
    (this : TimestampElement) : TimestampElement :=
  if bool_decide (timestampFormat settings <> format_ this) then
    {| timestamp_base := timestamp_base this;
       time_ := time_ this;
       element_ := formatTime settings app (time_ this);
       format_ := timestampFormat settings |}
  else this.

(** [TimestampElement::addToContainer]. *)
Definition TimestampElement_addToContainer (settings : Settings) (app : Application)
    (this : TimestampElement) (container : MessageLayoutContainer)
    (flags : MessageElementFlags) : TimestampElement * MessageLayoutContainer :=
  if hasAny flags (flags_ (timestamp_base this)) then
    let this := TimestampElement_refresh settings app this in
    let '(element, container) :=
      TextElement_addToContainer app (element_ this) container flags in
    ({| timestamp_base := timestamp_base this; time_ := time_ this;
        element_ := element; format_ := format_ this |}, container)
  else (this, container).

(** ** Moderation buttons, line breaks, reply curves *)

Definition TwitchModerationElement_new : MessageElement :=
  TwitchModeration (MessageElement_new (ModeratorTools Flag)).

(** [TwitchModerationElement::addToContainer]: the gate is the flag
    [ModeratorTools] itself. *)
Definition TwitchModerationElement_addToContainer (settings : Settings)
    (b : MessageElementBase) (container : MessageLayoutContainer)
    (flags : MessageElementFlags) : MessageLayoutContainer :=
  if has flags (ModeratorTools Flag) then
    let size :=
      QSize.mk (f_to_int fops (f_mul fops (getScale container) (f_of_int fops 16)))
               (f_to_int fops (f_mul fops (getScale container) (f_of_int fops 16))) in
    foldl
      (fun container action =>
         match ModerationAction.getImage action with
         | Some image =>
             addElement container
               (le_setLink (ImageLayoutElement image size)
                  (Link.mk Link.UserAction (ModerationAction.getAction action)))
         | Datatypes.None =>
             addElement container
               (le_setLink
                  (TextIconLayoutElement (ModerationAction.getLine1 action)
                     (ModerationAction.getLine2 action) (getScale container) size)
                  (Link.mk Link.UserAction (ModerationAction.getAction action)))
         end)
      container (moderationActions settings)
  else container.

(** [LinebreakElement::addToContainer]. *)
Definition LinebreakElement_addToContainer (b : MessageElementBase)
    (container : MessageLayoutContainer) (flags : MessageElementFlags)
    : MessageLayoutContainer :=
  if hasAny flags (flags_ b) then breakLine container else container.

(** [ReplyCurveElement::addToContainer]. *)
Definition ReplyCurveElement_addToContainer (b : MessageElementBase)
    (container : MessageLayoutContainer) (flags : MessageElementFlags)
    : MessageLayoutContainer :=
  let width := 18 in
  let thickness := f_of_ratio fops 3 2 in
  let radius := 6 in
  let margin := 2 in
  if hasAny flags (flags_ b) then
    let scale := getScale container in
    addElement container
      (ReplyCurveLayoutElement
         (f_mul fops (f_of_int fops width) scale)
         (f_mul fops thickness scale)
         (f_mul fops (f_of_int fops radius) scale)
         (f_mul fops (f_of_int fops margin) scale))
  else container.

(** ** The virtual functions *)

(** [MessageElement::addToContainer], dispatched on the class.  The element
    comes back because rendering writes caches inside some classes. *)
Definition addToContainer (settings : Settings) (app : Application)
    (el : MessageElement) (container : MessageLayoutContainer)
    (flags : MessageElementFlags) : MessageElement * MessageLayoutContainer :=
  match el with
  | Empty _ => (el, container)
  | Image b image_ => (el, ImageElement_addToContainer b image_ container flags)
  | CircularImage b image_ padding_ background_ =>
      (el, CircularImageElement_addToContainer b image_ padding_ background_ container flags)
  | EmoteE e =>
      let '(e, container) := EmoteElement_addToContainer settings app e container flags in
      (EmoteE e, container)
  | LayeredEmoteE e =>
      let '(e, container) := LayeredEmoteElement_addToContainer settings app e container flags in
      (LayeredEmoteE e, container)
  | BadgeE e => (el, BadgeElement_addToContainer e container flags)
  | Text e =>
      let '(e, container) := TextElement_addToContainer app e container flags in
      (Text e, container)
  | SingleLineText e =>
      (el, SingleLineTextElement_addToContainer settings app e container flags)
  | TimestampE e =>
      let '(e, container) := TimestampElement_addToContainer settings app e container flags in
      (TimestampE e, container)
  | TwitchModeration b =>
      (el, TwitchModerationElement_addToContainer settings b container flags)
  | Linebreak b => (el, LinebreakElement_addToContainer b container flags)
  | ScalingImage b images_ =>
      (el, ScalingImageElement_addToContainer b images_ container flags)
  | ReplyCurve b => (el, ReplyCurveElement_addToContainer b container flags)
  end.

(** [SingleLineTextElement::clone]. *)
Definition SingleLineTextElement_clone (this : SingleLineTextElement) : SingleLineTextElement :=
  let el := SingleLineTextElement_new [] (flags_ (single_base this))
              (single_color_ this) (single_style_ this) in
  {| single_base := Base_cloneFrom (single_base el) (single_base this);
     single_color_ := single_color_ el;
     single_style_ := single_style_ el;
     single_words_ := single_words_ this |}.

(** [EmoteElement::clone].  The constructor is called with its default text
    colour; the text element of the copy is then replaced by a clone of the
    original's (which the constructor never leaves null). *)
Definition EmoteElement_clone (this : EmoteElement) : EmoteElement :=
  let el := EmoteElement_new (emote_ this) (flags_ (emote_base this)) MessageColor_Text in
  {| emote_base := Base_cloneFrom (emote_base el) (emote_base this);
     emote_ := emote_ el;
     emote_textElement_ := TextElement_clone <$> emote_textElement_ this |}.

(** [LayeredEmoteElement::clone]. *)
Definition LayeredEmoteElement_clone (this : LayeredEmoteElement) : LayeredEmoteElement :=
  let emotes := getEmotes this in
  let el := LayeredEmoteElement_new emotes (flags_ (layered_base this))
              (textElementColor_ this) in
  {| layered_base := Base_cloneFrom (layered_base el) (layered_base this);
     emotes_ := emotes_ el;
     emoteTooltips_ := emoteTooltips_ el;
     layered_textElement_ := layered_textElement_ el;
     textElementColor_ := textElementColor_ el |}.

(** [BadgeElement::clone] and the overrides of the subclasses: each builds an
    element of its own class. *)
Definition BadgeElement_clone (this : BadgeElement) : BadgeElement :=
  let el := BadgeElement_new (badge_class this) (badge_emote_ this)
              (flags_ (badge_base this)) in
  {| badge_base := Base_cloneFrom (badge_base el) (badge_base this);
     badge_emote_ := badge_emote_ el;
     badge_class := badge_class el |}.

(** [TimestampElement::clone]. *)
Definition TimestampElement_clone (settings : Settings) (app : Application)
    (this : TimestampElement) : TimestampElement :=
  let el := TimestampElement_new settings app (time_ this) in
  {| timestamp_base := Base_cloneFrom (timestamp_base el) (timestamp_base this);
     time_ := time_ el;
     element_ := element_ el;
     format_ := format_ el |}.

(** [MessageElement::clone], dispatched on the class: every override builds a
    new element with the constructor of its class and calls [cloneFrom]. *)
Definition clone (settings : Settings) (app : Application) (this : MessageElement)
    : MessageElement :=
  match this with
  | Empty b => Empty (Base_cloneFrom (base EmptyElement_new) b)
  | Image b image_ =>
      Image (Base_cloneFrom (base (ImageElement_new image_ (flags_ b))) b) image_
  | CircularImage b image_ padding_ background_ =>
      CircularImage
        (Base_cloneFrom
           (base (CircularImageElement_new image_ padding_ background_ (flags_ b))) b)
        image_ padding_ background_
  | EmoteE e => EmoteE (EmoteElement_clone e)
  | LayeredEmoteE e => LayeredEmoteE (LayeredEmoteElement_clone e)
  | BadgeE e => BadgeE (BadgeElement_clone e)
  | Text e => Text (TextElement_clone e)
  | SingleLineText e => SingleLineText (SingleLineTextElement_clone e)
  | TimestampE e => TimestampE (TimestampElement_clone settings app e)
  | TwitchModeration b =>
      TwitchModeration (Base_cloneFrom (base TwitchModerationElement_new) b)
  | Linebreak b => Linebreak (Base_cloneFrom (MessageElement_new (flags_ b)) b)
  | ScalingImage b images_ =>
      ScalingImage (Base_cloneFrom (MessageElement_new (flags_ b)) b) images_
  | ReplyCurve b =>
      ReplyCurve (Base_cloneFrom (MessageElement_new (RepliedMessage Flag)) b)
  end.

(** ** Elements as objects

    A message owns its elements through [std::unique_ptr]; [clone()] returns
    a pointer to a new object.  The store maps the address of every live
    element to its state, so that a write through one pointer can be told
    apart from a write through another. *)
Inductive Mutation :=
| Call_addFlags (flags : MessageElementFlags)
| Call_setLink (link : Link.t)
| Call_setTooltip (tooltip : QString)
| Call_setText (text : QString)
| Call_setThumbnail (thumbnail : option ImagePtr)
| Call_setThumbnailType (type : ThumbnailType)
| Call_setTrailingSpace (value : bool).

Definition call (m : Mutation) (el : MessageElement) : MessageElement :=
  match m with
  | Call_addFlags flags => addFlags el flags
  | Call_setLink link => setLink el link
  | Call_setTooltip tooltip => setTooltip el tooltip
  | Call_setText text => setText el text
  | Call_setThumbnail thumbnail => setThumbnail el thumbnail
  | Call_setThumbnailType type => setThumbnailType el type
  | Call_setTrailingSpace value => setTrailingSpace el value
  end.

(** [p->m(...)]: the object at [p] is changed, no other. *)
Definition call_at (store : gmap positive MessageElement) (p : positive) (m : Mutation)
    : gmap positive MessageElement :=
  alter (call m) p store.

(** [p->clone()]: a new object at an address not in use. *)
Definition clone_at (settings : Settings) (app : Application)
    (store : gmap positive MessageElement) (p : positive)
    : option (positive * gmap positive MessageElement) :=
  match store !! p with
  | Some el =>
      let q := fresh (dom store) in
      Some (q, <[q := clone settings app el]> store)
  | Datatypes.None => Datatypes.None
  end.

End Model.

Arguments ImageSet : clear implicits.
Arguments Emote : clear implicits.
Arguments EmotePtr : clear implicits.
Arguments LayeredEmote : clear implicits.
Arguments ParsedWord : clear implicits.
Arguments Settings : clear implicits.
Arguments Application : clear implicits.
Arguments LayoutElementKind : clear implicits.
Arguments MessageLayoutElement : clear implicits.
Arguments Primitive : clear implicits.
Arguments MessageLayoutContainer : clear implicits.
Arguments EmoteElement : clear implicits.
Arguments LayeredEmoteElement : clear implicits.
Arguments BadgeElement : clear implicits.
Arguments MessageElement : clear implicits.

(** ** Paints backed by an image: [UrlPaint] *)

Section UrlPaintModel.

(** [QRectF] and [PaintDropShadow] are only passed along; [toRect] is
    [QRectF::toRect]. *)
Context {QRectF PaintDropShadow : Type} (toRect : QRectF -> QRect.t).

Record UrlPaint := {
  id : QString;
  name_ : QString;
  paint_image_ : ImagePtr;
  dropShadows_ : list PaintDropShadow;
}.

(** [UrlPaint::UrlPaint]. *)
Definition UrlPaint_new (name id : QString) (image : ImagePtr)
    (dropShadows : list PaintDropShadow) : UrlPaint :=
  {| id := id; name_ := name; paint_image_ := image; dropShadows_ := dropShadows |}.

(** [UrlPaint::animated]. *)
Definition UrlPaint_animated (this : UrlPaint) : bool :=
  Image.animated (paint_image_ this).

(** [UrlPaint::asBrush]: the paint drawn over the user colour and cut to the
    rectangle when the pixmap is there, the plain user colour otherwise. *)
Definition asBrush (this : UrlPaint) (userColor : QColor) (drawingRect : QRectF) : QBrush :=
  match Image.pixmapOrLoad (paint_image_ this) with
  | Some paintPixmap =>
      let rect := toRect drawingRect in
      let paintPixmap := scaledToWidth paintPixmap (QRect.width rect) in
      let userColorPixmap := filledLike paintPixmap userColor in
      let userColorPixmap := drawPixmap userColorPixmap 0 0 paintPixmap in
      let combinedPixmap :=
        copy userColorPixmap (QRect.mk 0 0 (QRect.width rect) (QRect.height rect)) in
      TextureBrush combinedPixmap
  | Datatypes.None => SolidBrush userColor
  end.

(** [UrlPaint::getDropShadows]. *)
Definition getDropShadows (this : UrlPaint) : list PaintDropShadow := dropShadows_ this.

End UrlPaintModel.

Arguments UrlPaint : clear implicits.

(** ** A concrete platform

    One instance of every parameter, used to run the definitions: scales in
    hundredths, a fixed-pitch font of ten pixels per code unit, a parser that
    knows one emote. *)
Module Sample.

Definition fixedPoint : FloatOps Z :=
  {| f_of_int := fun n => 100 * n;
     f_of_ratio := fun a b => 100 * a / Z.pos b;
     f_mul := fun a b => a * b / 100;
     f_to_int := fun a => a ÷ 100;
     f_round := fun a => (a + 50) / 100 |}.

Definition Flag : MessageElementFlag :=
  {| FlagNone := 0;
     Misc := 1;
     EmoteImages := 16 + 64 + 512;
     Timestamp := 8;
     ModeratorTools := 4194304;
     RepliedMessage := 8589934592 |}.

Definition Text : MessageElementFlags := 2.
Definition TwitchEmoteImage : MessageElementFlags := 16.
Definition TwitchEmoteText : MessageElementFlags := 32.

Definition advance (s : QString) : Z := 10 * Z.of_nat (length s).

(** Elision on the right: the text itself when it fits, else the longest
    prefix that fits together with the one-unit ellipsis U+2026. *)
Definition elide (s : QString) (width : Z) : QString :=
  if advance s <=? width then s
  else take (Z.to_nat (width / 10 - 1)) s ++ [0x2026].

Definition metrics : QFontMetrics :=
  {| horizontalAdvance := advance;
     horizontalAdvanceChar := fun _ => 10;
     elidedText := elide;
     height := 20 |}.

Definition emptyImage : ImagePtr :=
  Image.mk [] 0 0 true false Datatypes.None.

Definition kappaImage : ImagePtr :=
  Image.mk (QStringLiteral "kappa.png") 200 20 false false (Some (LoadedPixmap 1)).

Definition smallImage : ImagePtr :=
  Image.mk (QStringLiteral "small.png") 30 20 false false (Some (LoadedPixmap 2)).

Definition Kappa : EmotePtr Z :=
  {| address := 1;
     deref := {| images := {| getImageOrLoaded := fun _ => kappaImage |};
                 tooltip := QStringLiteral "Kappa<br>Twitch Emote";
                 getCopyString := QStringLiteral "Kappa" |} |}.

Definition Keepo : EmotePtr Z :=
  {| address := 2;
     deref := {| images := {| getImageOrLoaded := fun _ => smallImage |};
                 tooltip := QStringLiteral "Keepo<br>Twitch Emote";
                 getCopyString := QStringLiteral "Keepo" |} |}.

(** An emote whose image has not been loaded. *)
Definition Pending : EmotePtr Z :=
  {| address := 3;
     deref := {| images := {| getImageOrLoaded := fun _ => emptyImage |};
                 tooltip := QStringLiteral "Pending<br>Twitch Emote";
                 getCopyString := QStringLiteral "Pending" |} |}.

Definition app : Application Z :=
  {| getFontMetrics := fun _ _ => metrics;
     getColor := fun color =>
       match color with
       | MessageColor_Custom c => c
       | MessageColor_Text => 0xffffff
       | MessageColor_Link => 0x0000ff
       | MessageColor_System => 0x808080
       end;
     normalizeColor := fun c => c;
     parse := fun word =>
       if bool_decide (word = QStringLiteral "Kappa") then [ParsedEmote Kappa]
       else if bool_decide (word = QStringLiteral "Keepo") then [ParsedEmote Keepo]
       else [ParsedText word];
     locale_toString := fun time format => format ++ [48 + time mod 10] |}.

Definition settings (format : QString) : Settings Z :=
  {| emoteScale := 100; timestampFormat := format; moderationActions := [] |}.

(** A layer of a layered emote. *)
Definition layer (emote : EmotePtr Z) : LayeredEmote Z :=
  {| ptr := emote; flags := TwitchEmoteImage |}.

(** An emote element that may be shown as image or as text, for an emote
    whose image is not there yet. *)
Definition pendingElement : EmoteElement Z :=
  EmoteElement_new Flag Pending (Z.lor TwitchEmoteImage TwitchEmoteText) MessageColor_Text.

(** An empty container, one hundred pixels wide, at scale 1. *)
Definition container : MessageLayoutContainer Z :=
  {| scale_ := 100; width_ := 100; spaceWidth_ := 4; currentX_ := 0;
     first := LTR; emitted := [] |}.

End Sample.

(** ** Notions used to state the properties *)

Section Notions.

Context {float : Type}.

(** "Space-joined concatenation": the parts, one space between neighbours. *)
Fixpoint spaceJoined (parts : list QString) : QString :=
  match parts with
  | [] => []
  | [part] => part
  | part :: parts' => part ++ QStringLiteral " " ++ spaceJoined parts'
  end.

(** The identity of the emote of a layer: the address of its pointer. *)
Definition identity (layer : LayeredEmote float) : positive := address (ptr layer).

(** Layer [i] is the first occurrence of its emote identity. *)
Definition isFirstOccurrence (layers : list (LayeredEmote float)) (i : nat) : bool :=
  match layers !! i with
  | Some layer => bool_decide (identity layer ∉ identity <$> take i layers)
  | Datatypes.None => false
  end.

(** "De-duplicated by emote identity, preserving first-seen order": the
    layers that are first occurrences, in the order of the layer list. *)
Definition firstOccurrences (layers : list (LayeredEmote float)) : list (LayeredEmote float) :=
  omap (fun i => layers !! i)
       (filter (fun i => isFirstOccurrence layers i) (seq 0 (length layers))).

(** The text fragments among the primitives, and what they say. *)
Definition fragmentText (p : Primitive float) : QString :=
  match p with
  | Element e => le_text e
  | LineBreak => []
  end.

Definition emittedText (ps : list (Primitive float)) : QString :=
  concat (fragmentText <$> ps).

(** The pixel width that a primitive takes on its line. *)
Definition primitiveWidth (p : Primitive float) : Z :=
  match p with
  | Element e => QSize.width (rect_size e)
  | LineBreak => 0
  end.

(** The primitives of a word that was split by force: every forced piece is
    followed by a line break, the last piece is not. *)
Definition forcedPieces (pieces : list (MessageLayoutElement float)) : list (Primitive float) :=
  pieces ≫= (fun piece => [Element piece; LineBreak]).

(** The cursor of a container is consistent: it is not left of the line start,
    a space is not negative, and at the start of a line the cursor is at 0. *)
Definition containerOk (c : MessageLayoutContainer float) : Prop :=
  0 <= currentX_ c /\ 0 <= spaceWidth_ c /\ (atStartOfLine c = true -> currentX_ c = 0).

(** A font never measures a negative width. *)
Definition metricsOk (metrics : QFontMetrics) : Prop :=
  (forall s, 0 <= horizontalAdvance metrics s)
  /\ (forall ch, 0 <= horizontalAdvanceChar metrics ch).

(** Every character of the text (a surrogate pair counted as one) is at most
    [width] pixels wide. *)
Definition charactersFit (metrics : QFontMetrics) (width : Z) (text : QString) : Prop :=
  forall i, (i < length text)%nat -> charWidthAt metrics text i <= width.

(** The container [c'] holds what [c] held and what was emitted since. *)
Definition appendsTo (c c' : MessageLayoutContainer float) : Prop :=
  exists new, emitted c' = emitted c ++ new.

(** The image of a layer at a scale. *)
Definition layerImage (scale : float) (layer : LayeredEmote float) : ImagePtr :=
  getImageOrLoaded (images (deref (ptr layer))) scale.

(** The image that the element shows at the scale is missing: the empty
    image for an emote, a badge and a scaling image; for a layered emote, the
    empty image in every layer. *)
Definition imageMissing (el : MessageElement float) (scale : float) : bool :=
  match el with
  | EmoteE e => Image.isEmpty (getImageOrLoaded (images (deref (emote_ e))) scale)
  | BadgeE e => Image.isEmpty (getImageOrLoaded (images (deref (badge_emote_ e))) scale)
  | ScalingImage _ images_ => Image.isEmpty (getImageOrLoaded images_ scale)
  | LayeredEmoteE e => forallb (fun layer => Image.isEmpty (layerImage scale layer)) (emotes_ e)
  | _ => false
  end.

(** The render flags ask for the image of the element: an emote and a layered
    emote show their image under a flag of [EmoteImages] only (and their text
    otherwise); the other classes have nothing but the image. *)
Definition asksForImage (Flag : MessageElementFlag) (el : MessageElement float)
    (flags : MessageElementFlags) : bool :=
  match el with
  | EmoteE _ | LayeredEmoteE _ => has flags (EmoteImages Flag)
  | _ => true
  end.

End Notions.

(** An element of class [TwitchModerationElement] carries the flag it was
    constructed with: the constructor sets [ModeratorTools], [addFlags] only
    adds bits and [clone] copies the flags. *)
Definition carriesOwnFlag {float : Type} (Flag : MessageElementFlag)
    (el : MessageElement float) : Prop :=
  match el with
  | TwitchModeration b => Z.land (flags_ b) (ModeratorTools Flag) = ModeratorTools Flag
  | _ => True
  end.

(** * More of the element code *)

Section MoreModel.

Context {float : Type}.

(** The loop of [LayeredEmoteElement::getCleanCopyString]: as
    [getCopyString], with every copy string passed through
    [TwitchEmotes::cleanUpEmoteCode] (declared outside the sources, so a
    parameter). *)
Fixpoint getCleanCopyString_loop (cleanUpEmoteCode : QString -> QString)
    (layers : list (LayeredEmote float)) (i : nat) (result : QString) : QString :=
  match layers with
  | [] => result
  | emote :: layers' =>
      let result := if (i =? 0)%nat then result else result ++ QStringLiteral " " in
      getCleanCopyString_loop cleanUpEmoteCode layers' (S i)
        (result ++ cleanUpEmoteCode (getCopyString (deref (ptr emote))))
  end.

Definition LayeredEmoteElement_getCleanCopyString (cleanUpEmoteCode : QString -> QString)
    (this : LayeredEmoteElement float) : QString :=
  getCleanCopyString_loop cleanUpEmoteCode (emotes_ this) 0 [].

(** The layout elements among the primitives, in emission order. *)
Definition elementsOf (ps : list (Primitive float)) : list (MessageLayoutElement float) :=
  omap (fun p => match p with Element e => Some e | LineBreak => Datatypes.None end) ps.

(** The width of a text as the character loop of
    [TextElement::addToContainer] adds it up: the advance of every character,
    a high surrogate and the code unit after it measured together as one
    character. *)
Fixpoint charsWidth (metrics : QFontMetrics) (text : QString) : Z :=
  match text with
  | [] => 0
  | c :: rest =>
      match rest with
      | c2 :: rest' =>
          if isHighSurrogate c
          then horizontalAdvance metrics [c; c2] + charsWidth metrics rest'
          else horizontalAdvanceChar metrics c + charsWidth metrics rest
      | [] => horizontalAdvanceChar metrics c
      end
  end.

(** Read character by character, the text ends in a high surrogate that has
    no code unit after it. *)
Fixpoint endsOpen (text : QString) : bool :=
  match text with
  | [] => false
  | c :: rest =>
      match rest with
      | _ :: rest' => if isHighSurrogate c then endsOpen rest' else endsOpen rest
      | [] => isHighSurrogate c
      end
  end.

(** The width stored in a text fragment is the font's measure of the text of
    the fragment: the advance of the text as a whole, as for a word that is
    emitted whole, or the advances of its characters added up, as for the
    pieces of a word that is split. *)
Definition measuredByFont (metrics : QFontMetrics) (e : MessageLayoutElement float) : Prop :=
  QSize.width (rect_size e) = horizontalAdvance metrics (le_text e)
  \/ QSize.width (rect_size e) = charsWidth metrics (le_text e).

Definition primitiveMeasured (metrics : QFontMetrics) (p : Primitive float) : Prop :=
  match p with
  | Element e => measuredByFont metrics e
  | LineBreak => True
  end.

(** A word with its width measured by the font. *)
Definition measured (metrics : QFontMetrics) (word : Word.t) : Word.t :=
  Word.mk (Word.text word) (horizontalAdvance metrics (Word.text word)).

(** A layout element is a text fragment of the element with the members [b],
    [color] and [style], laid out at [scale] with the font [metrics]. *)
Definition isTextFragment (app : Application float) (metrics : QFontMetrics) (scale : float)
    (b : MessageElementBase) (color : MessageColor) (style : FontStyle)
    (e : MessageLayoutElement float) : Prop :=
  kind e = KText (le_text e) (normalizeColor app (getColor app color)) style scale
  /\ le_link e = link_ b
  /\ listensToLinkChanges e = bool_decide (Link.type (link_ b) = Link.Url)
  /\ QSize.height (rect_size e) = height metrics.

(** A primitive emitted by the text element [this]: a line break or one of
    its text fragments. *)
Definition fragmentOf (app : Application float) (metrics : QFontMetrics) (scale : float)
    (this : TextElement) (p : Primitive float) : Prop :=
  match p with
  | Element e =>
      isTextFragment app metrics scale (text_base this) (text_color_ this)
        (text_style_ this) e
  | LineBreak => True
  end.

(** A layout element emitted by the single-line element [this]: it carries
    the link of the element and is either one of its text fragments, without a
    trailing space, or the image of an emote, which is not the empty image. *)
Definition singleLinePiece (app : Application float) (metrics : QFontMetrics) (scale : float)
    (this : SingleLineTextElement) (e : MessageLayoutElement float) : Prop :=
  le_link e = link_ (single_base this)
  /\ match kind e with
     | KText _ _ _ _ =>
         isTextFragment app metrics scale (single_base this) (single_color_ this)
           (single_style_ this) e
         /\ le_trailingSpace e = false
     | KImage image => Image.isEmpty image = false
     | _ => False
     end.

(** The pending text of a single-line element after one more word of plain
    text that is not elided: a space goes before the word only when something
    is pending already. *)
Definition pendingStep (currentText word : QString) : QString :=
  (if bool_decide (currentText = []) then currentText
   else currentText ++ QStringLiteral " ") ++ word.

(** The pending texts after each of the words, in order. *)
Fixpoint pendingTexts (currentText : QString) (words : list QString) : list QString :=
  match words with
  | [] => []
  | word :: words' =>
      pendingStep currentText word :: pendingTexts (pendingStep currentText word) words'
  end.

(** The pending text after all the words. *)
Definition pendingText (words : list QString) : QString :=
  foldl pendingStep [] words.

(** A layout element is the button of a moderation action at [scale]: an
    image, or a text icon of the two lines, sixteen scaled pixels square,
    with the action as a user-action link. *)
Definition isModerationButton (fops : FloatOps float) (scale : float)
    (action : ModerationAction.t) (e : MessageLayoutElement float) : Prop :=
  le_link e = Link.mk Link.UserAction (ModerationAction.getAction action)
  /\ rect_size e
     = QSize.mk (f_to_int fops (f_mul fops scale (f_of_int fops 16)))
                (f_to_int fops (f_mul fops scale (f_of_int fops 16)))
  /\ kind e
     = match ModerationAction.getImage action with
       | Some image => KImage image
       | Datatypes.None =>
           KTextIcon (ModerationAction.getLine1 action) (ModerationAction.getLine2 action)
             scale
       end.

(** The images that a layout element draws. *)
Definition shownImages (e : MessageLayoutElement float) : list ImagePtr :=
  match kind e with
  | KImage image | KImageWithBackground image _ | KImageWithCircleBackground image _ _ =>
      [image]
  | KLayeredImage images _ => images
  | _ => []
  end.

(** The images that an element has to show at a scale: its image for the
    image classes, the image of the emote at the scale for an emote, a badge
    and a scaling image, the loaded images of the layers for a layered emote;
    none for the other classes. *)
Definition elementImages (el : MessageElement float) (scale : float) : list ImagePtr :=
  match el with
  | Image _ image | CircularImage _ image _ _ => [image]
  | EmoteE e => [getImageOrLoaded (images (deref (emote_ e))) scale]
  | BadgeE e => [getImageOrLoaded (images (deref (badge_emote_ e))) scale]
  | ScalingImage _ images_ => [getImageOrLoaded images_ scale]
  | LayeredEmoteE e => getLoadedImages e scale
  | _ => []
  end.

End MoreModel.


(** * The ban and timeout commands

    A shallow embedding of
    [src/controllers/commands/builtin/twitch/Ban.cpp].  What a command does
    is kept as the list of its effects: the system messages it adds to a
    channel and the requests it sends to the Helix API.  A request carries
    its callbacks, as functions to the effects they have. *)

(** [QStringList::join(sep)]. *)
Fixpoint join (sep : QString) (parts : list QString) : QString :=
  match parts with
  | [] => []
  | [part] => part
  | part :: parts' => part ++ sep ++ join sep parts'
  end.

(** The double quote, which the usage texts contain. *)
Definition quote : QString := [34].

(** [(int)] applied to an [int64_t]: the value modulo 2^32, as a signed
    32-bit integer. *)
Definition to_int (value : Z) : Z :=
  (value + 2 ^ 31) mod 2 ^ 32 - 2 ^ 31.

(** The enumerators of [HelixBanUserError] (declared with the Helix API,
    which is not among the sources) that the switch of
    [formatBanTimeoutError] names. *)
Module HelixBanUserError.
Inductive t :=
| ConflictingOperation
| Forwarded
| Ratelimited
| TargetBanned
| CannotBanUser
| UserMissingScope
| UserNotAuthorized
| Unknown.
End HelixBanUserError.

(** The two members of a [HelixUser] that the commands read. *)
Module HelixUser.
Record t := mk { userId : QString; displayName : QString }.
End HelixUser.

(** The current account: [isAnon()] and [getUserId()]. *)
Module TwitchAccount.
Record t := mk { isAnon : bool; getUserId : QString }.
End TwitchAccount.

(** A Twitch channel: [roomId()]. *)
Module TwitchChannel.
Record t := mk { roomId : QString }.
End TwitchChannel.

(** A [ChannelPtr], by the address of the channel. *)
Definition ChannelPtr := positive.

(** [CommandContext]: the words of the command line, the channel it was
    typed in (which may be null) and the same channel as a Twitch channel
    (null when it is none). *)
Module CommandContext.
Record t := mk {
  words : list QString;
  channel : option ChannelPtr;
  twitchChannel : option TwitchChannel.t;
}.
End CommandContext.

(** The effects of a command: [channel->addMessage(makeSystemMessage(text))],
    [getHelix()->getUserByName] and [getHelix()->banUser] with their success
    and failure callbacks. *)
#[local] Unset Elimination Schemes.
Inductive Effect :=
| addMessage (channel : ChannelPtr) (text : QString)
| getUserByName (userName : QString)
    (successCallback : HelixUser.t -> list Effect) (failureCallback : list Effect)
| banUser (broadcasterID moderatorID userID : QString) (duration : option Z)
    (reason : QString)
    (successCallback : list Effect)
    (failureCallback : HelixBanUserError.t -> QString -> list Effect).
#[local] Set Elimination Schemes.

(** An effect that the effects [es] can lead to: one of them, or an effect
    that one of their callbacks leads to, whatever the API answers. *)
Inductive reaches : list Effect -> Effect -> Prop :=
| reaches_here es e :
    e ∈ es -> reaches es e
| reaches_user_found es userName found missing user e :
    getUserByName userName found missing ∈ es ->
    reaches (found user) e -> reaches es e
| reaches_user_missing es userName found missing e :
    getUserByName userName found missing ∈ es ->
    reaches missing e -> reaches es e
| reaches_ban_done es broadcasterID moderatorID userID duration reason done failed e :
    banUser broadcasterID moderatorID userID duration reason done failed ∈ es ->
    reaches done e -> reaches es e
| reaches_ban_failed es broadcasterID moderatorID userID duration reason done failed
    error message e :
    banUser broadcasterID moderatorID userID duration reason done failed ∈ es ->
    reaches (failed error message) e -> reaches es e.

(** [formatBanTimeoutError].  [QString::arg] puts its arguments in the place
    of the markers [%1] and [%2] of the format, which are literals here. *)
Definition formatBanTimeoutError (operation : QString) (error : HelixBanUserError.t)
    (message userTarget : QString) : QString :=
  let errorMessage :=
    QStringLiteral "Failed to " ++ operation ++ QStringLiteral " user - " in
  match error with
  | HelixBanUserError.ConflictingOperation =>
      errorMessage
      ++ QStringLiteral
           "There was a conflicting ban operation on this user. Please try again."
  | HelixBanUserError.Forwarded => errorMessage ++ message
  | HelixBanUserError.Ratelimited =>
      errorMessage
      ++ QStringLiteral "You are being ratelimited by Twitch. Try again in a few seconds."
  | HelixBanUserError.TargetBanned =>
      errorMessage ++ (userTarget ++ QStringLiteral " is already banned in this channel.")
  | HelixBanUserError.CannotBanUser =>
      errorMessage
      ++ (QStringLiteral "You cannot " ++ operation ++ QStringLiteral " " ++ userTarget
          ++ QStringLiteral ".")
  | HelixBanUserError.UserMissingScope =>
      errorMessage
      ++ QStringLiteral "Missing required scope. Re-login with your account and try again."
  | HelixBanUserError.UserNotAuthorized =>
      errorMessage ++ QStringLiteral "You don't have permission to perform that action."
  | HelixBanUserError.Unknown =>
      errorMessage ++ QStringLiteral "An unknown error has occurred."
  end.

Section BanCommands.

(** [stripChannelName] and [parseDurationToSeconds] are declared in
    [util/Twitch.hpp] and [util/Helpers.hpp], outside the sources; the first
    changes its argument in place, the second returns an [int64_t]. *)
Variable stripChannelName : QString -> QString.
Variable parseDurationToSeconds : QString -> Z.

(** [sendBan]: the string it returns and its effects.  [currentUser] is
    [getApp()->accounts->twitch.getCurrent()]. *)
Definition sendBan (currentUser : TwitchAccount.t) (ctx : CommandContext.t)
    : QString * list Effect :=
  let words := CommandContext.words ctx in
  match CommandContext.channel ctx with
  | Datatypes.None => ([], [])
  | Some channel =>
      match CommandContext.twitchChannel ctx with
      | Datatypes.None =>
          ([], [addMessage channel
                  (QStringLiteral "The /ban command only works in Twitch channels")])
      | Some twitchChannel =>
          let usageStr :=
            QStringLiteral "Usage: " ++ quote ++ QStringLiteral "/ban <username> [reason]"
            ++ quote
            ++ QStringLiteral " - Permanently prevent a user from chatting. Reason is optional and will be shown to the target user and other moderators. Use "
            ++ quote ++ QStringLiteral "/unban" ++ quote
            ++ QStringLiteral " to remove a ban." in
          if bool_decide (length words < 2)%nat then ([], [addMessage channel usageStr])
          else if TwitchAccount.isAnon currentUser then
            ([], [addMessage channel
                    (QStringLiteral "You must be logged in to ban someone!")])
          else
            let target := stripChannelName (words !!! 1%nat) in
            let reason := join (QStringLiteral " ") (drop 2 words) in
            ([],
             [getUserByName target
                (fun targetUser =>
                   [banUser (TwitchChannel.roomId twitchChannel)
                      (TwitchAccount.getUserId currentUser)
                      (HelixUser.userId targetUser) Datatypes.None reason
                      []
                      (fun error message =>
                         let errorMessage :=
                           formatBanTimeoutError (QStringLiteral "ban") error message
                             (HelixUser.displayName targetUser) in
                         [addMessage channel errorMessage])])
                [addMessage channel (QStringLiteral "Invalid username: " ++ target)]])
      end
  end.

(** [sendBanById]. *)
Definition sendBanById (currentUser : TwitchAccount.t) (ctx : CommandContext.t)
    : QString * list Effect :=
  let words := CommandContext.words ctx in
  match CommandContext.channel ctx with
  | Datatypes.None => ([], [])
  | Some channel =>
      match CommandContext.twitchChannel ctx with
      | Datatypes.None =>
          ([], [addMessage channel
                  (QStringLiteral "The /banid command only works in Twitch channels")])
      | Some twitchChannel =>
          let usageStr :=
            QStringLiteral "Usage: " ++ quote ++ QStringLiteral "/banid <userID> [reason]"
            ++ quote
            ++ QStringLiteral " - Permanently prevent a user from chatting via their user ID. Reason is optional and will be shown to the target user and other moderators." in
          if bool_decide (length words < 2)%nat then ([], [addMessage channel usageStr])
          else if TwitchAccount.isAnon currentUser then
            ([], [addMessage channel
                    (QStringLiteral "You must be logged in to ban someone!")])
          else
            let target := words !!! 1%nat in
            let reason := join (QStringLiteral " ") (drop 2 words) in
            ([],
             [banUser (TwitchChannel.roomId twitchChannel)
                (TwitchAccount.getUserId currentUser) target Datatypes.None reason
                []
                (fun error message =>
                   let errorMessage :=
                     formatBanTimeoutError (QStringLiteral "ban") error message
                       (QStringLiteral "#" ++ target) in
                   [addMessage channel errorMessage])])
      end
  end.

(** [sendTimeout]. *)
Definition sendTimeout (currentUser : TwitchAccount.t) (ctx : CommandContext.t)
    : QString * list Effect :=
  let words := CommandContext.words ctx in
  match CommandContext.channel ctx with
  | Datatypes.None => ([], [])
  | Some channel =>
      match CommandContext.twitchChannel ctx with
      | Datatypes.None =>
          ([], [addMessage channel
                  (QStringLiteral "The /timeout command only works in Twitch channels")])
      | Some twitchChannel =>
          let usageStr :=
            QStringLiteral "Usage: " ++ quote
            ++ QStringLiteral "/timeout <username> [duration][time unit] [reason]" ++ quote
            ++ QStringLiteral " - Temporarily prevent a user from chatting. Duration (optional, default=10 minutes) must be a positive integer; time unit (optional, default=s) must be one of s, m, h, d, w; maximum duration is 2 weeks. Combinations like 1d2h are also allowed. Reason is optional and will be shown to the target user and other moderators. Use "
            ++ quote ++ QStringLiteral "/untimeout" ++ quote
            ++ QStringLiteral " to remove a timeout." in
          if bool_decide (length words < 2)%nat then ([], [addMessage channel usageStr])
          else if TwitchAccount.isAnon currentUser then
            ([], [addMessage channel
                    (QStringLiteral "You must be logged in to timeout someone!")])
          else
            let target := stripChannelName (words !!! 1%nat) in
            let duration :=
              if bool_decide (3 <= length words)%nat
              then to_int (parseDurationToSeconds (words !!! 2%nat))
              else 10 * 60 in
            if bool_decide (3 <= length words)%nat && bool_decide (duration <= 0) then
              ([], [addMessage channel usageStr])
            else
              let reason := join (QStringLiteral " ") (drop 3 words) in
              ([],
               [getUserByName target
                  (fun targetUser =>
                     [banUser (TwitchChannel.roomId twitchChannel)
                        (TwitchAccount.getUserId currentUser)
                        (HelixUser.userId targetUser) (Some duration) reason
                        []
                        (fun error message =>
                           let errorMessage :=
                             formatBanTimeoutError (QStringLiteral "timeout") error message
                               (HelixUser.displayName targetUser) in
                           [addMessage channel errorMessage])])
                  [addMessage channel (QStringLiteral "Invalid username: " ++ target)]])
      end
  end.

End BanCommands.

(** * The logging channel

    A shallow embedding of [src/singletons/helper/LoggingChannel.cpp], with
    the members of a message that it reads ([src/messages/Message.hpp]).  The
    log file is kept as the handle the channel holds; what a call writes is
    returned as the list of its writes, each with the name of the file the
    handle had at that moment. *)

(** [MessageFlag::ReplyMessage]. *)
Definition MessageFlag_ReplyMessage : Z := Z.shiftl 1 24.

(** The members of [Message] that the logging channel reads.  [replyParent]
    may be null; [replyThread] is kept as the message that
    [replyThread->root()] returns, null when the thread pointer is. *)
#[local] Unset Elimination Schemes.
Inductive Message := mkMessage {
  msg_flags : Z;
  messageText : QString;
  loginName : QString;
  localizedName : QString;
  msg_channelName : QString;
  replyThread_root : option Message;
  replyParent : option Message;
}.
#[local] Set Elimination Schemes.

(** [QString::startsWith]. *)
Definition startsWith (s prefix : QString) : bool :=
  bool_decide (take (length prefix) s = prefix).

(** [QString::indexOf(ch)]: the position of the first [ch], if any (the
    source tests the result against -1). *)
Fixpoint indexOf (s : QString) (ch : QChar) : option nat :=
  match s with
  | [] => Datatypes.None
  | c :: s' => if c =? ch then Some 0%nat else S <$> indexOf s' ch
  end.

(** [QString::insert(position, text)] for a position inside the string. *)
Definition QString_insert (s : QString) (position : nat) (text : QString) : QString :=
  take position s ++ text ++ drop position s.

Module QFile.
(** A [QFile]: its file name and whether it is open. *)
Record t := mk { fileName : QString; isOpen : bool }.
End QFile.

Module LoggingChannel.

(** The members of [LoggingChannel]. *)
Record t := mk {
  channelName : QString;
  platform : QString;
  baseDirectory : QString;
  subDirectory : QString;
  dateString : QString;
  fileHandle : QFile.t;
}.

(** A write of [data] to the file named [file]. *)
Record Write := written { file : QString; data : QString }.

Definition set_dateString (this : t) (value : QString) : t :=
  {| channelName := channelName this; platform := platform this;
     baseDirectory := baseDirectory this; subDirectory := subDirectory this;
     dateString := value; fileHandle := fileHandle this |}.

Definition set_fileHandle (this : t) (value : QFile.t) : t :=
  {| channelName := channelName this; platform := platform this;
     baseDirectory := baseDirectory this; subDirectory := subDirectory this;
     dateString := dateString this; fileHandle := value |}.

Definition set_baseDirectory (this : t) (value : QString) : t :=
  {| channelName := channelName this; platform := platform this;
     baseDirectory := value; subDirectory := subDirectory this;
     dateString := dateString this; fileHandle := fileHandle this |}.

Definition endline : QString := [10].

Section Logging.

(** The date and time type of Qt with the two member functions that the
    source calls, the directory separator of the platform, and the answers of
    the file system: whether [QDir().mkpath] succeeds for a directory and
    whether a file can be opened for appending. *)
Context {QDateTime : Type}.
Variable toString : QDateTime -> QString -> QString.
Variable timeZoneAbbreviation : QDateTime -> QString.
Variable separator : QChar.
Variable mkpath : QString -> bool.
Variable open : QString -> bool.

(** The two settings that [addMessage] reads. *)
Variable stripReplyMention : bool.
Variable hideReplyContext : bool.

(** [LoggingChannel::generateDateString]. *)
Definition generateDateString (now : QDateTime) : QString :=
  toString now (QStringLiteral "yyyy-MM-dd").

(** [LoggingChannel::generateOpeningString]. *)
Definition generateOpeningString (now : QDateTime) : QString :=
  QStringLiteral "# Start logging at "
  ++ toString now (QStringLiteral "yyyy-MM-dd HH:mm:ss ")
  ++ timeZoneAbbreviation now
  ++ endline.

(** [LoggingChannel::generateClosingString]: no space before the time
    zone. *)
Definition generateClosingString (now : QDateTime) : QString :=
  QStringLiteral "# Stop logging at "
  ++ toString now (QStringLiteral "yyyy-MM-dd HH:mm:ss")
  ++ timeZoneAbbreviation now
  ++ endline.

(** [LoggingChannel::appendLine]: a write to a file that is not open writes
    nothing. *)
Definition appendLine (this : t) (line : QString) : list Write :=
  if QFile.isOpen (fileHandle this) then [written (QFile.fileName (fileHandle this)) line]
  else [].

(** [LoggingChannel::openLogFile]; [now] is what
    [QDateTime::currentDateTime()] returns in it. *)
Definition openLogFile (now : QDateTime) (this : t) : t * list Write :=
  let this := set_dateString this (generateDateString now) in
  let this :=
    if QFile.isOpen (fileHandle this)
    then set_fileHandle this (QFile.mk (QFile.fileName (fileHandle this)) false)
    else this in
  let baseFileName :=
    channelName this ++ QStringLiteral "-" ++ dateString this ++ QStringLiteral ".log" in
  let directory := baseDirectory this ++ [separator] ++ subDirectory this in
  if negb (mkpath directory) then (this, [])
  else
    let fileName := directory ++ [separator] ++ baseFileName in
    let this := set_fileHandle this (QFile.mk fileName (open fileName)) in
    (this, appendLine this (generateOpeningString now)).

(** The callback that the constructor connects to the setting [logPath];
    [messageLogDirectory] is [getPaths()->messageLogDirectory]. *)
Definition onLogPath (messageLogDirectory : QString) (now : QDateTime)
    (logPath : QString) (this : t) : t * list Write :=
  let this :=
    set_baseDirectory this
      (if bool_decide (logPath = []) then messageLogDirectory else logPath) in
  openLogFile now this.

(** The text of a message in the log, before the time is put in front; none
    when the code dereferences a null pointer (a reply that has neither a
    parent nor a thread). *)
Definition logText (message : Message) : option QString :=
  let messageText :=
    if bool_decide (loginName message = []) then messageText message
    else if bool_decide (localizedName message = []) then
      loginName message ++ QStringLiteral ": " ++ messageText message
    else
      localizedName message ++ QStringLiteral " " ++ loginName message
      ++ QStringLiteral ": " ++ messageText message in
  if (has (msg_flags message) MessageFlag_ReplyMessage && stripReplyMention)
     && negb hideReplyContext
  then
    match indexOf messageText 58 with
    | Some colonIndex =>
        let rootMessageChatter :=
          match replyParent message with
          | Some parent => Some (loginName parent)
          | Datatypes.None => loginName <$> replyThread_root message
          end in
        (fun rootMessageChatter =>
           QString_insert messageText (colonIndex + 1)
             (QStringLiteral " @" ++ rootMessageChatter))
        <$> rootMessageChatter
    | Datatypes.None => Some messageText
    end
  else Some messageText.

(** [LoggingChannel::addMessage]; [now] is the time it reads, [reopened] the
    time that [openLogFile] reads when the date has changed. *)
Definition addMessage (now reopened : QDateTime) (message : Message) (this : t)
    : option (t * list Write) :=
  let messageDateString := generateDateString now in
  let '(this, writes) :=
    if bool_decide (messageDateString <> dateString this)
    then openLogFile reopened (set_dateString this messageDateString)
    else (this, []) in
  let str :=
    if startsWith (channelName this) (QStringLiteral "/mentions")
    then QStringLiteral "#" ++ msg_channelName message ++ QStringLiteral " "
    else [] in
  let str := str ++ QStringLiteral "[" in
  let str := str ++ toString now (QStringLiteral "HH:mm:ss") in
  let str := str ++ QStringLiteral "] " in
  (fun messageText =>
     let str := str ++ messageText in
     let str := str ++ endline in
     (this, writes ++ appendLine this str))
  <$> logText message.

(** The name of the log file of the channel for the date it holds. *)
Definition logFileName (this : t) : QString :=
  (baseDirectory this ++ [separator] ++ subDirectory this) ++ [separator]
  ++ (channelName this ++ QStringLiteral "-" ++ dateString this ++ QStringLiteral ".log").

(** The file of the channel, when it is open, is the log file for the date
    that the channel holds. *)
Definition handleOk (this : t) : Prop :=
  QFile.isOpen (fileHandle this) = true -> QFile.fileName (fileHandle this) = logFileName this.

End Logging.

End LoggingChannel.

(** * Concrete data for the commands and the logging channel *)

Module BanSample.

(** Stripping the channel name: a leading [#] goes. *)
Definition strip (name : QString) : QString :=
  match name with
  | 35 :: rest => rest
  | _ => name
  end.

(** A duration parser that reads decimal digits as seconds. *)
Definition parse (text : QString) : Z :=
  foldl (fun seconds digit => 10 * seconds + (digit - 48)) 0 text.

Definition moderator : TwitchAccount.t :=
  TwitchAccount.mk false (QStringLiteral "11148817").

Definition someone : HelixUser.t :=
  HelixUser.mk (QStringLiteral "117166826") (QStringLiteral "Someone").

Definition room : TwitchChannel.t := TwitchChannel.mk (QStringLiteral "22484632").

(** [/timeout #someone 30 spam links]. *)
Definition timeoutContext : CommandContext.t :=
  CommandContext.mk
    [QStringLiteral "/timeout"; QStringLiteral "#someone"; QStringLiteral "30";
     QStringLiteral "spam"; QStringLiteral "links"]
    (Some 1%positive) (Some room).

(** [/ban #someone spam links]. *)
Definition banContext : CommandContext.t :=
  CommandContext.mk
    [QStringLiteral "/ban"; QStringLiteral "#someone"; QStringLiteral "spam";
     QStringLiteral "links"]
    (Some 1%positive) (Some room).

(** The ban requests that the lookups of [someone] lead to. *)
Definition timeoutRequest : Effect :=
  banUser (QStringLiteral "22484632") (QStringLiteral "11148817")
    (QStringLiteral "117166826") (Some 30) (QStringLiteral "spam links") []
    (fun error message =>
       [addMessage 1%positive
          (formatBanTimeoutError (QStringLiteral "timeout") error message
             (QStringLiteral "Someone"))]).

Definition banRequest : Effect :=
  banUser (QStringLiteral "22484632") (QStringLiteral "11148817")
    (QStringLiteral "117166826") Datatypes.None (QStringLiteral "spam links") []
    (fun error message =>
       [addMessage 1%positive
          (formatBanTimeoutError (QStringLiteral "ban") error message
             (QStringLiteral "Someone"))]).

(** The message of a ban that failed because the user is banned already. *)
Definition alreadyBanned : Effect :=
  addMessage 1%positive
    (QStringLiteral "Failed to ban user - Someone is already banned in this channel.").

End BanSample.

Module LogSample.

(** A moment, as the minutes since the start of day 0; of the formats only
    the length matters here: the date is the day number, the time the minute
    of the day, each as one code unit. *)
Definition toString (now : Z) (format : QString) : QString :=
  if bool_decide (length format = 10%nat) then [48 + now / 1440]
  else if bool_decide (length format = 8%nat) then [48 + now mod 1440]
  else [48 + now / 1440; 32; 48 + now mod 1440].

Definition timeZoneAbbreviation (now : Z) : QString := QStringLiteral "UTC".

(** A file system in which every directory can be made and every file
    opened. *)
Definition mkpath (directory : QString) : bool := true.
Definition open (fileName : QString) : bool := true.

(** A channel on day 1 with its log file of that day open. *)
Definition channel : LoggingChannel.t :=
  LoggingChannel.mk (QStringLiteral "pajlada") (QStringLiteral "twitch")
    (QStringLiteral "/logs") (QStringLiteral "Twitch/Channels/pajlada") [49]
    (QFile.mk (QStringLiteral "/logs/Twitch/Channels/pajlada/pajlada-1.log") true).

Definition root : Message :=
  mkMessage 0 (QStringLiteral "hello") (QStringLiteral "alice") [] (QStringLiteral "pajlada")
    Datatypes.None Datatypes.None.

(** A reply to [root], the mention stripped from its text. *)
Definition reply : Message :=
  mkMessage MessageFlag_ReplyMessage (QStringLiteral "hi") (QStringLiteral "bob") []
    (QStringLiteral "pajlada") (Some root) (Some root).

End LogSample.
(** * Properties *)

Section Properties.

Context {float : Type} (fops : FloatOps float) (Flag : MessageElementFlag).

(** ** Layered emotes: unique emotes *)

Lemma NotDuplicate_elem_of (layers : list (LayeredEmote float)) (seen : gset positive) p :
  p ∈ identity <$> copy_if NotDuplicate seen layers
  <-> p ∈ identity <$> layers /\ p ∉ seen.
Proof.
  revert seen. induction layers as [|layer layers IH]; intros seen;
    cbn [copy_if NotDuplicate].
  - rewrite fmap_nil, elem_of_nil. tauto.
  - case_bool_decide as Hseen;
      rewrite ?fmap_cons, ?elem_of_cons, IH, ?not_elem_of_union, ?elem_of_singleton;
      fold (identity layer) in *.
    + destruct (decide (p = identity layer)) as [->|Hne]; tauto.
    + split; [tauto|]. intros [[->|Hin] Hp]; [done|].
      split; [done|]. split; [by intros ->|done].
Qed.

Lemma NotDuplicate_NoDup (layers : list (LayeredEmote float)) (seen : gset positive) :
  NoDup (identity <$> copy_if NotDuplicate seen layers).
Proof.
  revert seen. induction layers as [|layer layers IH]; intros seen;
    cbn [copy_if NotDuplicate].
  - constructor.
  - case_bool_decide as Hseen; [|apply IH].
    rewrite fmap_cons. constructor; [|apply IH].
    rewrite NotDuplicate_elem_of, not_elem_of_union, elem_of_singleton.
    fold (identity layer). tauto.
Qed.

Lemma NotDuplicate_first_occurrences (pre layers : list (LayeredEmote float)) :
  copy_if NotDuplicate (list_to_set (identity <$> pre)) layers
  = omap (fun i => (pre ++ layers) !! i)
         (filter (fun i => isFirstOccurrence (pre ++ layers) i)
                 (seq (length pre) (length layers))).
Proof.
  revert pre. induction layers as [|layer layers IH]; intros pre; [done|].
  assert (Hfirst : isFirstOccurrence (pre ++ layer :: layers) (length pre)
                   = bool_decide (identity layer ∉ identity <$> pre)).
  { unfold isFirstOccurrence. by rewrite list_lookup_middle, take_app_length. }
  assert (Hnext : copy_if NotDuplicate
                    ({[address (ptr layer)]} ∪ list_to_set (identity <$> pre)) layers
                  = omap (fun i => (pre ++ layer :: layers) !! i)
                      (filter (fun i => isFirstOccurrence (pre ++ layer :: layers) i)
                         (seq (S (length pre)) (length layers)))).
  { specialize (IH (pre ++ [layer])).
    rewrite fmap_app, list_to_set_app_L, <- (assoc_L (++)), length_app in IH.
    simpl in IH. rewrite Nat.add_1_r in IH. rewrite <- IH.
    f_equal. unfold identity. simpl. by rewrite union_empty_r_L, (comm_L (∪)). }
  assert (Hseen : bool_decide (address (ptr layer) ∉@{gset positive}
                                 list_to_set (identity <$> pre))
                  = bool_decide (identity layer ∉ identity <$> pre)).
  { apply bool_decide_ext. by rewrite elem_of_list_to_set. }
  simpl. rewrite filter_cons, Hfirst, Hseen.
  destruct (bool_decide (identity layer ∉ identity <$> pre)); simpl.
  - rewrite list_lookup_middle by done. simpl. by rewrite Hnext.
  - apply Hnext.
Qed.

(** C7. [getUniqueEmotes] returns the layers that are the first occurrence of
    their emote identity, in the order of the layer list; so every identity of
    the layer list occurs in the result, and occurs there once. *)
Theorem getUniqueEmotes_first_occurrences (this : LayeredEmoteElement float) :
  getUniqueEmotes this = firstOccurrences (emotes_ this)
  /\ NoDup (identity <$> getUniqueEmotes this)
  /\ (forall p, p ∈ identity <$> getUniqueEmotes this <-> p ∈ identity <$> emotes_ this).
Proof.
  unfold getUniqueEmotes. split; [|split].
  - apply (NotDuplicate_first_occurrences []).
  - apply NotDuplicate_NoDup.
  - intros p. rewrite NotDuplicate_elem_of, elem_of_empty. tauto.
Qed.

(** ** Layered emotes: the tooltip *)

Lemma getCopyString_loop_later (layers : list (LayeredEmote float)) (i : nat) (result : QString) :
  i <> 0%nat ->
  getCopyString_loop layers i result
  = result ++ concat ((fun layer => QStringLiteral " " ++ getCopyString (deref (ptr layer)))
                        <$> layers).
Proof.
  revert i result. induction layers as [|layer layers IH]; intros i result Hi; simpl.
  - by rewrite app_nil_r.
  - destruct i as [|i]; [done|]. simpl. rewrite IH by done.
    by rewrite <- !(assoc_L (++)).
Qed.

Lemma spaceJoined_cons (part : QString) (parts : list QString) :
  spaceJoined (part :: parts)
  = part ++ concat ((fun p => QStringLiteral " " ++ p) <$> parts).
Proof.
  revert part. induction parts as [|p parts IH]; intros part.
  - simpl. by rewrite app_nil_r.
  - change (spaceJoined (part :: p :: parts))
      with (part ++ QStringLiteral " " ++ spaceJoined (p :: parts)).
    by rewrite IH.
Qed.

Lemma getCopyString_spaceJoined (this : LayeredEmoteElement float) :
  LayeredEmoteElement_getCopyString this
  = spaceJoined ((fun layer => getCopyString (deref (ptr layer))) <$> emotes_ this).
Proof.
  unfold LayeredEmoteElement_getCopyString.
  destruct (emotes_ this) as [|layer layers]; [done|].
  rewrite fmap_cons, spaceJoined_cons. simpl.
  rewrite getCopyString_loop_later by done.
  by rewrite <- list_fmap_compose.
Qed.

Lemma updateTooltips_nonempty (this : LayeredEmoteElement float) :
  emotes_ this <> [] ->
  emotes_ (updateTooltips Flag this) = emotes_ this
  /\ tooltip_ (layered_base (updateTooltips Flag this))
     = spaceJoined ((fun l => getCopyString (deref (ptr l))) <$> emotes_ this)
  /\ emoteTooltips_ (updateTooltips Flag this)
     = (fun l => tooltip (deref (ptr l))) <$> emotes_ this.
Proof.
  intros Hne. pose proof (getCopyString_spaceJoined this) as Hcopy.
  unfold updateTooltips.
  destruct (emotes_ this) as [|l0 ls] eqn:Hemotes; [done|].
  cbn [emotes_ layered_base emoteTooltips_ tooltip_ Base_setTooltip].
  by rewrite Hcopy.
Qed.

(** C4, as the code has it.  After construction with at least one layer, and
    after every [addEmoteLayer], the tooltip of the element is the
    space-joined concatenation of the copy strings of the layers, in layer
    order; the tooltip texts of the layers are kept one by one in
    [emoteTooltips_], in layer order. *)
Theorem LayeredEmoteElement_tooltip_is_copy_string
    (layer : LayeredEmote float) (layers : list (LayeredEmote float))
    (flags : MessageElementFlags) (color : MessageColor)
    (this : LayeredEmoteElement float) :
  let built := LayeredEmoteElement_new Flag (layer :: layers) flags color in
  let added := addEmoteLayer Flag this layer in
  tooltip_ (layered_base built)
  = spaceJoined ((fun l => getCopyString (deref (ptr l))) <$> (layer :: layers))
  /\ getEmoteTooltips built = (fun l => tooltip (deref (ptr l))) <$> (layer :: layers)
  /\ emotes_ added = emotes_ this ++ [layer]
  /\ tooltip_ (layered_base added)
     = spaceJoined ((fun l => getCopyString (deref (ptr l))) <$> (emotes_ this ++ [layer]))
  /\ getEmoteTooltips added = (fun l => tooltip (deref (ptr l))) <$> (emotes_ this ++ [layer]).
Proof.
  intros built added. subst built added.
  unfold LayeredEmoteElement_new, addEmoteLayer, getEmoteTooltips.
  match goal with
  | |- context [updateTooltips Flag ?e] =>
      destruct (updateTooltips_nonempty e) as (_ & Hb1 & Hb2); [done|]
  end.
  match goal with
  | |- context [updateTooltips Flag
                  {| layered_base := layered_base this; emotes_ := ?l;
                     emoteTooltips_ := ?t; layered_textElement_ := ?x;
                     textElementColor_ := ?c |}] =>
      destruct (updateTooltips_nonempty
                  {| layered_base := layered_base this; emotes_ := l;
                     emoteTooltips_ := t; layered_textElement_ := x;
                     textElementColor_ := c |}) as (Ha0 & Ha1 & Ha2);
      [by destruct (emotes_ this)|]
  end.
  done.
Qed.

(** ** Text wrapping *)

Section TextWrapping.

Context (app : Application float) (metrics : QFontMetrics) (this : TextElement).

Lemma getTextLayoutElement_fields (c : MessageLayoutContainer float) (b : MessageElementBase)
    (color : MessageColor) (style : FontStyle) (text : QString) (width : Z) (space : bool) :
  let e := getTextLayoutElement app metrics c b color style text width space in
  le_text e = text /\ QSize.width (rect_size e) = width /\ le_trailingSpace e = space.
Proof. unfold getTextLayoutElement. by case_decide. Qed.

Lemma charWidthAt_nonneg (text : QString) (i : nat) :
  metricsOk metrics -> 0 <= charWidthAt metrics text i.
Proof. intros [Hs Hc]. unfold charWidthAt. by destruct (isSurrogateAt text i). Qed.

Lemma forcedPieces_cons (piece : MessageLayoutElement float) pieces :
  forcedPieces (piece :: pieces) = Element piece :: LineBreak :: forcedPieces pieces.
Proof. done. Qed.

(** What the character loop does, from any state: it emits forced pieces,
    each followed by a line break and none with a trailing space; the pieces
    and the pending run make up the text from [wordStart] on; and, started at
    the beginning of a line, no piece and no pending run is wider than the
    line. *)
Lemma wrapLoop_spec (text : QString) (fuel i wordStart : nat) (width : Z)
    (c : MessageLayoutContainer float) :
  exists pieces,
    let r := wrapLoop app metrics this text fuel i wordStart width c in
    emitted r.2 = emitted c ++ forcedPieces pieces
    /\ (width_ r.2 = width_ c /\ spaceWidth_ r.2 = spaceWidth_ c /\ scale_ r.2 = scale_ c)
    /\ Forall (fun e => le_trailingSpace e = false) pieces
    /\ ((wordStart <= i <= length text)%nat ->
        (r.1.1 <= length text)%nat
        /\ concat (le_text <$> pieces) ++ drop r.1.1 text = drop wordStart text)
    /\ (currentX_ c = 0 -> charactersFit metrics (width_ c) text -> metricsOk metrics ->
        0 <= width <= width_ c ->
        Forall (fun e => QSize.width (rect_size e) <= width_ c) pieces
        /\ 0 <= r.1.2 <= width_ c /\ currentX_ r.2 = 0).
Proof.
  revert i wordStart width c.
  induction fuel as [|fuel IH]; intros i wordStart width c.
  { exists []. simpl. rewrite app_nil_r. repeat split; auto; lia. }
  cbn [wrapLoop]. case_bool_decide as Hi; cycle 1.
  { exists []. simpl. rewrite app_nil_r. repeat split; auto; lia. }
  destruct (fitsInLine c (width + charWidthAt metrics text i)) eqn:Hfits; cbn [negb].
  - (* the character joins the pending run *)
    destruct (IH (S (if isSurrogateAt text i then S i else i)) wordStart
                (width + charWidthAt metrics text i) c)
      as (pieces & Hemit & Hframe & Hspace & Htext & Hfit).
    exists pieces. cbn zeta in *.
    refine (conj Hemit (conj Hframe (conj Hspace (conj _ _)))).
    + intros [Hws Hlen]. apply Htext. split; [destruct (isSurrogateAt text i); lia|].
      unfold isSurrogateAt. case_bool_decide; simpl; [destruct (isHighSurrogate _)|]; lia.
    + intros HX Hchars Hm Hwidth. apply Hfit; try done.
      pose proof (charWidthAt_nonneg text i Hm).
      unfold fitsInLine in Hfits. apply Z.leb_le in Hfits. lia.
  - (* the pending run is flushed and the line broken *)
    set (piece := getTextLayoutElement app metrics c (text_base this) (text_color_ this)
                    (text_style_ this) (mid text wordStart (i - wordStart)) width false).
    destruct (getTextLayoutElement_fields c (text_base this) (text_color_ this)
                (text_style_ this) (mid text wordStart (i - wordStart)) width false)
      as (Hptext & Hpwidth & Hpspace).
    fold piece in Hptext, Hpwidth, Hpspace.
    destruct (IH (S (if isSurrogateAt text i then S i else i)) i
                (charWidthAt metrics text i) (breakLine (addElementNoLineBreak c piece)))
      as (pieces & Hemit & Hframe & Hspace & Htext & Hfit).
    exists (piece :: pieces). cbn zeta in *.
    refine (conj _ (conj Hframe (conj _ (conj _ _)))).
    + rewrite Hemit, forcedPieces_cons. cbn [emitted breakLine addElementNoLineBreak].
      by rewrite <- !(assoc_L (++)).
    + by constructor.
    + intros [Hws Hlen].
      destruct Htext as [Hle Htext].
      { split; [destruct (isSurrogateAt text i); lia|].
        unfold isSurrogateAt. case_bool_decide; simpl; [destruct (isHighSurrogate _)|]; lia. }
      split; [done|].
      rewrite fmap_cons, concat_cons, Hptext, <- (assoc_L (++)), Htext.
      unfold mid. rewrite <- (take_drop (i - wordStart) (drop wordStart text)) at 2.
      rewrite drop_drop. do 2 f_equal. lia.
    + intros HX Hchars Hm Hwidth.
      destruct (Hfit eq_refl Hchars Hm) as (Hall & Hw & Hx).
      { split; [by apply charWidthAt_nonneg|]. by apply Hchars. }
      refine (conj _ (conj Hw Hx)). constructor; [|done]. rewrite Hpwidth. lia.
Qed.

(** The character-wise split of one word, the final piece included. *)
Lemma wrapText_spec (text : QString) (c : MessageLayoutContainer float) :
  exists pieces last,
    let c' := wrapText app metrics this text c in
    emitted c' = emitted c ++ forcedPieces pieces ++ [Element last]
    /\ (width_ c' = width_ c /\ spaceWidth_ c' = spaceWidth_ c /\ scale_ c' = scale_ c)
    /\ Forall (fun e => le_trailingSpace e = false) pieces
    /\ le_trailingSpace last = trailingSpace (text_base this)
    /\ concat (le_text <$> pieces) ++ le_text last = text
    /\ (currentX_ c = 0 -> 0 <= width_ c -> charactersFit metrics (width_ c) text ->
        metricsOk metrics ->
        Forall (fun e => QSize.width (rect_size e) <= width_ c) pieces
        /\ 0 <= QSize.width (rect_size last) <= width_ c
        /\ currentX_ c' = QSize.width (rect_size last)
                          + (if le_trailingSpace last then spaceWidth_ c else 0)).
Proof.
  unfold wrapText.
  destruct (wrapLoop_spec text (length text) 0 0 0 c)
    as (pieces & Hemit & Hframe & Hspace & Htext & Hfit).
  destruct (wrapLoop app metrics this text (length text) 0 0 0 c)
    as [[wordStart width] c1] eqn:Hloop.
  cbn [fst snd] in *.
  set (last := getTextLayoutElement app metrics c1 (text_base this) (text_color_ this)
                 (text_style_ this) (mid_from text wordStart) width
                 (trailingSpace (text_base this))).
  destruct (getTextLayoutElement_fields c1 (text_base this) (text_color_ this)
              (text_style_ this) (mid_from text wordStart) width
              (trailingSpace (text_base this)))
    as (Hltext & Hlwidth & Hlspace).
  fold last in Hltext, Hlwidth, Hlspace.
  exists pieces, last. cbn zeta. cbn [emitted addElementNoLineBreak width_ spaceWidth_ scale_ currentX_].
  refine (conj _ (conj Hframe (conj Hspace (conj Hlspace (conj _ _))))).
  - by rewrite Hemit, <- (assoc_L (++)).
  - rewrite Hltext. unfold mid_from. apply Htext. lia.
  - intros HX Hwidth Hchars Hm.
    destruct (Hfit HX Hchars Hm) as (Hall & Hw & Hx); [lia|].
    destruct Hframe as (_ & Hsp & _).
    rewrite Hlwidth, Hx, Hsp. refine (conj Hall (conj Hw _)). lia.
Qed.

(** The fuel of the character loop is enough: with [length text <= i + fuel]
    the loop ends because [i] reaches the end of the text, and more fuel
    changes nothing. *)
Lemma wrapLoop_fuel (text : QString) (fuel extra i wordStart : nat) (width : Z)
    (c : MessageLayoutContainer float) :
  (length text <= i + fuel)%nat ->
  wrapLoop app metrics this text (fuel + extra) i wordStart width c
  = wrapLoop app metrics this text fuel i wordStart width c.
Proof.
  revert i wordStart width c.
  induction fuel as [|fuel IH]; intros i wordStart width c Hfuel.
  - destruct extra as [|extra]; [done|]. simpl.
    rewrite bool_decide_eq_false_2; [done|lia].
  - simpl. case_bool_decide as Hi; [|done].
    destruct (negb _); apply IH; destruct (isSurrogateAt text i); lia.
Qed.

Lemma emittedText_app (ps qs : list (Primitive float)) :
  emittedText (ps ++ qs) = emittedText ps ++ emittedText qs.
Proof. unfold emittedText. by rewrite fmap_app, concat_app. Qed.

Lemma emittedText_forcedPieces (pieces : list (MessageLayoutElement float)) :
  emittedText (forcedPieces pieces) = concat (le_text <$> pieces).
Proof.
  induction pieces as [|piece pieces IH]; [done|].
  rewrite forcedPieces_cons.
  change (Element piece :: LineBreak :: forcedPieces pieces)
    with ([Element piece; LineBreak] ++ forcedPieces pieces).
  rewrite emittedText_app, IH. unfold emittedText. simpl. by rewrite app_nil_r.
Qed.

Lemma forcedPieces_widths (pieces : list (MessageLayoutElement float)) (width : Z) :
  0 <= width ->
  Forall (fun e => QSize.width (rect_size e) <= width) pieces ->
  Forall (fun p => primitiveWidth p <= width) (forcedPieces pieces).
Proof.
  intros Hwidth. induction 1 as [|piece pieces Hp _ IH]; [constructor|].
  rewrite forcedPieces_cons. by repeat constructor.
Qed.

Lemma containerOk_addElementNoLineBreak (c : MessageLayoutContainer float)
    (e : MessageLayoutElement float) :
  containerOk c -> 0 <= QSize.width (rect_size e) ->
  containerOk (addElementNoLineBreak c e).
Proof.
  intros (Hx & Hs & _) He. unfold containerOk, atStartOfLine. simpl.
  rewrite last_snoc. refine (conj _ (conj Hs _)); [|done].
  destruct (le_trailingSpace e); lia.
Qed.

Lemma containerOk_breakLine (c : MessageLayoutContainer float) :
  containerOk c -> containerOk (breakLine c).
Proof. intros (Hx & Hs & _). unfold containerOk. simpl. done. Qed.

(** One word of a text element: what is emitted says the word, and under the
    assumptions of the wrap invariant nothing emitted is wider than the
    line. *)
Lemma TextElement_addWord_spec (c : MessageLayoutContainer float) (word : Word.t) :
  exists new,
    let r := TextElement_addWord app metrics this c word in
    emitted r.2 = emitted c ++ new
    /\ (width_ r.2 = width_ c /\ spaceWidth_ r.2 = spaceWidth_ c /\ scale_ r.2 = scale_ c)
    /\ emittedText new = Word.text word
    /\ Word.text r.1 = Word.text word
    /\ (containerOk c -> 0 <= width_ c -> metricsOk metrics ->
        charactersFit metrics (width_ c) (Word.text word) ->
        Forall (fun p => primitiveWidth p <= width_ c) new /\ containerOk r.2).
Proof.
  unfold TextElement_addWord. cbn [Word.text Word.width].
  set (w := horizontalAdvance metrics (Word.text word)).
  pose proof (fun c => getTextLayoutElement_fields c (text_base this) (text_color_ this)
                         (text_style_ this) (Word.text word) w
                         (trailingSpace (text_base this))) as Hwhole.
  cbn zeta in Hwhole.
  assert (Hsingle : forall c0 : MessageLayoutContainer float,
            emittedText [Element (getTextLayoutElement app metrics c0 (text_base this)
                                    (text_color_ this) (text_style_ this) (Word.text word) w
                                    (trailingSpace (text_base this)))]
            = Word.text word).
  { intros c0. unfold emittedText. simpl. rewrite app_nil_r. apply Hwhole. }
  destruct (fitsInLine c w) eqn:Hfits.
  - (* the word fits on the current line *)
    eexists [_]. cbn zeta. cbn [fst snd emitted addElementNoLineBreak width_ spaceWidth_ scale_].
    refine (conj eq_refl (conj (conj eq_refl (conj eq_refl eq_refl))
              (conj (Hsingle c) (conj eq_refl _)))).
    intros Hok Hwidth Hm Hchars.
    destruct (Hwhole c) as (_ & Hw & _).
    assert (0 <= w) by apply Hm.
    split.
    + repeat constructor. simpl. rewrite Hw.
      unfold fitsInLine in Hfits. apply Z.leb_le in Hfits. destruct Hok. lia.
    + apply containerOk_addElementNoLineBreak; [done|]. by rewrite Hw.
  - destruct (atStartOfLine c) eqn:Hstart; cbn [negb].
    + (* at the start of a line: the word is split *)
      destruct (wrapText_spec (Word.text word) c)
        as (pieces & last & Hemit & Hframe & Hspace & Hlast & Htext & Hfit).
      exists (forcedPieces pieces ++ [Element last]). cbn zeta in *. cbn [fst snd].
      refine (conj Hemit (conj Hframe (conj _ (conj eq_refl _)))).
      * rewrite emittedText_app, emittedText_forcedPieces. unfold emittedText. simpl.
        by rewrite app_nil_r.
      * intros Hok Hwidth Hm Hchars.
        destruct Hok as (Hx & Hs & Hzero).
        destruct (Hfit (Hzero Hstart) Hwidth Hchars Hm) as (Hall & Hl & Hcur).
        split.
        -- apply Forall_app. split; [by apply forcedPieces_widths|].
           repeat constructor. simpl. lia.
        -- unfold containerOk, atStartOfLine. rewrite Hemit, (assoc_L (++)), last_snoc.
           destruct Hframe as (_ & -> & _).
           refine (conj _ (conj Hs _)); [|done].
           rewrite Hcur. destruct (le_trailingSpace last); lia.
    + (* the line is broken first *)
      destruct (fitsInLine (breakLine c) w) eqn:Hfits'.
      * eexists [LineBreak; _]. cbn zeta.
        cbn [fst snd emitted addElementNoLineBreak breakLine width_ spaceWidth_ scale_].
        refine (conj _ (conj (conj eq_refl (conj eq_refl eq_refl))
                  (conj (Hsingle (breakLine c)) (conj eq_refl _)))).
        -- by rewrite <- (assoc_L (++)).
        -- intros Hok Hwidth Hm Hchars.
           destruct (Hwhole (breakLine c)) as (_ & Hw & _).
           assert (0 <= w) by apply Hm.
           split.
           ++ repeat constructor; simpl; [done|]. rewrite Hw.
              unfold fitsInLine in Hfits'. apply Z.leb_le in Hfits'. simpl in Hfits'. lia.
           ++ apply containerOk_addElementNoLineBreak; [by apply containerOk_breakLine|].
              by rewrite Hw.
      * destruct (wrapText_spec (Word.text word) (breakLine c))
          as (pieces & last & Hemit & Hframe & Hspace & Hlast & Htext & Hfit).
        exists (LineBreak :: forcedPieces pieces ++ [Element last]).
        cbn zeta in *. cbn [fst snd].
        cbn [emitted breakLine width_ spaceWidth_ scale_ currentX_] in Hemit, Hframe, Hfit.
        refine (conj _ (conj Hframe (conj _ (conj eq_refl _)))).
        -- by rewrite Hemit, <- (assoc_L (++)).
        -- change (LineBreak :: forcedPieces pieces ++ [Element last])
             with ([LineBreak] ++ forcedPieces pieces ++ [Element last]).
           rewrite !emittedText_app, emittedText_forcedPieces. unfold emittedText. simpl.
           by rewrite app_nil_r.
        -- intros Hok Hwidth Hm Hchars.
           destruct Hok as (Hx & Hs & Hzero).
           destruct (Hfit eq_refl Hwidth Hchars Hm) as (Hall & Hl & Hcur).
           split.
           ++ constructor; [done|]. apply Forall_app. split; [by apply forcedPieces_widths|].
              repeat constructor. simpl. lia.
           ++ unfold containerOk, atStartOfLine. rewrite Hemit, (assoc_L (++)), last_snoc.
              destruct Hframe as (_ & -> & _).
              refine (conj _ (conj Hs _)); [|done].
              rewrite Hcur. destruct (le_trailingSpace last); lia.
Qed.

(** All the words of a text element. *)
Lemma TextElement_addWords_spec (words : list Word.t) (c : MessageLayoutContainer float) :
  exists new,
    let r := TextElement_addWords app metrics this words c in
    emitted r.2 = emitted c ++ new
    /\ (width_ r.2 = width_ c /\ spaceWidth_ r.2 = spaceWidth_ c /\ scale_ r.2 = scale_ c)
    /\ emittedText new = concat (Word.text <$> words)
    /\ Word.text <$> r.1 = Word.text <$> words
    /\ (containerOk c -> 0 <= width_ c -> metricsOk metrics ->
        Forall (fun word => charactersFit metrics (width_ c) (Word.text word)) words ->
        Forall (fun p => primitiveWidth p <= width_ c) new /\ containerOk r.2).
Proof.
  revert c. induction words as [|word words IH]; intros c.
  { exists []. simpl. rewrite app_nil_r.
    refine (conj eq_refl (conj (conj eq_refl (conj eq_refl eq_refl))
              (conj eq_refl (conj eq_refl _)))).
    intros Hok _ _ _. split; [constructor|done]. }
  destruct (TextElement_addWord_spec c word)
    as (new1 & Hemit1 & (Hw1 & Hs1 & Hsc1) & Htext1 & Hword1 & Hfit1).
  cbn [TextElement_addWords].
  destruct (TextElement_addWord app metrics this c word) as [word' c1].
  destruct (IH c1) as (new2 & Hemit2 & (Hw2 & Hs2 & Hsc2) & Htext2 & Hwords2 & Hfit2).
  destruct (TextElement_addWords app metrics this words c1) as [words' c2].
  cbn [fst snd] in *. cbn zeta.
  exists (new1 ++ new2).
  refine (conj _ (conj _ (conj _ (conj _ _)))).
  - by rewrite Hemit2, Hemit1, <- (assoc_L (++)).
  - split_and!; congruence.
  - rewrite emittedText_app, Htext1, Htext2. done.
  - rewrite !fmap_cons. congruence.
  - intros Hok Hwidth Hm Hchars. inversion Hchars as [|? ? Hc Hcs]; subst.
    destruct (Hfit1 Hok Hwidth Hm Hc) as [Hall1 Hok1].
    rewrite Hw1 in Hfit2.
    destruct (Hfit2 Hok1 Hwidth Hm Hcs) as [Hall2 Hok2].
    split; [|done]. apply Forall_app. done.
Qed.

End TextWrapping.

(** C3. A word of a text element that does not fit on the current line, and
    (when the line was not empty) does not fit on a fresh line either, is
    split piece by piece: every forced piece has no trailing space and is
    followed by a line break, and the last piece carries the trailing-space
    flag of the element.  The pieces together are the word. *)
Theorem TextElement_split_word_trailing_space
    (app : Application float) (metrics : QFontMetrics) (this : TextElement)
    (c : MessageLayoutContainer float) (word : Word.t) :
  fitsInLine c (horizontalAdvance metrics (Word.text word)) = false ->
  (atStartOfLine c = false ->
   fitsInLine (breakLine c) (horizontalAdvance metrics (Word.text word)) = false) ->
  exists pieces last,
    emitted (TextElement_addWord app metrics this c word).2
    = emitted c ++ (if atStartOfLine c then [] else [LineBreak])
                ++ forcedPieces pieces ++ [Element last]
    /\ Forall (fun piece => le_trailingSpace piece = false) pieces
    /\ le_trailingSpace last = trailingSpace (text_base this)
    /\ concat (le_text <$> pieces) ++ le_text last = Word.text word.
Proof.
  intros Hfits Hfresh. unfold TextElement_addWord. cbn [Word.text Word.width].
  rewrite Hfits. destruct (atStartOfLine c) eqn:Hstart; cbn [negb fst snd].
  - destruct (wrapText_spec app metrics this (Word.text word) c)
      as (pieces & last & Hemit & _ & Hspace & Hlast & Htext & _).
    by exists pieces, last.
  - rewrite (Hfresh eq_refl). cbn [snd].
    destruct (wrapText_spec app metrics this (Word.text word) (breakLine c))
      as (pieces & last & Hemit & _ & Hspace & Hlast & Htext & _).
    exists pieces, last. split; [|done].
    rewrite Hemit. cbn [emitted breakLine]. by rewrite <- (assoc_L (++)).
Qed.

(** ** The widths that the fragments store *)

Lemma QString_pair_ind (P : QString -> Prop) :
  P [] -> (forall c, P [c]) ->
  (forall c c2 rest, P rest -> P (c2 :: rest) -> P (c :: c2 :: rest)) ->
  forall text, P text.
Proof.
  intros Hnil Hone Hstep text.
  assert (Hboth : P text /\ forall c, P (c :: text)); [|by destruct Hboth].
  induction text as [|c2 rest [IH1 IH2]]; [by split|].
  split; [apply IH2|]. intros c. by apply Hstep.
Qed.

Lemma charsWidth_pair (metrics : QFontMetrics) (c c2 : QChar) (rest : QString) :
  charsWidth metrics (c :: c2 :: rest)
  = if isHighSurrogate c
    then horizontalAdvance metrics [c; c2] + charsWidth metrics rest
    else horizontalAdvanceChar metrics c + charsWidth metrics (c2 :: rest).
Proof. done. Qed.

Lemma endsOpen_pair (c c2 : QChar) (rest : QString) :
  endsOpen (c :: c2 :: rest)
  = if isHighSurrogate c then endsOpen rest else endsOpen (c2 :: rest).
Proof. done. Qed.

Lemma charsWidth_app (metrics : QFontMetrics) (piece rest : QString) :
  endsOpen piece = false ->
  charsWidth metrics (piece ++ rest) = charsWidth metrics piece + charsWidth metrics rest
  /\ endsOpen (piece ++ rest) = endsOpen rest.
Proof.
  revert piece. apply (QString_pair_ind (fun piece => endsOpen piece = false -> _)).
  - intros _. by cbn.
  - intros c Hc. change (endsOpen [c]) with (isHighSurrogate c) in Hc.
    change ([c] ++ rest) with (c :: rest). destruct rest as [|c2 rest].
    + cbn. rewrite Hc. split; [lia|done].
    + rewrite charsWidth_pair, endsOpen_pair, Hc. by cbn.
  - intros c c2 piece IH1 IH2 Hclosed. rewrite endsOpen_pair in Hclosed.
    change ((c :: c2 :: piece) ++ rest) with (c :: c2 :: (piece ++ rest)).
    rewrite !charsWidth_pair, !endsOpen_pair. destruct (isHighSurrogate c).
    + destruct (IH1 Hclosed) as [-> ->]. split; [lia|done].
    + destruct (IH2 Hclosed) as [Hwidth Hopen].
      change ((c2 :: piece) ++ rest) with (c2 :: (piece ++ rest)) in Hwidth, Hopen.
      rewrite Hwidth, Hopen. split; [lia|done].
Qed.

Lemma mid_snoc (text : QString) (wordStart i n : nat) :
  (wordStart <= i)%nat ->
  mid text wordStart (i + n - wordStart) = mid text wordStart (i - wordStart) ++ mid text i n.
Proof.
  intros Hle. unfold mid.
  replace (i + n - wordStart)%nat with ((i - wordStart) + n)%nat by lia.
  replace (drop i text) with (drop (i - wordStart) (drop wordStart text))
    by (rewrite drop_drop; f_equal; lia).
  generalize (drop wordStart text) as l. generalize (i - wordStart)%nat as k.
  induction k as [|k IH]; intros l; [done|].
  destruct l as [|x l]; [by rewrite drop_nil, !take_nil|].
  cbn [Nat.add take drop app]. by rewrite IH.
Qed.

(** The character that the loop meets at index [i]: one code unit, or two
    for a surrogate pair. *)
Lemma charWidthAt_charsWidth (metrics : QFontMetrics) (text : QString) (i : nat) :
  (i < length text)%nat ->
  let n := if isSurrogateAt text i then 2%nat else 1%nat in
  charsWidth metrics (mid text i n) = charWidthAt metrics text i
  /\ (i + n <= length text)%nat
  /\ ((i + n < length text)%nat -> endsOpen (mid text i n) = false).
Proof.
  intros Hi.
  destruct (drop i text) as [|c rest] eqn:Hdrop.
  { apply (f_equal length) in Hdrop. rewrite length_drop in Hdrop. simpl in Hdrop. lia. }
  assert (Hlen : length text = (i + S (length rest))%nat).
  { apply (f_equal length) in Hdrop. rewrite length_drop in Hdrop. simpl in Hdrop. lia. }
  assert (Hc : text !!! i = c).
  { apply list_lookup_total_correct.
    rewrite <- (Nat.add_0_r i), <- lookup_drop, Hdrop. done. }
  unfold charWidthAt, isSurrogateAt, mid. rewrite Hdrop, Hc.
  destruct rest as [|c2 rest]; cbn [length] in Hlen.
  - assert (Hlast : ~ (S i < length text)%nat) by lia.
    rewrite (bool_decide_eq_false_2 _ Hlast).
    cbn [andb take charsWidth]. split; [done|]. split; [lia|]. intros Hmore. lia.
  - assert (Hmore : (S i < length text)%nat) by lia.
    rewrite (bool_decide_eq_true_2 _ Hmore).
    cbn [andb]. destruct (isHighSurrogate c) eqn:Hhigh.
    + cbn [take]. rewrite take_0, charsWidth_pair, endsOpen_pair, Hhigh.
      cbn [charsWidth endsOpen]. split; [lia|]. split; [lia|done].
    + cbn [take]. rewrite ?take_0. cbn [charsWidth endsOpen].
      split; [done|]. split; [lia|done].
Qed.

(** The character loop keeps in [width] the width of the pending run, added
    up character by character; so every piece it emits, and the run that is
    left when the loop has gone through the text, store that width. *)
Lemma wrapLoop_widths (app : Application float) (metrics : QFontMetrics) (this : TextElement)
    (text : QString) (fuel i wordStart : nat) (width : Z)
    (c : MessageLayoutContainer float) :
  (wordStart <= i <= length text)%nat ->
  (length text <= i + fuel)%nat ->
  width = charsWidth metrics (mid text wordStart (i - wordStart)) ->
  ((i < length text)%nat -> endsOpen (mid text wordStart (i - wordStart)) = false) ->
  exists pieces,
    let r := wrapLoop app metrics this text fuel i wordStart width c in
    emitted r.2 = emitted c ++ forcedPieces pieces
    /\ Forall (fun e => QSize.width (rect_size e) = charsWidth metrics (le_text e)) pieces
    /\ r.1.2 = charsWidth metrics (drop r.1.1 text).
Proof.
  assert (Hend : forall (i wordStart : nat),
            (wordStart <= i)%nat -> (length text <= i)%nat ->
            mid text wordStart (i - wordStart) = drop wordStart text).
  { intros j ws Hws Hj. unfold mid. apply take_ge. rewrite length_drop. lia. }
  revert i wordStart width c.
  induction fuel as [|fuel IH]; intros i wordStart width c [Hws Hi] Hfuel Hwidth Hclosed.
  { exists []. cbn. rewrite app_nil_r. split; [done|]. split; [constructor|].
    rewrite Hwidth, Hend by lia. done. }
  cbn [wrapLoop]. case_bool_decide as Hlt; cycle 1.
  { exists []. cbn. rewrite app_nil_r. split; [done|]. split; [constructor|].
    rewrite Hwidth, Hend by lia. done. }
  destruct (charWidthAt_charsWidth metrics text i Hlt) as (Hchar & Hnext & Hopen).
  assert (Hstep : S (if isSurrogateAt text i then S i else i)
                  = (i + (if isSurrogateAt text i then 2 else 1))%nat)
    by (destruct (isSurrogateAt text i); lia).
  rewrite Hstep. clear Hstep.
  assert (Hn : (1 <= if isSurrogateAt text i then 2 else 1)%nat)
    by (destruct (isSurrogateAt text i); lia).
  revert Hchar Hnext Hopen Hn.
  generalize (if isSurrogateAt text i then 2%nat else 1%nat) as n.
  intros n Hchar Hnext Hopen Hn.
  destruct (fitsInLine c (width + charWidthAt metrics text i)); cbn [negb].
  - destruct (charsWidth_app metrics (mid text wordStart (i - wordStart)) (mid text i n)
                (Hclosed Hlt)) as [Hsum Hopen'].
    destruct (IH (i + n)%nat wordStart (width + charWidthAt metrics text i) c)
      as (pieces & Hemit & Hall & Hrest); try lia.
    + rewrite mid_snoc by done. rewrite Hsum, Hchar. by rewrite Hwidth.
    + intros Hmore. rewrite mid_snoc by done. rewrite Hopen'. by apply Hopen.
    + by exists pieces.
  - set (piece := getTextLayoutElement app metrics c (text_base this) (text_color_ this)
                    (text_style_ this) (mid text wordStart (i - wordStart)) width false).
    destruct (getTextLayoutElement_fields app metrics c (text_base this) (text_color_ this)
                (text_style_ this) (mid text wordStart (i - wordStart)) width false)
      as (Hptext & Hpwidth & _).
    fold piece in Hptext, Hpwidth.
    destruct (IH (i + n)%nat i (charWidthAt metrics text i)
                (breakLine (addElementNoLineBreak c piece)))
      as (pieces & Hemit & Hall & Hrest); try lia.
    + replace (i + n - i)%nat with n by lia. done.
    + intros Hmore. replace (i + n - i)%nat with n by lia. by apply Hopen.
    + exists (piece :: pieces). cbn zeta in *.
      refine (conj _ (conj _ Hrest)).
      * rewrite Hemit, forcedPieces_cons. cbn [emitted breakLine addElementNoLineBreak].
        by rewrite <- !(assoc_L (++)).
      * constructor; [|done]. by rewrite Hpwidth, Hptext.
Qed.

Lemma wrapText_widths (app : Application float) (metrics : QFontMetrics) (this : TextElement)
    (text : QString) (c : MessageLayoutContainer float) :
  exists new,
    emitted (wrapText app metrics this text c) = emitted c ++ new
    /\ Forall (primitiveMeasured metrics) new.
Proof.
  unfold wrapText.
  destruct (wrapLoop_widths app metrics this text (length text) 0 0 0 c)
    as (pieces & Hemit & Hall & Hrest); try done; try lia.
  destruct (wrapLoop app metrics this text (length text) 0 0 0 c)
    as [[wordStart width] c1].
  cbn [fst snd] in *.
  destruct (getTextLayoutElement_fields app metrics c1 (text_base this) (text_color_ this)
              (text_style_ this) (mid_from text wordStart) width
              (trailingSpace (text_base this)))
    as (Hltext & Hlwidth & _).
  eexists (forcedPieces pieces ++ [Element _]).
  cbn [emitted addElementNoLineBreak]. split.
  - by rewrite Hemit, <- (assoc_L (++)).
  - apply Forall_app. split.
    + clear Hemit. induction Hall as [|piece pieces Hpiece _ IH]; [constructor|].
      rewrite forcedPieces_cons. constructor; [by right|]. by constructor.
    + constructor; [|constructor]. right. by rewrite Hlwidth, Hltext.
Qed.

Lemma TextElement_addWord_widths (app : Application float) (metrics : QFontMetrics)
    (this : TextElement) (c : MessageLayoutContainer float) (word : Word.t) :
  exists new,
    emitted (TextElement_addWord app metrics this c word).2 = emitted c ++ new
    /\ Forall (primitiveMeasured metrics) new.
Proof.
  unfold TextElement_addWord. cbn [Word.text Word.width].
  set (w := horizontalAdvance metrics (Word.text word)).
  assert (Hwhole : forall c0 : MessageLayoutContainer float,
            primitiveMeasured metrics
              (Element (getTextLayoutElement app metrics c0 (text_base this)
                          (text_color_ this) (text_style_ this) (Word.text word) w
                          (trailingSpace (text_base this))))).
  { intros c0. left.
    destruct (getTextLayoutElement_fields app metrics c0 (text_base this) (text_color_ this)
                (text_style_ this) (Word.text word) w (trailingSpace (text_base this)))
      as (-> & -> & _). done. }
  destruct (fitsInLine c w).
  - eexists [_]. cbn [snd emitted addElementNoLineBreak]. split; [done|].
    constructor; [apply Hwhole|constructor].
  - destruct (atStartOfLine c); cbn [negb snd].
    + apply wrapText_widths.
    + destruct (fitsInLine (breakLine c) w); cbn [snd].
      * eexists [LineBreak; _]. cbn [emitted addElementNoLineBreak breakLine].
        split; [by rewrite <- (assoc_L (++))|].
        constructor; [done|]. constructor; [apply Hwhole|constructor].
      * destruct (wrapText_widths app metrics this (Word.text word) (breakLine c))
          as (new & Hemit & Hall).
        exists (LineBreak :: new). cbn [emitted breakLine] in Hemit. split.
        -- by rewrite Hemit, <- (assoc_L (++)).
        -- by constructor.
Qed.

Lemma TextElement_addWords_widths (app : Application float) (metrics : QFontMetrics)
    (this : TextElement) (words : list Word.t) (c : MessageLayoutContainer float) :
  exists new,
    emitted (TextElement_addWords app metrics this words c).2 = emitted c ++ new
    /\ Forall (primitiveMeasured metrics) new.
Proof.
  revert c. induction words as [|word words IH]; intros c.
  { exists []. cbn. rewrite app_nil_r. split; [done|constructor]. }
  cbn [TextElement_addWords].
  destruct (TextElement_addWord_widths app metrics this c word) as (new1 & Hemit1 & Hall1).
  destruct (TextElement_addWord app metrics this c word) as [word' c1].
  destruct (IH c1) as (new2 & Hemit2 & Hall2).
  destruct (TextElement_addWords app metrics this words c1) as [words' c2].
  cbn [snd] in *. exists (new1 ++ new2). split.
  - by rewrite Hemit2, Hemit1, <- (assoc_L (++)).
  - by apply Forall_app.
Qed.

(** C2. A text element is rendered into a container whose cursor is
    consistent, with a font that measures no negative width, on a line that is
    at least as wide as every single character of the words.  Then every
    primitive that the element emits is at most as wide as the line (the width
    of the line does not change while the element is rendered); the width that
    a fragment stores, which is the width so bounded, is the font's measure of
    the text of the fragment (the advance of a whole word, the advances of the
    characters of a piece added up); and, when the render flags meet the
    flags of the element, the emitted fragments say the words of the element,
    one after the other with nothing left out. *)
Theorem TextElement_greedy_wrap_invariant
    (app : Application float) (this : TextElement)
    (c : MessageLayoutContainer float) (flags : MessageElementFlags) :
  containerOk c -> 0 <= width_ c ->
  metricsOk (getFontMetrics app (text_style_ this) (getScale c)) ->
  Forall (fun word =>
            charactersFit (getFontMetrics app (text_style_ this) (getScale c))
              (width_ c) (Word.text word))
         (text_words_ this) ->
  exists new,
    emitted (TextElement_addToContainer app this c flags).2 = emitted c ++ new
    /\ width_ (TextElement_addToContainer app this c flags).2 = width_ c
    /\ Forall (fun p => primitiveWidth p <= width_ c) new
    /\ Forall (primitiveMeasured (getFontMetrics app (text_style_ this) (getScale c))) new
    /\ (hasAny flags (flags_ (text_base this)) = true ->
        emittedText new = concat (Word.text <$> text_words_ this)).
Proof.
  intros Hok Hwidth Hm Hchars. unfold TextElement_addToContainer.
  destruct (hasAny flags (flags_ (text_base this))).
  - destruct (TextElement_addWords_spec app
                (getFontMetrics app (text_style_ this) (getScale c)) this
                (text_words_ this) c)
      as (new & Hemit & (Hw & _) & Htext & _ & Hfit).
    destruct (TextElement_addWords_widths app
                (getFontMetrics app (text_style_ this) (getScale c)) this
                (text_words_ this) c)
      as (new' & Hemit' & Hmeasured).
    destruct (TextElement_addWords _ _ _ _ _) as [words c'].
    cbn [fst snd] in *. exists new.
    destruct (Hfit Hok Hwidth Hm Hchars) as [Hall _].
    rewrite Hemit in Hemit'. apply app_inv_head in Hemit'. subst new'. done.
  - exists []. cbn [snd]. rewrite app_nil_r. by repeat split.
Qed.

(** ** Timestamps *)

Lemma TimestampElement_refresh_format (settings : Settings float) (app : Application float)
    (this : TimestampElement) :
  format_ (TimestampElement_refresh Flag settings app this) = timestampFormat settings.
Proof.
  unfold TimestampElement_refresh. case_bool_decide as Hne; [done|].
  done.
Qed.

Lemma TimestampElement_refresh_base (settings : Settings float) (app : Application float)
    (this : TimestampElement) :
  timestamp_base (TimestampElement_refresh Flag settings app this) = timestamp_base this
  /\ time_ (TimestampElement_refresh Flag settings app this) = time_ this.
Proof. unfold TimestampElement_refresh. by case_bool_decide. Qed.

Lemma TimestampElement_addToContainer_rendered (settings : Settings float)
    (app : Application float) (this : TimestampElement)
    (c : MessageLayoutContainer float) (flags : MessageElementFlags) :
  hasAny flags (flags_ (timestamp_base this)) = true ->
  let refreshed := TimestampElement_refresh Flag settings app this in
  let rendered := TextElement_addToContainer app (element_ refreshed) c flags in
  TimestampElement_addToContainer Flag settings app this c flags
  = ({| timestamp_base := timestamp_base refreshed; time_ := time_ refreshed;
        element_ := rendered.1; format_ := format_ refreshed |}, rendered.2).
Proof.
  intros Hflags refreshed rendered. subst refreshed rendered.
  unfold TimestampElement_addToContainer. rewrite Hflags.
  by destruct (TextElement_addToContainer _ _ _ _).
Qed.

Lemma TextElement_addToContainer_says (app : Application float) (this : TextElement)
    (c : MessageLayoutContainer float) (flags : MessageElementFlags) :
  hasAny flags (flags_ (text_base this)) = true ->
  exists new,
    emitted (TextElement_addToContainer app this c flags).2 = emitted c ++ new
    /\ emittedText new = concat (Word.text <$> text_words_ this).
Proof.
  intros Hgate. unfold TextElement_addToContainer. rewrite Hgate.
  destruct (TextElement_addWords_spec app
              (getFontMetrics app (text_style_ this) (getScale c)) this
              (text_words_ this) c) as (new & Hemit & _ & Htext & _).
  destruct (TextElement_addWords _ _ _ _ _) as [words c']. by exists new.
Qed.

Lemma TextElement_new_words (text : QString) (flags : MessageElementFlags)
    (color : MessageColor) (style : FontStyle) :
  Word.text <$> text_words_ (TextElement_new text flags color style) = split 32 text.
Proof.
  unfold TextElement_new. cbn [text_words_].
  rewrite <- list_fmap_compose. apply list_fmap_id.
Qed.


(** C5. A timestamp element is rendered with [settings1] and then with
    [settings2], both times with render flags that meet its own.  When the
    format of the settings changed in between, the second render formats the
    time anew with the new format and renders that text element (under render
    flags with [Timestamp], what it emits says the newly formatted time); when
    the format did not change, the refresh step leaves the element as it is
    and the cached text element is the one rendered. *)
Theorem TimestampElement_format_cache
    (settings1 settings2 : Settings float) (app : Application float)
    (this : TimestampElement) (c1 c2 : MessageLayoutContainer float)
    (flags1 flags2 : MessageElementFlags) :
  hasAny flags1 (flags_ (timestamp_base this)) = true ->
  hasAny flags2 (flags_ (timestamp_base this)) = true ->
  let first := TimestampElement_addToContainer Flag settings1 app this c1 flags1 in
  let second := TimestampElement_addToContainer Flag settings2 app first.1 c2 flags2 in
  (timestampFormat settings2 <> timestampFormat settings1 ->
     format_ second.1 = timestampFormat settings2
     /\ (element_ second.1, second.2)
        = TextElement_addToContainer app
            (TextElement_new (locale_toString app (time_ this) (timestampFormat settings2))
               (Timestamp Flag) MessageColor_System ChatMedium)
            c2 flags2
     /\ (hasAny flags2 (Timestamp Flag) = true ->
         exists new,
           emitted second.2 = emitted c2 ++ new
           /\ emittedText new
              = concat (split 32 (locale_toString app (time_ this)
                                    (timestampFormat settings2)))))
  /\ (timestampFormat settings2 = timestampFormat settings1 ->
     TimestampElement_refresh Flag settings2 app first.1 = first.1
     /\ format_ second.1 = format_ first.1
     /\ (element_ second.1, second.2)
        = TextElement_addToContainer app (element_ first.1) c2 flags2).
Proof.
  intros Hflags1 Hflags2 first second.
  pose proof (TimestampElement_refresh_format settings1 app this) as Hformat.
  pose proof (TimestampElement_refresh_base settings1 app this) as [Hbase Htime].
  assert (Hfirst : format_ first.1 = timestampFormat settings1
                   /\ timestamp_base first.1 = timestamp_base this
                   /\ time_ first.1 = time_ this).
  { subst first. by rewrite TimestampElement_addToContainer_rendered. }
  destruct Hfirst as (Hformat1 & Hbase1 & Htime1).
  assert (Hsecond : second
            = ({| timestamp_base := timestamp_base (TimestampElement_refresh Flag settings2 app first.1);
                  time_ := time_ (TimestampElement_refresh Flag settings2 app first.1);
                  element_ := (TextElement_addToContainer app
                                 (element_ (TimestampElement_refresh Flag settings2 app first.1))
                                 c2 flags2).1;
                  format_ := format_ (TimestampElement_refresh Flag settings2 app first.1) |},
               (TextElement_addToContainer app
                  (element_ (TimestampElement_refresh Flag settings2 app first.1))
                  c2 flags2).2)).
  { subst second. apply TimestampElement_addToContainer_rendered. by rewrite Hbase1. }
  rewrite Hsecond. cbn [fst snd element_ format_].
  rewrite TimestampElement_refresh_format.
  split; intros Hsettings.
  - split; [done|].
    unfold TimestampElement_refresh.
    rewrite Hformat1, bool_decide_eq_true_2 by done.
    cbn [element_]. unfold formatTime. rewrite Htime1.
    split; [symmetry; apply surjective_pairing|].
    intros Hstamp.
    destruct (TextElement_addToContainer_says app
                (TextElement_new (locale_toString app (time_ this) (timestampFormat settings2))
                   (Timestamp Flag) MessageColor_System ChatMedium) c2 flags2 Hstamp)
      as (new & Hemit & Htext).
    rewrite TextElement_new_words in Htext. by exists new.
  - assert (Hsame : TimestampElement_refresh Flag settings2 app first.1 = first.1).
    { unfold TimestampElement_refresh.
      rewrite Hformat1, bool_decide_eq_false_2; [done|]. by intros []. }
    rewrite Hsame. split; [done|]. split; [congruence|].
    symmetry. apply surjective_pairing.
Qed.

(** ** The flag gate, and what rendering appends *)

Lemma appendsTo_refl (c : MessageLayoutContainer float) : appendsTo c c.
Proof. exists []. by rewrite app_nil_r. Qed.

Lemma appendsTo_trans (c1 c2 c3 : MessageLayoutContainer float) :
  appendsTo c1 c2 -> appendsTo c2 c3 -> appendsTo c1 c3.
Proof.
  intros [new1 H1] [new2 H2]. exists (new1 ++ new2).
  by rewrite H2, H1, <- (assoc_L (++)).
Qed.

Lemma appendsTo_breakLine (c : MessageLayoutContainer float) : appendsTo c (breakLine c).
Proof. by exists [LineBreak]. Qed.

Lemma appendsTo_addElementNoLineBreak (c : MessageLayoutContainer float) e :
  appendsTo c (addElementNoLineBreak c e).
Proof. by exists [Element e]. Qed.

Lemma appendsTo_addElement (c : MessageLayoutContainer float) e :
  appendsTo c (addElement c e).
Proof.
  unfold addElement. destruct (fitsInLine _ _).
  - apply appendsTo_addElementNoLineBreak.
  - eapply appendsTo_trans; [apply appendsTo_breakLine|apply appendsTo_addElementNoLineBreak].
Qed.

Lemma appendsTo_set_first (c : MessageLayoutContainer float) f : appendsTo c (set_first c f).
Proof. exists []. simpl. by rewrite app_nil_r. Qed.

Create HintDb layout.
#[local] Hint Resolve appendsTo_refl appendsTo_breakLine appendsTo_addElementNoLineBreak
  appendsTo_addElement appendsTo_set_first : layout.

Lemma TextElement_addToContainer_appends (app : Application float) (this : TextElement)
    (c : MessageLayoutContainer float) (flags : MessageElementFlags) :
  appendsTo c (TextElement_addToContainer app this c flags).2.
Proof.
  unfold TextElement_addToContainer. destruct (hasAny _ _); [|apply appendsTo_refl].
  destruct (TextElement_addWords_spec app
              (getFontMetrics app (text_style_ this) (getScale c)) this
              (text_words_ this) c) as (new & Hemit & _).
  destruct (TextElement_addWords _ _ _ _ _) as [words c']. by exists new.
Qed.

Lemma parsedWordsLoop_appends (settings : Settings float) (app : Application float)
    (metrics : QFontMetrics) (this : SingleLineTextElement)
    (parsedWords : list (ParsedWord float)) (currentText : QString)
    (c : MessageLayoutContainer float) :
  appendsTo c (parsedWordsLoop fops settings app metrics this parsedWords currentText c).2.
Proof.
  revert currentText c.
  induction parsedWords as [|[emote|text] parsedWords IH]; intros currentText c;
    cbn [parsedWordsLoop]; [apply appendsTo_refl| |].
  - destruct (negb (Image.isEmpty _)); [|apply IH].
    destruct (negb (fitsInLine _ _)); [apply appendsTo_refl|].
    eapply appendsTo_trans; [|apply IH].
    eapply appendsTo_trans; apply appendsTo_addElementNoLineBreak.
  - cbn zeta. case_bool_decide; [apply appendsTo_refl|apply IH].
Qed.

Lemma singleLineWordsLoop_appends (settings : Settings float) (app : Application float)
    (metrics : QFontMetrics) (this : SingleLineTextElement)
    (words : list Word.t) (currentText : QString) (c : MessageLayoutContainer float) :
  appendsTo c (singleLineWordsLoop fops settings app metrics this words currentText c).2.
Proof.
  revert currentText c. induction words as [|word words IH]; intros currentText c;
    cbn [singleLineWordsLoop]; [apply appendsTo_refl|].
  pose proof (parsedWordsLoop_appends settings app metrics this
                (parse app (Word.text word)) currentText c) as Hword.
  destruct (parsedWordsLoop _ _ _ _ _ _ _ _) as [currentText' c'].
  eapply appendsTo_trans; [apply Hword|apply IH].
Qed.

Lemma SingleLineTextElement_addToContainer_appends (settings : Settings float)
    (app : Application float) (this : SingleLineTextElement)
    (c : MessageLayoutContainer float) (flags : MessageElementFlags) :
  appendsTo c (SingleLineTextElement_addToContainer fops settings app this c flags).
Proof.
  unfold SingleLineTextElement_addToContainer.
  destruct (hasAny _ _); [|apply appendsTo_refl].
  pose proof (singleLineWordsLoop_appends settings app
                (getFontMetrics app (single_style_ this) (getScale c)) this
                (single_words_ this) [] (set_first c Neutral)) as Hwords.
  destruct (singleLineWordsLoop _ _ _ _ _ _ _ _) as [currentText c'].
  eapply appendsTo_trans; [apply appendsTo_set_first|].
  eapply appendsTo_trans; [apply Hwords|].
  eapply appendsTo_trans; [|apply appendsTo_breakLine].
  destruct (negb _); auto with layout.
Qed.

Lemma foldl_appends {A : Type} (step : MessageLayoutContainer float -> A -> MessageLayoutContainer float)
    (l : list A) (c : MessageLayoutContainer float) :
  (forall c0 a, appendsTo c0 (step c0 a)) -> appendsTo c (foldl step c l).
Proof.
  intros Hstep. revert c. induction l as [|a l IH]; intros c; [apply appendsTo_refl|].
  simpl. eapply appendsTo_trans; [apply Hstep|apply IH].
Qed.

Lemma TwitchModerationElement_addToContainer_appends (settings : Settings float)
    (b : MessageElementBase) (c : MessageLayoutContainer float)
    (flags : MessageElementFlags) :
  appendsTo c (TwitchModerationElement_addToContainer fops Flag settings b c flags).
Proof.
  unfold TwitchModerationElement_addToContainer.
  destruct (has _ _); [|apply appendsTo_refl].
  apply foldl_appends. intros c0 action.
  destruct (ModerationAction.getImage action); apply appendsTo_addElement.
Qed.

(** Rendering only appends to what the container holds. *)
Lemma addToContainer_appends (settings : Settings float) (app : Application float)
    (el : MessageElement float) (c : MessageLayoutContainer float)
    (flags : MessageElementFlags) :
  appendsTo c (addToContainer fops Flag settings app el c flags).2.
Proof.
  destruct el as [b|b i|b i p bg|e|e|e|e|e|e|b|b|b i|b]; cbn [addToContainer snd].
  - apply appendsTo_refl.
  - unfold ImageElement_addToContainer. destruct (hasAny _ _); auto with layout.
  - unfold CircularImageElement_addToContainer. destruct (hasAny _ _); auto with layout.
  - unfold EmoteElement_addToContainer.
    destruct (hasAny _ _); [|apply appendsTo_refl].
    destruct (has _ _).
    + destruct (Image.isEmpty _); cbn [snd]; auto with layout.
    + destruct (emote_textElement_ e) as [te|]; [|apply appendsTo_refl].
      pose proof (TextElement_addToContainer_appends app te c (Misc Flag)).
      by destruct (TextElement_addToContainer _ _ _ _).
  - unfold LayeredEmoteElement_addToContainer.
    destruct (hasAny _ _); [|apply appendsTo_refl].
    destruct (has _ _).
    + destruct (getLoadedImages _ _); cbn [snd]; auto with layout.
    + destruct (layered_textElement_ e) as [te|]; [|apply appendsTo_refl].
      pose proof (TextElement_addToContainer_appends app te c (Misc Flag)).
      by destruct (TextElement_addToContainer _ _ _ _).
  - unfold BadgeElement_addToContainer.
    destruct (hasAny _ _); [|apply appendsTo_refl].
    destruct (Image.isEmpty _); auto with layout.
  - pose proof (TextElement_addToContainer_appends app e c flags).
    by destruct (TextElement_addToContainer _ _ _ _).
  - apply SingleLineTextElement_addToContainer_appends.
  - unfold TimestampElement_addToContainer.
    destruct (hasAny _ _); [|apply appendsTo_refl].
    pose proof (TextElement_addToContainer_appends app
                  (element_ (TimestampElement_refresh Flag settings app e)) c flags).
    by destruct (TextElement_addToContainer _ _ _ _).
  - apply TwitchModerationElement_addToContainer_appends.
  - unfold LinebreakElement_addToContainer. destruct (hasAny _ _); auto with layout.
  - unfold ScalingImageElement_addToContainer.
    destruct (hasAny _ _); [|apply appendsTo_refl].
    destruct (Image.isEmpty _); auto with layout.
  - unfold ReplyCurveElement_addToContainer. destruct (hasAny _ _); auto with layout.
Qed.

(** The invariant of moderation elements: established by the constructor and
    kept by the setters, by [clone] and by rendering. *)
Lemma carriesOwnFlag_new :
  carriesOwnFlag Flag (TwitchModerationElement_new (float:=float) Flag).
Proof. simpl. apply Z.land_diag. Qed.

Lemma land_set_keeps (own added flag : Z) :
  Z.land own flag = flag -> Z.land (set own added) flag = flag.
Proof.
  intros Hown. unfold set. rewrite Z.land_lor_distr_l, Hown.
  apply Z.bits_inj'. intros n Hn.
  rewrite Z.lor_spec, Z.land_spec. by destruct (Z.testbit flag n), (Z.testbit added n).
Qed.

Lemma carriesOwnFlag_call (m : Mutation) (el : MessageElement float) :
  carriesOwnFlag Flag el -> carriesOwnFlag Flag (call m el).
Proof.
  destruct el, m; simpl; try done. apply land_set_keeps.
Qed.

Lemma carriesOwnFlag_clone (settings : Settings float) (app : Application float)
    (el : MessageElement float) :
  carriesOwnFlag Flag el -> carriesOwnFlag Flag (clone Flag settings app el).
Proof. by destruct el. Qed.

Lemma carriesOwnFlag_addToContainer (settings : Settings float) (app : Application float)
    (el : MessageElement float) (c : MessageLayoutContainer float)
    (flags : MessageElementFlags) :
  carriesOwnFlag Flag el ->
  carriesOwnFlag Flag (addToContainer fops Flag settings app el c flags).1.
Proof.
  destruct el; simpl; try done;
    by repeat match goal with |- context [let '(_, _) := ?x in _] => destruct x end.
Qed.

(** C8. For an element of any class (a moderation element carrying the flag
    of its constructor): when the render flags do not meet the flags of the
    element, [addToContainer] changes neither the container nor the element;
    when they do, it only appends primitives to the container. *)
Theorem addToContainer_flag_gate (settings : Settings float) (app : Application float)
    (el : MessageElement float) (c : MessageLayoutContainer float)
    (flags : MessageElementFlags) :
  carriesOwnFlag Flag el ->
  if hasAny flags (getFlags el)
  then appendsTo c (addToContainer fops Flag settings app el c flags).2
  else addToContainer fops Flag settings app el c flags = (el, c).
Proof.
  intros Hown. destruct (hasAny flags (getFlags el)) eqn:Hgate;
    [apply addToContainer_appends|].
  unfold getFlags in Hgate.
  destruct el as [b|b i|b i p bg|e|e|e|e|e|e|b|b|b i|b];
    cbn [addToContainer base] in *; try done.
  - unfold ImageElement_addToContainer. by rewrite Hgate.
  - unfold CircularImageElement_addToContainer. by rewrite Hgate.
  - unfold EmoteElement_addToContainer. by rewrite Hgate.
  - unfold LayeredEmoteElement_addToContainer. by rewrite Hgate.
  - unfold BadgeElement_addToContainer. by rewrite Hgate.
  - unfold TextElement_addToContainer. by rewrite Hgate.
  - unfold SingleLineTextElement_addToContainer. by rewrite Hgate.
  - unfold TimestampElement_addToContainer. by rewrite Hgate.
  - unfold TwitchModerationElement_addToContainer.
    assert (Hhas : has flags (ModeratorTools Flag) = false); [|by rewrite Hhas].
    unfold has, hasAny in *. simpl in Hown.
    apply negb_false_iff, Z.eqb_eq in Hgate. apply negb_false_iff, Z.eqb_eq.
    by rewrite <- Hown, Z.land_assoc, Hgate.
  - unfold LinebreakElement_addToContainer. by rewrite Hgate.
  - unfold ScalingImageElement_addToContainer. by rewrite Hgate.
  - unfold ReplyCurveElement_addToContainer. by rewrite Hgate.
Qed.

(** ** Missing images *)

Lemma getLoadedImages_loop_filter (layers : list (LayeredEmote float)) (scale : float)
    (res : list ImagePtr) :
  getLoadedImages_loop layers scale res
  = res ++ filter (fun image => Image.isEmpty image = false) (layerImage scale <$> layers).
Proof.
  revert res. induction layers as [|layer layers IH]; intros res; simpl.
  - by rewrite app_nil_r.
  - rewrite filter_cons. fold (layerImage scale layer).
    destruct (Image.isEmpty (layerImage scale layer)) eqn:Hempty; rewrite IH.
    + by rewrite decide_False.
    + rewrite decide_True by done. by rewrite <- (assoc_L (++)).
Qed.

Lemma getLoadedImages_all_missing (this : LayeredEmoteElement float) (scale : float) :
  forallb (fun layer => Image.isEmpty (layerImage scale layer)) (emotes_ this) = true ->
  getLoadedImages this scale = [].
Proof.
  unfold getLoadedImages. rewrite getLoadedImages_loop_filter. simpl.
  induction (emotes_ this) as [|layer layers IH]; [done|].
  simpl. intros [Hlayer Hlayers]%andb_prop.
  rewrite filter_cons, decide_False by (by rewrite Hlayer). by apply IH.
Qed.

(** C9, as the code has it.  When the render flags ask for the image of an
    emote, layered emote, badge or scaling image, and that image is missing at
    the scale of the container, [addToContainer] leaves the container and the
    element as they were.  The loaded images of a layered emote are the images
    of its layers, in layer order, the empty ones left out. *)
Theorem addToContainer_skips_missing_image
    (settings : Settings float) (app : Application float)
    (el : MessageElement float) (c : MessageLayoutContainer float)
    (flags : MessageElementFlags) :
  imageMissing el (getScale c) = true ->
  asksForImage Flag el flags = true ->
  addToContainer fops Flag settings app el c flags = (el, c)
  /\ (forall this : LayeredEmoteElement float,
        getLoadedImages this (getScale c)
        = filter (fun image => Image.isEmpty image = false)
                 (layerImage (getScale c) <$> emotes_ this)).
Proof.
  intros Hmissing Hasks. split; [|intros this; apply (getLoadedImages_loop_filter _ _ [])].
  destruct el as [b|b i|b i p bg|e|e|e|e|e|e|b|b|b i|b];
    cbn [imageMissing asksForImage] in *; try done; cbn [addToContainer].
  - unfold EmoteElement_addToContainer. rewrite Hasks, Hmissing. by destruct (hasAny _ _).
  - unfold LayeredEmoteElement_addToContainer.
    rewrite Hasks, getLoadedImages_all_missing by done. by destruct (hasAny _ _).
  - unfold BadgeElement_addToContainer. rewrite Hmissing. by destruct (hasAny _ _).
  - unfold ScalingImageElement_addToContainer. rewrite Hmissing. by destruct (hasAny _ _).
Qed.

(** ** Cloning *)

Lemma clone_base (settings : Settings float) (app : Application float)
    (el : MessageElement float) :
  getFlags (clone Flag settings app el) = getFlags el
  /\ getText (clone Flag settings app el) = getText el
  /\ getLink (clone Flag settings app el) = getLink el
  /\ getTooltip (clone Flag settings app el) = getTooltip el
  /\ getThumbnail (clone Flag settings app el) = getThumbnail el
  /\ getThumbnailType (clone Flag settings app el) = getThumbnailType el.
Proof. by destruct el. Qed.

Lemma call_at_other (store : gmap positive (MessageElement float)) (p q : positive)
    (ms : list Mutation) :
  q <> p ->
  foldl (fun store m => call_at store q m) store ms !! p = store !! p.
Proof.
  intros Hne. revert store. induction ms as [|m ms IH]; intros store; [done|].
  simpl. rewrite IH. unfold call_at. by apply lookup_alter_ne.
Qed.

(** C6. [clone()] on any element yields a new object, at an address of its
    own, whose flags, text, link, tooltip and thumbnail are those of the
    original; and whatever is then called on the clone ([addFlags], [setLink],
    [setTooltip], [setText], ...), the original object stays as it was. *)
Theorem clone_is_independent_copy (settings : Settings float) (app : Application float)
    (store : gmap positive (MessageElement float)) (p : positive)
    (el : MessageElement float) :
  store !! p = Some el ->
  exists q copy,
    clone_at Flag settings app store p = Some (q, <[q := copy]> store)
    /\ q <> p /\ store !! q = Datatypes.None
    /\ getFlags copy = getFlags el
    /\ getText copy = getText el
    /\ getLink copy = getLink el
    /\ getTooltip copy = getTooltip el
    /\ getThumbnail copy = getThumbnail el
    /\ forall ms : list Mutation,
         foldl (fun store m => call_at store q m) (<[q := copy]> store) ms !! p = Some el.
Proof.
  intros Hp. unfold clone_at. rewrite Hp.
  set (q := fresh (dom store)).
  assert (Hfresh : q ∉ dom store) by apply is_fresh.
  assert (Hq : store !! q = Datatypes.None) by (by apply not_elem_of_dom).
  assert (Hne : q <> p) by (intros ->; congruence).
  destruct (clone_base settings app el) as (Hflags & Htext & Hlink & Htooltip & Hthumb & _).
  exists q, (clone Flag settings app el).
  split_and!; try done.
  intros ms. rewrite call_at_other by done. by rewrite lookup_insert_ne.
Qed.

(** ** Single-line text *)

(** The loops of a single-line text element emit elements only: the one line
    break of the element is the last thing it emits. *)
Lemma parsedWordsLoop_elements (settings : Settings float) (app : Application float)
    (metrics : QFontMetrics) (this : SingleLineTextElement)
    (parsedWords : list (ParsedWord float)) (currentText : QString)
    (c : MessageLayoutContainer float) :
  exists es,
    emitted (parsedWordsLoop fops settings app metrics this parsedWords currentText c).2
    = emitted c ++ (Element <$> es).
Proof.
  revert currentText c.
  induction parsedWords as [|[emote|text] parsedWords IH]; intros currentText c;
    cbn [parsedWordsLoop].
  - exists []. by rewrite app_nil_r.
  - destruct (negb (Image.isEmpty _)); [|apply IH].
    destruct (negb (fitsInLine _ _)); [exists []; by rewrite app_nil_r|].
    match goal with |- context [parsedWordsLoop _ _ _ _ _ _ ?t ?c'] =>
      destruct (IH t c') as [es Hes] end.
    eexists (_ :: _ :: es). rewrite Hes. cbn [emitted addElementNoLineBreak].
    by rewrite <- !(assoc_L (++)).
  - cbn zeta. case_bool_decide; [exists []; by rewrite app_nil_r|apply IH].
Qed.

Lemma SingleLineTextElement_one_line_break (settings : Settings float)
    (app : Application float) (this : SingleLineTextElement)
    (c : MessageLayoutContainer float) (flags : MessageElementFlags) :
  hasAny flags (flags_ (single_base this)) = true ->
  exists es,
    emitted (SingleLineTextElement_addToContainer fops settings app this c flags)
    = emitted c ++ (Element <$> es) ++ [LineBreak].
Proof.
  intros Hgate. unfold SingleLineTextElement_addToContainer. rewrite Hgate.
  assert (Hwords : forall words currentText (c0 : MessageLayoutContainer float),
            exists es,
              emitted (singleLineWordsLoop fops settings app
                         (getFontMetrics app (single_style_ this) (getScale c)) this
                         words currentText c0).2
              = emitted c0 ++ (Element <$> es)).
  { induction words as [|word words IH]; intros currentText c0; cbn [singleLineWordsLoop].
    - exists []. by rewrite app_nil_r.
    - destruct (parsedWordsLoop_elements settings app
                  (getFontMetrics app (single_style_ this) (getScale c)) this
                  (parse app (Word.text word)) currentText c0) as [es1 H1].
      destruct (parsedWordsLoop _ _ _ _ _ _ _ _) as [currentText' c1].
      destruct (IH currentText' c1) as [es2 H2].
      exists (es1 ++ es2). rewrite H2. cbn [snd] in H1. rewrite H1.
      by rewrite fmap_app, <- (assoc_L (++)). }
  destruct (Hwords (single_words_ this) [] (set_first c Neutral)) as [es Hes].
  destruct (singleLineWordsLoop _ _ _ _ _ _ _ _) as [currentText c1].
  cbn [snd emitted set_first] in Hes.
  destruct (negb (bool_decide (currentText = []))).
  - eexists (es ++ [_]). cbn [emitted breakLine addElementNoLineBreak].
    rewrite Hes, fmap_app. by rewrite <- !(assoc_L (++)).
  - exists es. cbn [emitted breakLine]. rewrite Hes. by rewrite <- !(assoc_L (++)).
Qed.

(** What the [break] after an emote that does not fit amounts to: the tokens
    of that word are left, and the next word is appended behind the ellipsis
    (here a word of plain text that still fits). *)
Lemma singleLineWordsLoop_after_emote_overflow (settings : Settings float)
    (app : Application float) (metrics : QFontMetrics) (this : SingleLineTextElement)
    (word1 word2 : Word.t) (words : list Word.t) (emote : EmotePtr float) (text : QString)
    (currentText : QString) (c : MessageLayoutContainer float) :
  let image := getImageOrLoaded (images (deref emote)) (getScale c) in
  let emoteSize := QSize_mul fops (QSize.mk (Image.width image) (Image.height image))
                     (f_mul fops (emoteScale settings) (getScale c)) in
  let appended := (currentText ++ ellipsis) ++ QStringLiteral " " ++ text in
  parse app (Word.text word1) = [ParsedEmote emote] ->
  Image.isEmpty image = false ->
  fitsInLine c (horizontalAdvance metrics currentText + QSize.width emoteSize) = false ->
  parse app (Word.text word2) = [ParsedText text] ->
  elidedText metrics appended (remainingWidth c) = appended ->
  singleLineWordsLoop fops settings app metrics this (word1 :: word2 :: words) currentText c
  = singleLineWordsLoop fops settings app metrics this words appended c.
Proof.
  intros image emoteSize appended Hword1 Himage Hfits Hword2 Helided.
  cbn [singleLineWordsLoop]. rewrite Hword1, Hword2. cbn [parsedWordsLoop].
  fold image. rewrite Himage. cbn [negb]. fold emoteSize. rewrite Hfits. cbn [negb].
  match goal with
  | |- context [@bool_decide ?P ?d] =>
      match P with
      | _ ++ ellipsis = _ =>
          assert (Hpending : @bool_decide P d = false)
            by (apply bool_decide_eq_false_2; by intros [_ ?]%app_eq_nil)
      end
  end.
  rewrite Hpending.
  rewrite <- (assoc_L (++) (currentText ++ ellipsis) (QStringLiteral " ") text).
  fold appended. rewrite Helided.
  by rewrite bool_decide_eq_false_2 by (by intros []).
Qed.

(** ** Bounding boxes *)

Lemma getBoundingBoxSize_fold (imgs : list ImagePtr) (w0 h0 : Z) :
  let r := foldl (fun '(width, height) img =>
                    (Z.max width (Image.width img), Z.max height (Image.height img)))
                 (w0, h0) imgs in
  (w0 <= r.1 /\ h0 <= r.2)
  /\ Forall (fun img => Image.width img <= r.1 /\ Image.height img <= r.2) imgs
  /\ (r.1 = w0 \/ exists img, img ∈ imgs /\ Image.width img = r.1)
  /\ (r.2 = h0 \/ exists img, img ∈ imgs /\ Image.height img = r.2).
Proof.
  revert w0 h0. induction imgs as [|img imgs IH]; intros w0 h0.
  { simpl. repeat split; auto; lia. }
  cbn [foldl].
  destruct (IH (Z.max w0 (Image.width img)) (Z.max h0 (Image.height img)))
    as ((Hw & Hh) & Hall & Hwa & Hha).
  cbn zeta. split; [lia|]. split.
  - constructor; [lia|done].
  - split.
    + destruct Hwa as [Hwa|(i & Hi & Hwa)].
      * destruct (Z.max_spec w0 (Image.width img)) as [[_ Hmax]|[_ Hmax]].
        -- right. exists img. split; [by left|lia].
        -- left. lia.
      * right. exists i. split; [by right|done].
    + destruct Hha as [Hha|(i & Hi & Hha)].
      * destruct (Z.max_spec h0 (Image.height img)) as [[_ Hmax]|[_ Hmax]].
        -- right. exists img. split; [by left|lia].
        -- left. lia.
      * right. exists i. split; [by right|done].
Qed.

(** X1. The bounding box of a list of images is at least as wide and as high
    as every image of the list; it is never negative; and each of its two
    dimensions is either 0 or the dimension of one of the images. *)
Theorem getBoundingBoxSize_bounds (imgs : list ImagePtr) :
  Forall (fun img => Image.width img <= QSize.width (getBoundingBoxSize imgs)
                     /\ Image.height img <= QSize.height (getBoundingBoxSize imgs)) imgs
  /\ 0 <= QSize.width (getBoundingBoxSize imgs)
  /\ 0 <= QSize.height (getBoundingBoxSize imgs)
  /\ (QSize.width (getBoundingBoxSize imgs) = 0
      \/ exists img, img ∈ imgs /\ Image.width img = QSize.width (getBoundingBoxSize imgs))
  /\ (QSize.height (getBoundingBoxSize imgs) = 0
      \/ exists img, img ∈ imgs /\ Image.height img = QSize.height (getBoundingBoxSize imgs)).
Proof.
  unfold getBoundingBoxSize.
  destruct (getBoundingBoxSize_fold imgs 0 0) as ((Hw & Hh) & Hall & Hwa & Hha).
  destruct (foldl _ _ imgs) as [w h]. cbn [fst snd QSize.width QSize.height] in *.
  done.
Qed.

(** ** Splitting a text into words *)

Lemma split_nonempty (sep : QChar) (s : QString) : split sep s <> [].
Proof. destruct s as [|c s]; simpl; [done|]. destruct (c =? sep); [done|]. by destruct (split sep s). Qed.

Lemma split_spaceJoined (s : QString) : spaceJoined (split 32 s) = s.
Proof.
  induction s as [|c s IH]; [done|]. cbn [split].
  destruct (c =? 32) eqn:Hc.
  - apply Z.eqb_eq in Hc. subst c.
    pose proof (split_nonempty 32 s) as Hne.
    destruct (split 32 s) as [|part parts]; [done|].
    change (spaceJoined ([] :: part :: parts))
      with ([] ++ QStringLiteral " " ++ spaceJoined (part :: parts)).
    by rewrite IH.
  - pose proof (split_nonempty 32 s) as Hne.
    destruct (split 32 s) as [|part parts]; [done|].
    rewrite spaceJoined_cons. rewrite spaceJoined_cons in IH.
    by rewrite <- IH.
Qed.

Lemma split_no_separator (sep : QChar) (s : QString) :
  Forall (fun part => sep ∉ part) (split sep s).
Proof.
  induction s as [|c s IH]; cbn [split].
  - repeat constructor. by intros ?%elem_of_nil.
  - destruct (c =? sep) eqn:Hc.
    + constructor; [by intros ?%elem_of_nil|done].
    + apply Z.eqb_neq in Hc.
      destruct (split sep s) as [|part parts].
      * repeat constructor. intros [?|Hin]%elem_of_cons; [congruence|by apply elem_of_nil in Hin].
      * inversion IH as [|? ? Hpart Hparts]; subst. constructor; [|done].
        intros [?|?]%elem_of_cons; [congruence|done].
Qed.

(** X2. The constructors of the two text classes cut the text at every space:
    no word contains a space, every word starts with the unmeasured width -1,
    there is at least one word, and the words joined by single spaces are the
    text again. *)
Theorem TextElement_new_round_trip (text : QString) (flags : MessageElementFlags)
    (color : MessageColor) (style : FontStyle) :
  let words := text_words_ (TextElement_new text flags color style) in
  single_words_ (SingleLineTextElement_new text flags color style) = words
  /\ words <> []
  /\ Forall (fun word => (32 ∉ Word.text word) /\ Word.width word = -1) words
  /\ spaceJoined (Word.text <$> words) = text.
Proof.
  cbn zeta. split; [done|]. split; [|split].
  - unfold TextElement_new. cbn [text_words_].
    pose proof (split_nonempty 32 text). by destruct (split 32 text).
  - unfold TextElement_new. cbn [text_words_].
    apply Forall_fmap. eapply Forall_impl; [apply split_no_separator|].
    intros part Hp. by split.
  - rewrite TextElement_new_words. apply split_spaceJoined.
Qed.

(** ** Text: measured widths and the make of the fragments *)

Lemma TextElement_addWords_measured (app : Application float) (metrics : QFontMetrics)
    (this : TextElement) (words : list Word.t) (c : MessageLayoutContainer float) :
  (TextElement_addWords app metrics this words c).1 = measured metrics <$> words.
Proof.
  revert c. induction words as [|word words IH]; intros c; [done|].
  cbn [TextElement_addWords].
  assert (Hword : (TextElement_addWord app metrics this c word).1 = measured metrics word).
  { unfold TextElement_addWord.
    repeat match goal with |- context [if ?b then _ else _] => destruct b end; done. }
  destruct (TextElement_addWord app metrics this c word) as [word' c1].
  specialize (IH c1).
  destruct (TextElement_addWords app metrics this words c1) as [words' c2].
  cbn [fst] in *. by rewrite Hword, IH.
Qed.

(** X3. Rendering a text element (under flags that meet its own) measures
    every word with the font of the element's style at the scale of the
    container and stores that width in the word; texts, colour, style and the
    base members stay.  Rendered again at the same scale, the element does not
    change any more. *)
Theorem TextElement_addToContainer_measures
    (app : Application float) (this : TextElement)
    (c c2 : MessageLayoutContainer float) (flags : MessageElementFlags) :
  hasAny flags (flags_ (text_base this)) = true ->
  getScale c2 = getScale c ->
  let metrics := getFontMetrics app (text_style_ this) (getScale c) in
  let rendered := (TextElement_addToContainer app this c flags).1 in
  text_words_ rendered = measured metrics <$> text_words_ this
  /\ text_base rendered = text_base this
  /\ text_color_ rendered = text_color_ this
  /\ text_style_ rendered = text_style_ this
  /\ (TextElement_addToContainer app rendered c2 flags).1 = rendered.
Proof.
  intros Hgate Hscale metrics rendered.
  assert (Hrendered : rendered
            = {| text_base := text_base this; text_color_ := text_color_ this;
                 text_style_ := text_style_ this;
                 text_words_ := measured metrics <$> text_words_ this |}).
  { subst rendered. unfold TextElement_addToContainer. rewrite Hgate.
    pose proof (TextElement_addWords_measured app metrics this (text_words_ this) c) as Hm.
    fold metrics. destruct (TextElement_addWords _ _ _ _ _) as [words c']. cbn [fst] in *.
    by rewrite Hm. }
  rewrite Hrendered. cbn [text_words_ text_base text_color_ text_style_].
  do 4 (split; [done|]).
  unfold TextElement_addToContainer. cbn [text_words_ text_base text_color_ text_style_].
  rewrite Hgate, Hscale. fold metrics.
  match goal with |- context [TextElement_addWords ?a ?m ?t ?w ?c0] =>
    pose proof (TextElement_addWords_measured a m t w c0) as Hm;
    destruct (TextElement_addWords a m t w c0) as [words c'] end.
  cbn [fst] in *. by rewrite Hm, <- list_fmap_compose.
Qed.

Section Fragments.

Context (app : Application float) (metrics : QFontMetrics) (this : TextElement).
Context (scale : float).

Lemma getTextLayoutElement_isTextFragment (c : MessageLayoutContainer float)
    (b : MessageElementBase) (color : MessageColor) (style : FontStyle)
    (text : QString) (width : Z) (space : bool) :
  scale_ c = scale ->
  isTextFragment app metrics scale b color style
    (getTextLayoutElement app metrics c b color style text width space)
  /\ le_trailingSpace (getTextLayoutElement app metrics c b color style text width space)
     = space.
Proof.
  intros <-. unfold isTextFragment, getTextLayoutElement, getScale.
  case_decide as Hurl.
  - by rewrite bool_decide_eq_true_2.
  - by rewrite bool_decide_eq_false_2.
Qed.

Lemma wrapLoop_fragments (text : QString) (fuel i wordStart : nat) (width : Z)
    (c : MessageLayoutContainer float) :
  scale_ c = scale ->
  exists new,
    emitted (wrapLoop app metrics this text fuel i wordStart width c).2 = emitted c ++ new
    /\ scale_ (wrapLoop app metrics this text fuel i wordStart width c).2 = scale
    /\ Forall (fragmentOf app metrics scale this) new.
Proof.
  revert i wordStart width c.
  induction fuel as [|fuel IH]; intros i wordStart width c Hscale.
  { exists []. simpl. by rewrite app_nil_r. }
  cbn [wrapLoop]. case_bool_decide as Hi; cycle 1.
  { exists []. simpl. by rewrite app_nil_r. }
  destruct (negb (fitsInLine c (width + charWidthAt metrics text i))); [|by apply IH].
  match goal with |- context [wrapLoop _ _ _ _ _ ?i' ?w' ?x' (breakLine (addElementNoLineBreak c ?e))] =>
    destruct (IH i' w' x' (breakLine (addElementNoLineBreak c e)) Hscale)
      as (new & Hemit & Hsc & Hall);
    exists (Element e :: LineBreak :: new)
  end.
  split; [|split; [done|]].
  - rewrite Hemit. cbn [emitted breakLine addElementNoLineBreak].
    by rewrite <- !(assoc_L (++)).
  - constructor; [|by constructor].
    by apply getTextLayoutElement_isTextFragment.
Qed.

Lemma TextElement_addWord_fragments (c : MessageLayoutContainer float) (word : Word.t) :
  scale_ c = scale ->
  exists new,
    emitted (TextElement_addWord app metrics this c word).2 = emitted c ++ new
    /\ scale_ (TextElement_addWord app metrics this c word).2 = scale
    /\ Forall (fragmentOf app metrics scale this) new.
Proof.
  intros Hscale.
  assert (Hwrap : forall c0 : MessageLayoutContainer float, scale_ c0 = scale ->
            exists new,
              emitted (wrapText app metrics this (Word.text word) c0) = emitted c0 ++ new
              /\ scale_ (wrapText app metrics this (Word.text word) c0) = scale
              /\ Forall (fragmentOf app metrics scale this) new).
  { intros c0 Hc0. unfold wrapText.
    destruct (wrapLoop_fragments (Word.text word) (length (Word.text word)) 0 0 0 c0 Hc0)
      as (new & Hemit & Hsc & Hall).
    destruct (wrapLoop _ _ _ _ _ _ _ _ _) as [[wordStart width] c1]. cbn [snd] in *.
    eexists (new ++ [Element _]). cbn [emitted addElementNoLineBreak scale_].
    split; [by rewrite Hemit, <- (assoc_L (++))|]. split; [done|].
    apply Forall_app. split; [done|]. constructor; [|constructor].
    by apply getTextLayoutElement_isTextFragment. }
  unfold TextElement_addWord. cbn [Word.text Word.width].
  destruct (fitsInLine c _).
  - eexists [Element _]. cbn [snd emitted addElementNoLineBreak scale_].
    split; [done|]. split; [done|]. constructor; [|constructor].
    by apply getTextLayoutElement_isTextFragment.
  - destruct (negb (atStartOfLine c)); [|by apply Hwrap].
    destruct (fitsInLine (breakLine c) _).
    + eexists [LineBreak; Element _]. cbn [snd emitted addElementNoLineBreak breakLine scale_].
      split; [by rewrite <- (assoc_L (++))|]. split; [done|].
      constructor; [done|]. constructor; [|constructor].
      by apply getTextLayoutElement_isTextFragment.
    + destruct (Hwrap (breakLine c) Hscale) as (new & Hemit & Hsc & Hall).
      exists (LineBreak :: new). cbn [snd]. split; [|split; [done|by constructor]].
      rewrite Hemit. cbn [emitted breakLine]. by rewrite <- (assoc_L (++)).
Qed.

Lemma TextElement_addWords_fragments (words : list Word.t) (c : MessageLayoutContainer float) :
  scale_ c = scale ->
  exists new,
    emitted (TextElement_addWords app metrics this words c).2 = emitted c ++ new
    /\ Forall (fragmentOf app metrics scale this) new.
Proof.
  revert c. induction words as [|word words IH]; intros c Hscale.
  { exists []. simpl. by rewrite app_nil_r. }
  cbn [TextElement_addWords].
  destruct (TextElement_addWord_fragments c word Hscale) as (new1 & Hemit1 & Hsc1 & Hall1).
  destruct (TextElement_addWord app metrics this c word) as [word' c1]. cbn [snd] in *.
  destruct (IH c1 Hsc1) as (new2 & Hemit2 & Hall2).
  destruct (TextElement_addWords app metrics this words c1) as [words' c2]. cbn [snd] in *.
  exists (new1 ++ new2). split; [|by apply Forall_app].
  by rewrite Hemit2, Hemit1, <- (assoc_L (++)).
Qed.

End Fragments.

(** X4. Whatever a text element emits, whole words or forced pieces, every
    layout element is a text element of the element's style at the scale of
    the container, in the element's colour normalised by the theme, as high
    as the font, and with the link of the element; it listens to link changes
    exactly when that link is a URL. *)
Theorem TextElement_fragments_carry_link (app : Application float) (this : TextElement)
    (c : MessageLayoutContainer float) (flags : MessageElementFlags) :
  exists new,
    emitted (TextElement_addToContainer app this c flags).2 = emitted c ++ new
    /\ Forall (fun e =>
                 isTextFragment app (getFontMetrics app (text_style_ this) (getScale c))
                   (getScale c) (text_base this) (text_color_ this) (text_style_ this) e)
              (elementsOf new).
Proof.
  unfold TextElement_addToContainer. destruct (hasAny _ _).
  - destruct (TextElement_addWords_fragments app
                (getFontMetrics app (text_style_ this) (getScale c)) this (getScale c)
                (text_words_ this) c eq_refl) as (new & Hemit & Hall).
    destruct (TextElement_addWords _ _ _ _ _) as [words c']. cbn [snd] in *.
    exists new. split; [done|].
    clear Hemit. induction Hall as [|[e|] new He _ IH]; [constructor| |done].
    unfold elementsOf. cbn [omap list_omap]. by constructor.
  - exists []. cbn [snd]. rewrite app_nil_r. split; [done|constructor].
Qed.

(** ** Single-line text: what is emitted *)

Lemma singleLinePiece_text (app : Application float) (metrics : QFontMetrics)
    (this : SingleLineTextElement) (c : MessageLayoutContainer float)
    (text : QString) (width : Z) :
  singleLinePiece app metrics (scale_ c) this
    (getTextLayoutElement app metrics c (single_base this) (single_color_ this)
       (single_style_ this) text width false).
Proof.
  destruct (getTextLayoutElement_isTextFragment app metrics (scale_ c) c (single_base this)
              (single_color_ this) (single_style_ this) text width false eq_refl)
    as [Hfrag Hspace].
  unfold singleLinePiece. pose proof Hfrag as (Hkind & Hlink & _).
  rewrite Hkind. done.
Qed.

Lemma parsedWordsLoop_pieces (settings : Settings float) (app : Application float)
    (metrics : QFontMetrics) (this : SingleLineTextElement) (scale : float)
    (parsedWords : list (ParsedWord float)) (currentText : QString)
    (c : MessageLayoutContainer float) :
  scale_ c = scale ->
  exists es,
    emitted (parsedWordsLoop fops settings app metrics this parsedWords currentText c).2
    = emitted c ++ (Element <$> es)
    /\ scale_ (parsedWordsLoop fops settings app metrics this parsedWords currentText c).2
       = scale
    /\ first (parsedWordsLoop fops settings app metrics this parsedWords currentText c).2
       = first c
    /\ Forall (singleLinePiece app metrics scale this) es.
Proof.
  revert currentText c.
  induction parsedWords as [|[emote|text] parsedWords IH]; intros currentText c Hscale;
    cbn [parsedWordsLoop].
  - exists []. simpl. by rewrite app_nil_r.
  - destruct (Image.isEmpty _) eqn:Himage; cbn [negb]; [by apply IH|].
    destruct (negb (fitsInLine _ _)).
    { exists []. simpl. by rewrite app_nil_r. }
    match goal with |- context [parsedWordsLoop _ _ _ _ _ _ ?t
                                  (addElementNoLineBreak (addElementNoLineBreak c ?e1) ?e2)] =>
      destruct (IH t (addElementNoLineBreak (addElementNoLineBreak c e1) e2) Hscale)
        as (es & Hemit & Hsc & Hfirst & Hall);
      exists (e1 :: e2 :: es)
    end.
    split; [|split; [done|split; [done|]]].
    + rewrite Hemit. cbn [emitted addElementNoLineBreak]. by rewrite <- !(assoc_L (++)).
    + subst scale. constructor; [apply singleLinePiece_text|]. constructor; [|done].
      unfold singleLinePiece. by cbn.
  - cbn zeta. case_bool_decide; [|by apply IH].
    exists []. simpl. by rewrite app_nil_r.
Qed.

Lemma singleLineWordsLoop_pieces (settings : Settings float) (app : Application float)
    (metrics : QFontMetrics) (this : SingleLineTextElement) (scale : float)
    (words : list Word.t) (currentText : QString) (c : MessageLayoutContainer float) :
  scale_ c = scale ->
  exists es,
    emitted (singleLineWordsLoop fops settings app metrics this words currentText c).2
    = emitted c ++ (Element <$> es)
    /\ scale_ (singleLineWordsLoop fops settings app metrics this words currentText c).2
       = scale
    /\ first (singleLineWordsLoop fops settings app metrics this words currentText c).2
       = first c
    /\ Forall (singleLinePiece app metrics scale this) es.
Proof.
  revert currentText c. induction words as [|word words IH]; intros currentText c Hscale;
    cbn [singleLineWordsLoop].
  { exists []. simpl. by rewrite app_nil_r. }
  destruct (parsedWordsLoop_pieces settings app metrics this scale
              (parse app (Word.text word)) currentText c Hscale)
    as (es1 & Hemit1 & Hsc1 & Hfirst1 & Hall1).
  destruct (parsedWordsLoop _ _ _ _ _ _ _ _) as [currentText' c1]. cbn [snd] in *.
  destruct (IH currentText' c1 Hsc1) as (es2 & Hemit2 & Hsc2 & Hfirst2 & Hall2).
  exists (es1 ++ es2). split; [|split; [done|split; [congruence|by apply Forall_app]]].
  by rewrite Hemit2, Hemit1, fmap_app, <- (assoc_L (++)).
Qed.

(** X5. A single-line text element rendered under flags that meet its own
    emits layout elements and then exactly one line break, which comes last,
    so that the container is left at the start of a line; the container's
    [first] is set to [Neutral].  Every layout element carries the link of the
    element and is either a text fragment of the element without a trailing
    space or the image of an emote that is not the empty image. *)
Theorem SingleLineTextElement_emits_one_line (settings : Settings float)
    (app : Application float) (this : SingleLineTextElement)
    (c : MessageLayoutContainer float) (flags : MessageElementFlags) :
  hasAny flags (flags_ (single_base this)) = true ->
  exists es,
    emitted (SingleLineTextElement_addToContainer fops settings app this c flags)
    = emitted c ++ (Element <$> es) ++ [LineBreak]
    /\ first (SingleLineTextElement_addToContainer fops settings app this c flags) = Neutral
    /\ atStartOfLine (SingleLineTextElement_addToContainer fops settings app this c flags)
       = true
    /\ currentX_ (SingleLineTextElement_addToContainer fops settings app this c flags) = 0
    /\ Forall (singleLinePiece app (getFontMetrics app (single_style_ this) (getScale c))
                 (getScale c) this) es.
Proof.
  intros Hgate. unfold SingleLineTextElement_addToContainer. rewrite Hgate.
  destruct (singleLineWordsLoop_pieces settings app
              (getFontMetrics app (single_style_ this) (getScale c)) this (getScale c)
              (single_words_ this) [] (set_first c Neutral) eq_refl)
    as (es & Hemit & Hsc & Hfirst & Hall).
  destruct (singleLineWordsLoop _ _ _ _ _ _ _ _) as [currentText c1].
  cbn [snd emitted set_first first] in *.
  destruct (negb (bool_decide (currentText = []))).
  - eexists (es ++ [_]).
    unfold atStartOfLine. cbn [emitted breakLine addElementNoLineBreak first currentX_].
    rewrite last_snoc, Hemit, fmap_app, <- !(assoc_L (++)).
    split; [done|]. split; [done|]. split; [done|]. split; [done|].
    apply Forall_app. split; [done|]. constructor; [|constructor].
    rewrite <- Hsc. apply singleLinePiece_text.
  - exists es. unfold atStartOfLine. cbn [emitted breakLine first currentX_].
    rewrite last_snoc, Hemit, <- !(assoc_L (++)). done.
Qed.

(** ** Single-line text without emotes and without elision *)

Lemma pendingText_spaceJoined (parts : list QString) :
  exists k, spaceJoined parts = replicate k 32 ++ pendingText parts.
Proof.
  assert (Hfull : forall (ps : list QString) (cur : QString), cur <> [] ->
            foldl pendingStep cur ps
            = cur ++ concat ((fun p => QStringLiteral " " ++ p) <$> ps)).
  { induction ps as [|p ps IH]; intros cur Hcur; [by rewrite app_nil_r|].
    cbn [foldl]. unfold pendingStep at 2.
    rewrite bool_decide_eq_false_2 by done.
    rewrite IH by (by destruct cur). rewrite fmap_cons, concat_cons.
    by rewrite <- !(assoc_L (++)). }
  induction parts as [|p ps IH]; [by exists 0%nat|].
  unfold pendingText. cbn [foldl]. unfold pendingStep at 2.
  rewrite bool_decide_eq_true_2 by done. rewrite app_nil_l.
  destruct p as [|ch p].
  - destruct IH as [k IH]. destruct ps as [|p' ps]; [by exists 0%nat|].
    exists (S k).
    change (spaceJoined ([] :: p' :: ps))
      with ([] ++ QStringLiteral " " ++ spaceJoined (p' :: ps)).
    by rewrite IH.
  - exists 0%nat. rewrite Hfull by done. apply spaceJoined_cons.
Qed.

Lemma trimmed_left_spaces (k : nat) (s : QString) :
  trimmed_left (replicate k 32 ++ s) = trimmed_left s.
Proof. induction k as [|k IH]; [done|]. simpl. apply IH. Qed.

Lemma singleLineWordsLoop_plain (settings : Settings float) (app : Application float)
    (metrics : QFontMetrics) (this : SingleLineTextElement) (words : list Word.t)
    (currentText : QString) (c : MessageLayoutContainer float) :
  Forall (fun word => parse app (Word.text word) = [ParsedText (Word.text word)]) words ->
  Forall (fun text => elidedText metrics text (remainingWidth c) = text)
         (pendingTexts currentText (Word.text <$> words)) ->
  singleLineWordsLoop fops settings app metrics this words currentText c
  = (foldl pendingStep currentText (Word.text <$> words), c).
Proof.
  revert currentText. induction words as [|word words IH]; intros currentText Hplain Hfits;
    [done|].
  inversion Hplain as [|? ? Hword Hwords]; subst.
  rewrite fmap_cons in Hfits. cbn [pendingTexts] in Hfits.
  inversion Hfits as [|? ? Hfit Hfits']; subst.
  cbn [singleLineWordsLoop]. rewrite Hword. cbn [parsedWordsLoop].
  match goal with |- context [elidedText metrics ?text (remainingWidth c)] =>
    change text with (pendingStep currentText (Word.text word)) end.
  rewrite Hfit. rewrite bool_decide_eq_false_2 by (by intros []).
  rewrite IH by done. by rewrite fmap_cons.
Qed.

(** X6. A single-line text element whose words hold no emote and whose
    pending text is never cut by the elision emits, under flags that meet its
    own, its pending text with the white space trimmed off, as one fragment
    without a trailing space (nothing when no text is pending), and then the
    line break.  The trimmed pending text is the trimmed text of the words
    joined by single spaces. *)
Theorem SingleLineTextElement_plain_text (settings : Settings float)
    (app : Application float) (this : SingleLineTextElement)
    (c : MessageLayoutContainer float) (flags : MessageElementFlags) :
  hasAny flags (flags_ (single_base this)) = true ->
  Forall (fun word => parse app (Word.text word) = [ParsedText (Word.text word)])
         (single_words_ this) ->
  Forall (fun text =>
            elidedText (getFontMetrics app (single_style_ this) (getScale c)) text
              (remainingWidth c) = text)
         (pendingTexts [] (Word.text <$> single_words_ this)) ->
  emitted (SingleLineTextElement_addToContainer fops settings app this c flags)
  = emitted c
    ++ (if bool_decide (pendingText (Word.text <$> single_words_ this) = []) then []
        else [Element
                (getTextLayoutElement app
                   (getFontMetrics app (single_style_ this) (getScale c)) c
                   (single_base this) (single_color_ this) (single_style_ this)
                   (trimmed (pendingText (Word.text <$> single_words_ this)))
                   (horizontalAdvance (getFontMetrics app (single_style_ this) (getScale c))
                      (trimmed (pendingText (Word.text <$> single_words_ this))))
                   false)])
    ++ [LineBreak]
  /\ trimmed (pendingText (Word.text <$> single_words_ this))
     = trimmed (spaceJoined (Word.text <$> single_words_ this)).
Proof.
  intros Hgate Hplain Hfits. split.
  - unfold SingleLineTextElement_addToContainer. rewrite Hgate.
    rewrite (singleLineWordsLoop_plain settings app _ this (single_words_ this) []
               (set_first c Neutral) Hplain Hfits).
    fold (pendingText (Word.text <$> single_words_ this)).
    destruct (bool_decide (pendingText (Word.text <$> single_words_ this) = []));
      cbn [negb emitted breakLine addElementNoLineBreak set_first].
    + by rewrite app_nil_l.
    + by rewrite <- (assoc_L (++)).
  - destruct (pendingText_spaceJoined (Word.text <$> single_words_ this)) as [k Hk].
    unfold trimmed. by rewrite Hk, trimmed_left_spaces.
Qed.

(** ** Moderation buttons *)

Lemma elementsOf_app (ps qs : list (Primitive float)) :
  elementsOf (ps ++ qs) = elementsOf ps ++ elementsOf qs.
Proof. unfold elementsOf. apply omap_app. Qed.

Lemma addElement_emits (c : MessageLayoutContainer float) (e : MessageLayoutElement float) :
  exists new,
    emitted (addElement c e) = emitted c ++ new
    /\ elementsOf new = [e]
    /\ scale_ (addElement c e) = scale_ c.
Proof.
  unfold addElement. destruct (fitsInLine _ _).
  - by exists [Element e].
  - exists [LineBreak; Element e]. cbn [emitted addElementNoLineBreak breakLine].
    by rewrite <- (assoc_L (++)).
Qed.

Lemma addElement_getScale (c : MessageLayoutContainer float)
    (e : MessageLayoutElement float) :
  getScale (addElement c e) = getScale c.
Proof. unfold addElement. by destruct (fitsInLine _ _). Qed.

Lemma moderationButtons_loop (size : QSize.t) (actions : list ModerationAction.t)
    (c : MessageLayoutContainer float) :
  exists new,
    emitted
      (foldl
         (fun container action =>
            match ModerationAction.getImage action with
            | Some image =>
                addElement container
                  (le_setLink (ImageLayoutElement image size)
                     (Link.mk Link.UserAction (ModerationAction.getAction action)))
            | Datatypes.None =>
                addElement container
                  (le_setLink
                     (TextIconLayoutElement (ModerationAction.getLine1 action)
                        (ModerationAction.getLine2 action) (getScale container) size)
                     (Link.mk Link.UserAction (ModerationAction.getAction action)))
            end)
         c actions)
    = emitted c ++ new
    /\ Forall2
         (fun action e =>
            le_link e = Link.mk Link.UserAction (ModerationAction.getAction action)
            /\ rect_size e = size
            /\ kind e
               = match ModerationAction.getImage action with
                 | Some image => KImage image
                 | Datatypes.None =>
                     KTextIcon (ModerationAction.getLine1 action)
                       (ModerationAction.getLine2 action) (getScale c)
                 end)
         actions (elementsOf new).
Proof.
  revert c. induction actions as [|action actions IH]; intros c.
  { exists []. cbn [foldl]. rewrite app_nil_r. split; [done|constructor]. }
  cbn [foldl].
  match goal with |- context [foldl ?f ?step actions] =>
    destruct (IH step) as (new2 & Hemit2 & Hall2)
  end.
  destruct (ModerationAction.getImage action) as [image|] eqn:Himage.
  - rewrite addElement_getScale in Hall2.
    match type of Hemit2 with context [addElement c ?e] =>
      destruct (addElement_emits c e) as (new1 & Hemit1 & Hel1 & _) end.
    exists (new1 ++ new2). split.
    + rewrite Hemit2, Hemit1. by rewrite <- (assoc_L (++)).
    + rewrite elementsOf_app, Hel1. constructor; [|done]. by rewrite Himage.
  - rewrite addElement_getScale in Hall2.
    match type of Hemit2 with context [addElement c ?e] =>
      destruct (addElement_emits c e) as (new1 & Hemit1 & Hel1 & _) end.
    exists (new1 ++ new2). split.
    + rewrite Hemit2, Hemit1. by rewrite <- (assoc_L (++)).
    + rewrite elementsOf_app, Hel1. constructor; [|done]. by rewrite Himage.
Qed.

(** X7. A moderation element rendered under the flag [ModeratorTools] emits
    one button for every configured moderation action, in the order of the
    configuration and without leaving out repeated actions: an image for an
    action that has one, a text icon of its two lines otherwise, each with
    the action as a user-action link.  Without the flag it emits nothing. *)
Theorem TwitchModerationElement_one_button_per_action (settings : Settings float)
    (b : MessageElementBase) (c : MessageLayoutContainer float)
    (flags : MessageElementFlags) :
  exists new,
    emitted (TwitchModerationElement_addToContainer fops Flag settings b c flags)
    = emitted c ++ new
    /\ if has flags (ModeratorTools Flag)
       then Forall2 (isModerationButton fops (getScale c))
              (moderationActions settings) (elementsOf new)
       else new = [].
Proof.
  unfold TwitchModerationElement_addToContainer.
  destruct (has flags (ModeratorTools Flag)); [|exists []; by rewrite app_nil_r].
  match goal with |- context [foldl _ c ?actions] =>
    match goal with |- context [ImageLayoutElement _ ?size] =>
      destruct (moderationButtons_loop size actions c) as (new & Hemit & Hall)
    end
  end.
  exists new. split; [exact Hemit|]. exact Hall.
Qed.

(** ** Timestamps: the first render *)

Lemma TimestampElement_unrendered (settings0 settings : Settings float)
    (app : Application float) (this : TimestampElement)
    (c : MessageLayoutContainer float) (flags : MessageElementFlags) :
  format_ this = [] ->
  element_ this = formatTime Flag settings0 app (time_ this) ->
  hasAny flags (flags_ (timestamp_base this)) = true ->
  let rendered := TimestampElement_addToContainer Flag settings app this c flags in
  format_ rendered.1 = timestampFormat settings
  /\ (element_ rendered.1, rendered.2)
     = TextElement_addToContainer app
         (formatTime Flag
            (if bool_decide (timestampFormat settings = []) then settings0 else settings)
            app (time_ this))
         c flags.
Proof.
  intros Hformat Helement Hgate rendered. subst rendered.
  rewrite TimestampElement_addToContainer_rendered by done.
  cbn [fst snd format_ element_]. split; [apply TimestampElement_refresh_format|].
  unfold TimestampElement_refresh. rewrite Hformat.
  case_bool_decide as Hne.
  - rewrite bool_decide_eq_false_2 by done. cbn [element_].
    symmetry. apply surjective_pairing.
  - rewrite bool_decide_eq_true_2 by (by destruct (timestampFormat settings)).
    rewrite Helement. symmetry. apply surjective_pairing.
Qed.

(** X8. The first render of a timestamp element, whether it was constructed
    or cloned while the settings were [settings0]: when the timestamp format
    of the settings at render time is not empty, the time is formatted with
    it and that text is rendered; when it is empty, it equals the initial
    cache key, nothing is formatted, and the text made by the constructor
    with the format of [settings0] is rendered.  Either way the cache key is
    the format at render time afterwards. *)
Theorem TimestampElement_first_render (settings0 settings : Settings float)
    (app : Application float) (time : QTime) (original : TimestampElement)
    (c : MessageLayoutContainer float) (flags : MessageElementFlags) :
  hasAny flags (Timestamp Flag) = true ->
  hasAny flags (flags_ (timestamp_base original)) = true ->
  let shown :=
    fun time =>
      formatTime Flag
        (if bool_decide (timestampFormat settings = []) then settings0 else settings)
        app time in
  let constructed :=
    TimestampElement_addToContainer Flag settings app
      (TimestampElement_new Flag settings0 app time) c flags in
  let cloned :=
    TimestampElement_addToContainer Flag settings app
      (TimestampElement_clone Flag settings0 app original) c flags in
  (format_ constructed.1 = timestampFormat settings
   /\ (element_ constructed.1, constructed.2)
      = TextElement_addToContainer app (shown time) c flags)
  /\ (format_ cloned.1 = timestampFormat settings
      /\ (element_ cloned.1, cloned.2)
         = TextElement_addToContainer app (shown (time_ original)) c flags).
Proof.
  intros Hstamp Hown shown constructed cloned. split.
  - by apply (TimestampElement_unrendered settings0 settings app
                (TimestampElement_new Flag settings0 app time)).
  - by apply (TimestampElement_unrendered settings0 settings app
                (TimestampElement_clone Flag settings0 app original)).
Qed.

(** ** Cloning *)

Lemma updateTooltips_emotes (this : LayeredEmoteElement float) :
  emotes_ (updateTooltips Flag this) = emotes_ this.
Proof. unfold updateTooltips. by destruct (emotes_ this) eqn:Hlayers. Qed.

Lemma TextElement_clone_again (this : TextElement) :
  TextElement_clone (TextElement_clone this) = TextElement_clone this.
Proof. done. Qed.

(** X9. [clone()] does not copy the trailing space: the copy has the
    trailing space of a newly constructed element, whatever the original's
    is, and two elements that differ in their trailing space only have the
    same copy.  A copy of a copy is the copy. *)
Theorem clone_resets_trailing_space (settings : Settings float) (app : Application float)
    (el : MessageElement float) (value : bool) :
  hasTrailingSpace (clone Flag settings app el)
  = trailingSpace (MessageElement_new (getFlags el))
  /\ clone Flag settings app (setTrailingSpace el value) = clone Flag settings app el
  /\ clone Flag settings app (clone Flag settings app el) = clone Flag settings app el.
Proof.
  assert (Hlayers : forall e : LayeredEmoteElement float,
            emotes_ (LayeredEmoteElement_clone Flag e) = emotes_ e).
  { intros e. unfold LayeredEmoteElement_clone, LayeredEmoteElement_new, getEmotes.
    cbn [emotes_]. by rewrite updateTooltips_emotes. }
  refine (conj _ (conj _ _)).
  - destruct el as [b|b i|b i p bg|e|e|e|e|e|e|b|b|b i|b]; try done.
    unfold hasTrailingSpace. cbn. by destruct (getEmotes e).
  - by destruct el.
  - destruct el as [b|b i|b i p bg|e|e|e|e|e|e|b|b|b i|b]; try done.
    + cbn [clone]. f_equal. unfold EmoteElement_clone. cbn.
      by destruct (emote_textElement_ e).
    + cbn [clone]. f_equal. unfold LayeredEmoteElement_clone at 1 3.
      unfold getEmotes. rewrite Hlayers.
      unfold LayeredEmoteElement_clone, LayeredEmoteElement_new, updateTooltips, getEmotes.
      cbn. by destruct (emotes_ e) eqn:Hemotes.
Qed.

(** ** Layered emotes: layers added one by one *)

Lemma copy_if_NotDuplicate_snoc (layers : list (LayeredEmote float)) (seen : gset positive)
    (layer : LayeredEmote float) :
  copy_if NotDuplicate seen (layers ++ [layer])
  = copy_if NotDuplicate seen layers
    ++ (if bool_decide (identity layer ∈ identity <$> layers \/ identity layer ∈ seen)
        then [] else [layer]).
Proof.
  revert seen. induction layers as [|layer' layers IH]; intros seen.
  - cbn [app copy_if NotDuplicate fmap list_fmap]. fold (identity layer).
    case_bool_decide as Hseen.
    + rewrite bool_decide_eq_false_2; [done|]. rewrite elem_of_nil. tauto.
    + rewrite bool_decide_eq_true_2; [done|]. by right.
  - rewrite <- app_comm_cons. cbn [copy_if NotDuplicate]. rewrite IH.
    fold (identity layer').
    assert (Hsame :
      bool_decide (identity layer ∈ identity <$> layers
                   \/ identity layer ∈ {[identity layer']} ∪ seen)
      = bool_decide (identity layer ∈ identity <$> layer' :: layers
                     \/ identity layer ∈ seen)).
    { apply bool_decide_ext.
      rewrite fmap_cons, elem_of_cons, elem_of_union, elem_of_singleton. tauto. }
    rewrite Hsame. by destruct (bool_decide (identity layer' ∉ seen)).
Qed.

(** X10. Adding a layer to a layered emote adds it to the unique emotes, at
    the end, exactly when no layer before it has its emote; the unique emotes
    of the layers that were there stay as they are. *)
Theorem getUniqueEmotes_addEmoteLayer (this : LayeredEmoteElement float)
    (emote : LayeredEmote float) :
  getUniqueEmotes (addEmoteLayer Flag this emote)
  = getUniqueEmotes this
    ++ (if bool_decide (identity emote ∈ identity <$> emotes_ this) then [] else [emote]).
Proof.
  unfold getUniqueEmotes, addEmoteLayer. rewrite updateTooltips_emotes.
  cbn [emotes_]. rewrite copy_if_NotDuplicate_snoc. f_equal.
  rewrite (bool_decide_ext _ (identity emote ∈ identity <$> emotes_ this)); [done|].
  rewrite elem_of_empty. tauto.
Qed.

Lemma copy_if_NotDuplicate_NoDup (layers : list (LayeredEmote float)) (seen : gset positive) :
  NoDup (identity <$> layers) ->
  (forall p, p ∈ identity <$> layers -> p ∉ seen) ->
  copy_if NotDuplicate seen layers = layers.
Proof.
  revert seen. induction layers as [|layer layers IH]; intros seen Hnodup Hseen; [done|].
  rewrite fmap_cons in Hnodup, Hseen. apply NoDup_cons in Hnodup as [Hhead Hnodup].
  cbn [copy_if NotDuplicate]. fold (identity layer).
  rewrite bool_decide_eq_true_2 by (apply Hseen; left).
  f_equal. apply IH; [done|].
  intros p Hp. rewrite not_elem_of_union, elem_of_singleton. split.
  - by intros ->.
  - apply Hseen. by right.
Qed.

(** X11. The unique emotes of a layered emote whose layers have pairwise
    different emotes are all its layers; [getUniqueEmotes] applied to its own
    result (as the layers of a new element) changes nothing. *)
Theorem getUniqueEmotes_without_duplicates (this : LayeredEmoteElement float)
    (flags : MessageElementFlags) (color : MessageColor) :
  (NoDup (identity <$> emotes_ this) -> getUniqueEmotes this = emotes_ this)
  /\ getUniqueEmotes (LayeredEmoteElement_new Flag (getUniqueEmotes this) flags color)
     = getUniqueEmotes this.
Proof.
  assert (Hid : forall layers : list (LayeredEmote float),
            NoDup (identity <$> layers) -> copy_if NotDuplicate ∅ layers = layers).
  { intros layers Hnodup. apply copy_if_NotDuplicate_NoDup; [done|].
    intros p _. apply not_elem_of_empty. }
  split; [apply Hid|].
  unfold getUniqueEmotes at 1, LayeredEmoteElement_new. rewrite updateTooltips_emotes.
  cbn [emotes_]. apply Hid, NotDuplicate_NoDup.
Qed.

(** ** Layered emotes: the clean copy string *)

Lemma getCleanCopyString_loop_later (clean : QString -> QString)
    (layers : list (LayeredEmote float)) (i : nat) (result : QString) :
  getCleanCopyString_loop clean layers (S i) result
  = result
    ++ concat ((fun layer => QStringLiteral " " ++ clean (getCopyString (deref (ptr layer))))
               <$> layers).
Proof.
  revert i result. induction layers as [|layer layers IH]; intros i result.
  - by rewrite app_nil_r.
  - cbn [getCleanCopyString_loop Nat.eqb]. rewrite IH, fmap_cons, concat_cons.
    by rewrite <- !(assoc_L (++)).
Qed.

(** X12. The clean copy string of a layered emote is the copy strings of its
    layers, each cleaned on its own, joined by single spaces in layer order;
    with a clean-up that changes nothing it is the copy string. *)
Theorem LayeredEmoteElement_getCleanCopyString_joined
    (cleanUpEmoteCode : QString -> QString) (this : LayeredEmoteElement float) :
  LayeredEmoteElement_getCleanCopyString cleanUpEmoteCode this
  = spaceJoined
      ((fun layer => cleanUpEmoteCode (getCopyString (deref (ptr layer)))) <$> emotes_ this)
  /\ LayeredEmoteElement_getCleanCopyString (fun code => code) this
     = LayeredEmoteElement_getCopyString this.
Proof.
  assert (Hjoined : forall clean : QString -> QString,
            LayeredEmoteElement_getCleanCopyString clean this
            = spaceJoined
                ((fun layer => clean (getCopyString (deref (ptr layer)))) <$> emotes_ this)).
  { intros clean. unfold LayeredEmoteElement_getCleanCopyString.
    destruct (emotes_ this) as [|layer layers]; [done|].
    cbn [getCleanCopyString_loop Nat.eqb]. rewrite getCleanCopyString_loop_later.
    rewrite fmap_cons, spaceJoined_cons, app_nil_l. f_equal.
    by rewrite <- list_fmap_compose. }
  split; [apply Hjoined|].
  rewrite Hjoined. symmetry. apply getCopyString_spaceJoined.
Qed.

(** ** Emotes: the fallback text and the image *)

Lemma TextElement_addToContainer_fragments_say (app : Application float) (this : TextElement)
    (c : MessageLayoutContainer float) (flags : MessageElementFlags) :
  hasAny flags (flags_ (text_base this)) = true ->
  exists new,
    emitted (TextElement_addToContainer app this c flags).2 = emitted c ++ new
    /\ emittedText new = concat (Word.text <$> text_words_ this)
    /\ Forall (fun e =>
                 isTextFragment app (getFontMetrics app (text_style_ this) (getScale c))
                   (getScale c) (text_base this) (text_color_ this) (text_style_ this) e)
              (elementsOf new).
Proof.
  intros Hgate.
  destruct (TextElement_addToContainer_says app this c flags Hgate) as (new & Hemit & Hsays).
  exists new. do 2 (split; [done|]).
  revert Hemit. unfold TextElement_addToContainer. rewrite Hgate.
  destruct (TextElement_addWords_fragments app
              (getFontMetrics app (text_style_ this) (getScale c)) this (getScale c)
              (text_words_ this) c eq_refl) as (new' & Hemit' & Hall).
  destruct (TextElement_addWords _ _ _ _ _) as [words c']. cbn [snd] in *.
  rewrite Hemit'. intros Hsame. apply app_inv_head in Hsame. subst new'.
  clear Hemit' Hsays. induction Hall as [|[e|] new He _ IH]; [constructor| |done].
  unfold elementsOf. cbn [omap list_omap]. by constructor.
Qed.

(** X13. An emote element and a layered emote element (with a layer at
    least), rendered under flags that meet their own but ask for no emote
    image, emit their fallback text: the copy string of the emote, for the
    layered emote the copy strings of the layers joined by spaces, split at
    the spaces into words.  The text is laid out by the inner text element,
    which is rendered under the flag [Misc]: the fragments have the text
    colour given to the constructor and the style of the inner element, and
    their link is the link of a newly constructed element, whatever link the
    emote element was given. *)
Theorem emote_fallback_text (settings : Settings float) (app : Application float)
    (emote : EmotePtr float) (layer : LayeredEmote float) (layers : list (LayeredEmote float))
    (own : MessageElementFlags) (color : MessageColor) (link : Link.t)
    (c : MessageLayoutContainer float) (flags : MessageElementFlags) :
  hasAny flags own = true ->
  has flags (EmoteImages Flag) = false ->
  hasAny (Misc Flag) (Misc Flag) = true ->
  let fallback :=
    fun (el : MessageElement float) (textElement : option TextElement) (text : QString) =>
      exists inner new,
        textElement = Some inner
        /\ emitted (addToContainer fops Flag settings app (setLink el link) c flags).2
           = emitted c ++ new
        /\ emittedText new = concat (split 32 text)
        /\ Forall (fun e =>
                     isTextFragment app
                       (getFontMetrics app (text_style_ inner) (getScale c))
                       (getScale c) (MessageElement_new (Misc Flag)) color
                       (text_style_ inner) e)
                  (elementsOf new) in
  fallback (EmoteE (EmoteElement_new Flag emote own color))
    (emote_textElement_ (EmoteElement_new Flag emote own color))
    (getCopyString (deref emote))
  /\ fallback (LayeredEmoteE (LayeredEmoteElement_new Flag (layer :: layers) own color))
       (layered_textElement_ (LayeredEmoteElement_new Flag (layer :: layers) own color))
       (spaceJoined
          ((fun layer => getCopyString (deref (ptr layer))) <$> layer :: layers)).
Proof.
  intros Hown Himages Hmisc fallback. subst fallback. cbv beta. split.
  - destruct (TextElement_addToContainer_fragments_say app
                (TextElement_new (getCopyString (deref emote)) (Misc Flag) color ChatMedium)
                c (Misc Flag) Hmisc) as (new & Hemit & Hsays & Hall).
    eexists _, new. rewrite TextElement_new_words in Hsays.
    refine (conj eq_refl (conj _ (conj Hsays Hall))).
    cbn [setLink with_base base addToContainer EmoteElement_new emote_base emote_
         emote_textElement_].
    unfold EmoteElement_addToContainer.
    cbn [emote_base emote_ emote_textElement_ Base_setLink Base_setTooltip
         MessageElement_new flags_].
    rewrite Hown, Himages.
    by destruct (TextElement_addToContainer _ _ _ _).
  - pose proof (getCopyString_spaceJoined
                  {| layered_base := MessageElement_new own;
                     emotes_ := layer :: layers;
                     emoteTooltips_ := [];
                     layered_textElement_ := Datatypes.None;
                     textElementColor_ := color |}) as Hcopy.
    cbn [emotes_] in Hcopy. rewrite <- Hcopy.
    match goal with |- context [concat (split 32 ?text)] =>
      destruct (TextElement_addToContainer_fragments_say app
                  (TextElement_new text (Misc Flag) color ChatMedium)
                  c (Misc Flag) Hmisc) as (new & Hemit & Hsays & Hall)
    end.
    eexists _, new. rewrite TextElement_new_words in Hsays.
    refine (conj eq_refl (conj _ (conj Hsays Hall))).
    cbn [setLink with_base base addToContainer LayeredEmoteElement_new updateTooltips
         emotes_ layered_base layered_textElement_ textElementColor_ emoteTooltips_].
    unfold LayeredEmoteElement_addToContainer.
    cbn [emotes_ layered_base layered_textElement_ textElementColor_ emoteTooltips_
         Base_setLink Base_setTooltip MessageElement_new flags_].
    rewrite Hown, Himages.
    by destruct (TextElement_addToContainer _ _ _ _).
Qed.

(** X14. An element that has an image to show (an image or circular image,
    or an emote, layered emote, badge or scaling image whose image at the
    scale of the container is not missing), rendered under flags that meet
    its own and ask for the image, stays as it is and emits exactly one
    layout element: it draws the images of the element, for a layered emote
    the loaded images of its layers, and carries the link of the element. *)
Theorem addToContainer_shows_loaded_image
    (settings : Settings float) (app : Application float)
    (el : MessageElement float) (c : MessageLayoutContainer float)
    (flags : MessageElementFlags) :
  hasAny flags (getFlags el) = true ->
  asksForImage Flag el flags = true ->
  imageMissing el (getScale c) = false ->
  elementImages el (getScale c) <> [] ->
  (addToContainer fops Flag settings app el c flags).1 = el
  /\ exists new e,
       emitted (addToContainer fops Flag settings app el c flags).2 = emitted c ++ new
       /\ elementsOf new = [e]
       /\ shownImages e = elementImages el (getScale c)
       /\ le_link e = getLink el.
Proof.
  intros Hgate Hasks Hloaded Himages.
  destruct el as [b|b i|b i p bg|e|e|e|e|e|e|b|b|b i|b];
    cbn [elementImages] in Himages; try done;
    unfold getFlags, getLink in *; cbn [imageMissing asksForImage base] in *;
    cbn [addToContainer elementImages].
  - unfold ImageElement_addToContainer. rewrite Hgate. split; [done|].
    match goal with |- context [addElement c ?e] =>
      destruct (addElement_emits c e) as (new & Hemit & Hel & _); by exists new, e end.
  - unfold CircularImageElement_addToContainer. rewrite Hgate. split; [done|].
    match goal with |- context [addElement c ?e] =>
      destruct (addElement_emits c e) as (new & Hemit & Hel & _); by exists new, e end.
  - unfold EmoteElement_addToContainer. rewrite Hgate, Hasks, Hloaded. split; [done|].
    cbn [snd].
    match goal with |- context [addElement c ?e] =>
      destruct (addElement_emits c e) as (new & Hemit & Hel & _); by exists new, e end.
  - unfold LayeredEmoteElement_addToContainer. rewrite Hgate, Hasks.
    destruct (getLoadedImages e (getScale c)) as [|image images] eqn:Himgs; [done|].
    split; [done|]. cbn [snd].
    match goal with |- context [addElement c ?e] =>
      destruct (addElement_emits c e) as (new & Hemit & Hel & _); by exists new, e end.
  - unfold BadgeElement_addToContainer. rewrite Hgate, Hloaded. split; [done|].
    cbn [snd].
    match goal with |- context [addElement c ?e] =>
      destruct (addElement_emits c e) as (new & Hemit & Hel & _); exists new, e end.
    do 2 (split; [done|]). unfold BadgeElement_makeImageLayoutElement.
    by destruct (badge_class e).
  - unfold ScalingImageElement_addToContainer. rewrite Hgate, Hloaded. split; [done|].
    cbn [snd].
    match goal with |- context [addElement c ?e] =>
      destruct (addElement_emits c e) as (new & Hemit & Hel & _); by exists new, e end.
Qed.

(** ** The ban and timeout commands *)

(** X15. The text of a failed ban or timeout always starts with
    [Failed to <operation> user - ].  For a forwarded error the rest is the
    message of the server, unchanged; for every other error the message of
    the server is not used, and the name of the target is used for the errors
    [TargetBanned] and [CannotBanUser] only. *)
Theorem formatBanTimeoutError_shape (operation : QString) (error : HelixBanUserError.t)
    (message userTarget : QString) :
  exists detail,
    formatBanTimeoutError operation error message userTarget
    = QStringLiteral "Failed to " ++ operation ++ QStringLiteral " user - " ++ detail
    /\ (error = HelixBanUserError.Forwarded -> detail = message)
    /\ (error <> HelixBanUserError.Forwarded ->
        forall message',
          formatBanTimeoutError operation error message' userTarget
          = formatBanTimeoutError operation error message userTarget)
    /\ (error <> HelixBanUserError.TargetBanned ->
        error <> HelixBanUserError.CannotBanUser ->
        forall userTarget',
          formatBanTimeoutError operation error message userTarget'
          = formatBanTimeoutError operation error message userTarget).
Proof.
  destruct error; unfold formatBanTimeoutError;
    rewrite <- !(assoc_L (++)); eexists; (split; [reflexivity|]);
    repeat split; try done.
Qed.

Lemma reaches_nil (e : Effect) : reaches [] e -> False.
Proof.
  inversion 1 as [? ? Hin|? ? ? ? ? ? Hin|? ? ? ? ? Hin|? ? ? ? ? ? ? ? ? Hin
                 |? ? ? ? ? ? ? ? ? ? ? Hin]; by apply elem_of_nil in Hin.
Qed.

Lemma reaches_message (channel : ChannelPtr) (text : QString) (e : Effect) :
  reaches [addMessage channel text] e -> e = addMessage channel text.
Proof.
  inversion 1 as [? ? Hin|? ? ? ? ? ? Hin|? ? ? ? ? Hin|? ? ? ? ? ? ? ? ? Hin
                 |? ? ? ? ? ? ? ? ? ? ? Hin];
    apply list_elem_of_singleton in Hin; by try discriminate.
Qed.

Lemma reaches_ban (broadcasterID moderatorID userID : QString) (duration : option Z)
    (reason : QString) (failed : HelixBanUserError.t -> QString -> list Effect)
    (e : Effect) :
  reaches [banUser broadcasterID moderatorID userID duration reason [] failed] e ->
  e = banUser broadcasterID moderatorID userID duration reason [] failed
  \/ exists error message, reaches (failed error message) e.
Proof.
  inversion 1 as [? ? Hin|? ? ? ? ? ? Hin|? ? ? ? ? Hin|? ? ? ? ? ? ? ? ? Hin Hnext
                 |? ? ? ? ? ? ? ? error message ? Hin Hnext];
    apply list_elem_of_singleton in Hin; try discriminate.
  - by left.
  - injection Hin as -> -> -> -> -> -> ->. by apply reaches_nil in Hnext.
  - injection Hin as -> -> -> -> -> -> ->. right. by exists error, message.
Qed.

Lemma reaches_lookup (userName : QString) (found : HelixUser.t -> list Effect)
    (missing : list Effect) (e : Effect) :
  reaches [getUserByName userName found missing] e ->
  e = getUserByName userName found missing
  \/ (exists user, reaches (found user) e)
  \/ reaches missing e.
Proof.
  inversion 1 as [? ? Hin|? ? ? ? user ? Hin Hnext|? ? ? ? ? Hin Hnext|? ? ? ? ? ? ? ? ? Hin
                 |? ? ? ? ? ? ? ? ? ? ? Hin];
    apply list_elem_of_singleton in Hin; try discriminate.
  - by left.
  - injection Hin as -> -> ->. right. left. by exists user.
  - injection Hin as -> -> ->. by right; right.
Qed.

Lemma to_int_range (value : Z) : - 2 ^ 31 <= to_int value < 2 ^ 31.
Proof.
  unfold to_int. pose proof (Z.mod_pos_bound (value + 2 ^ 31) (2 ^ 32)). lia.
Qed.

Ltac reach H :=
  repeat first
    [ apply reaches_nil in H; contradiction
    | apply reaches_message in H; subst
    | apply reaches_ban in H as [->|(? & ? & H)]; cbv beta in *
    | apply reaches_lookup in H as [->|[[? H]|H]]; cbv beta in * ].

(** X16. A command typed where there is no channel has no effect at all.
    Typed in a channel that is not a Twitch channel, with no word after the
    command, or while nobody is logged in, each of the three commands adds
    one message to the channel and sends no request.  The string that a
    command returns is always empty. *)
Theorem ban_commands_guards (stripChannelName : QString -> QString)
    (parseDurationToSeconds : QString -> Z)
    (currentUser : TwitchAccount.t) (ctx : CommandContext.t) :
  let guarded :=
    fun result : QString * list Effect =>
      result.1 = []
      /\ (CommandContext.channel ctx = Datatypes.None -> result.2 = [])
      /\ (forall channel,
            CommandContext.channel ctx = Some channel ->
            CommandContext.twitchChannel ctx = Datatypes.None
            \/ (length (CommandContext.words ctx) < 2)%nat
            \/ TwitchAccount.isAnon currentUser = true ->
            exists text, result.2 = [addMessage channel text]) in
  guarded (sendBan stripChannelName currentUser ctx)
  /\ guarded (sendBanById currentUser ctx)
  /\ guarded (sendTimeout stripChannelName parseDurationToSeconds currentUser ctx).
Proof.
  intros guarded. subst guarded. cbv beta.
  unfold sendBan, sendBanById, sendTimeout.
  destruct (CommandContext.channel ctx) as [channel|];
    [|by repeat split].
  destruct (CommandContext.twitchChannel ctx) as [twitchChannel|].
  - case_bool_decide as Hwords.
    + repeat split; try done; intros ? [= <-] _; by eexists.
    + destruct (TwitchAccount.isAnon currentUser) eqn:Hanon.
      * repeat split; try done; intros ? [= <-] _; by eexists.
      * refine (conj _ (conj _ _)).
        -- repeat split; try done. intros ? _ [?|[?|?]]; done.
        -- repeat split; try done. intros ? _ [?|[?|?]]; done.
        -- destruct (_ && _); repeat split; try done; intros ? _ [?|[?|?]]; done.
  - repeat split; try done; intros ? [= <-] _; by eexists.
Qed.

(** X17. Whatever [sendTimeout] sends as a ban request has a duration, and
    the duration is a positive number of seconds that fits a C++ [int]: the
    third word parsed as a duration and cast to [int] when there is a third
    word, ten minutes when there is none.  The reason is the words after the
    third, joined by single spaces. *)
Theorem sendTimeout_duration_positive (stripChannelName : QString -> QString)
    (parseDurationToSeconds : QString -> Z)
    (currentUser : TwitchAccount.t) (ctx : CommandContext.t) (e : Effect) :
  reaches (sendTimeout stripChannelName parseDurationToSeconds currentUser ctx).2 e ->
  match e with
  | banUser _ _ _ duration reason _ _ =>
      exists seconds,
        duration = Some seconds
        /\ 0 < seconds <= 2147483647
        /\ seconds
           = (if bool_decide (3 <= length (CommandContext.words ctx))%nat
              then to_int (parseDurationToSeconds (CommandContext.words ctx !!! 2%nat))
              else 600)
        /\ reason = join (QStringLiteral " ") (drop 3 (CommandContext.words ctx))
  | _ => True
  end.
Proof.
  unfold sendTimeout.
  destruct (CommandContext.channel ctx) as [channel|]; cbn [snd];
    [|intros H; reach H].
  destruct (CommandContext.twitchChannel ctx) as [twitchChannel|];
    [|intros H; by reach H].
  destruct (bool_decide (length (CommandContext.words ctx) < 2)%nat);
    [intros H; by reach H|].
  destruct (TwitchAccount.isAnon currentUser); [intros H; by reach H|].
  pose proof (to_int_range
                (parseDurationToSeconds (CommandContext.words ctx !!! 2%nat))) as Hrange.
  destruct (bool_decide (3 <= length (CommandContext.words ctx))%nat); cbn [andb].
  - case_bool_decide as Hpositive; cbn [snd]; intros H; reach H; try done.
    eexists. split; [done|]. split; [lia|done].
  - cbn [snd]. intros H; reach H; try done.
    eexists. split; [done|]. split; [lia|done].
Qed.

(** X18. Whatever [sendBan] and [sendBanById] send as a ban request is
    permanent: it has no duration.  Its reason is the words after the second,
    joined by single spaces, and nothing is done when the ban succeeds. *)
Theorem sendBan_permanent (stripChannelName : QString -> QString)
    (currentUser : TwitchAccount.t) (ctx : CommandContext.t) (e : Effect) :
  reaches (sendBan stripChannelName currentUser ctx).2 e
  \/ reaches (sendBanById currentUser ctx).2 e ->
  match e with
  | banUser _ _ _ duration reason successCallback _ =>
      duration = Datatypes.None
      /\ reason = join (QStringLiteral " ") (drop 2 (CommandContext.words ctx))
      /\ successCallback = []
  | _ => True
  end.
Proof.
  unfold sendBan, sendBanById.
  destruct (CommandContext.channel ctx) as [channel|]; cbn [snd];
    [|intros [H|H]; reach H].
  destruct (CommandContext.twitchChannel ctx) as [twitchChannel|];
    [|intros [H|H]; by reach H].
  destruct (bool_decide (length (CommandContext.words ctx) < 2)%nat);
    [intros [H|H]; by reach H|].
  destruct (TwitchAccount.isAnon currentUser); [intros [H|H]; by reach H|].
  cbn [snd]. intros [H|H]; by reach H.
Qed.

(** X19. Everything that the three commands lead to concerns the channel and
    the user of the command: a message, also one added by a callback, is
    added to the channel the command was typed in; a user is looked up by the
    second word with the channel name stripped off, and a failed lookup
    reports that name as invalid; a ban request is sent for the room of the
    channel in the name of the current user, who is logged in. *)
Theorem ban_commands_stay_in_channel (stripChannelName : QString -> QString)
    (parseDurationToSeconds : QString -> Z)
    (currentUser : TwitchAccount.t) (ctx : CommandContext.t) (e : Effect) :
  reaches (sendBan stripChannelName currentUser ctx).2 e
  \/ reaches (sendBanById currentUser ctx).2 e
  \/ reaches (sendTimeout stripChannelName parseDurationToSeconds currentUser ctx).2 e ->
  match e with
  | addMessage channel _ => CommandContext.channel ctx = Some channel
  | getUserByName userName _ failureCallback =>
      userName = stripChannelName (CommandContext.words ctx !!! 1%nat)
      /\ exists channel,
           CommandContext.channel ctx = Some channel
           /\ failureCallback
              = [addMessage channel (QStringLiteral "Invalid username: " ++ userName)]
  | banUser broadcasterID moderatorID _ _ _ _ _ =>
      TwitchChannel.roomId <$> CommandContext.twitchChannel ctx = Some broadcasterID
      /\ moderatorID = TwitchAccount.getUserId currentUser
      /\ TwitchAccount.isAnon currentUser = false
  end.
Proof.
  unfold sendBan, sendBanById, sendTimeout.
  destruct (CommandContext.channel ctx) as [channel|]; cbn [snd];
    [|intros [H|[H|H]]; reach H].
  destruct (CommandContext.twitchChannel ctx) as [twitchChannel|];
    [|intros [H|[H|H]]; by reach H].
  destruct (bool_decide (length (CommandContext.words ctx) < 2)%nat);
    [intros [H|[H|H]]; by reach H|].
  destruct (TwitchAccount.isAnon currentUser); [intros [H|[H|H]]; by reach H|].
  cbn [snd]. intros [H|[H|H]].
  - reach H; try done. split; [done|]. by eexists.
  - by reach H.
  - destruct (_ && _); cbn [snd] in H; reach H; try done.
    split; [done|]. by eexists.
Qed.

(** ** The logging channel *)

Lemma indexOf_none (s : QString) (ch : QChar) :
  ch ∉ s -> indexOf s ch = Datatypes.None.
Proof.
  induction s as [|c s IH]; [done|].
  intros [Hne Hnot]%not_elem_of_cons. cbn [indexOf].
  destruct (Z.eqb_spec c ch) as [->|_]; [done|]. by rewrite IH.
Qed.

Lemma indexOf_first (before after : QString) (ch : QChar) :
  ch ∉ before -> indexOf (before ++ ch :: after) ch = Some (length before).
Proof.
  induction before as [|c before IH]; intros Hnot; cbn [app indexOf length].
  - by rewrite Z.eqb_refl.
  - apply not_elem_of_cons in Hnot as [Hne Hnot].
    destruct (Z.eqb_spec c ch) as [->|_]; [done|]. by rewrite IH.
Qed.

(** X20. The text of a message in the log.  With the setting
    [stripReplyMention] off, with [hideReplyContext] on, or for a message
    that is no reply, it is the plain text: the message text alone when there
    is no login name; the login name, a colon and a space, and the message
    text when there is a login name but no localized name; the localized
    name, a space, the login name, a colon and a space, and the message text
    when there are both.  For a reply with [stripReplyMention] on and
    [hideReplyContext] off, the login name of the parent (of the root of the
    thread when there is no parent) is put back as a mention right after the
    first colon of the plain text, and a plain text without a colon stays as
    it is. *)
Theorem logText_reply_mention (message : Message) :
  exists plain,
    (forall hideReplyContext,
       LoggingChannel.logText false hideReplyContext message = Some plain)
    /\ (forall stripReplyMention,
          LoggingChannel.logText stripReplyMention true message = Some plain)
    /\ (has (msg_flags message) MessageFlag_ReplyMessage = false ->
        forall stripReplyMention hideReplyContext,
          LoggingChannel.logText stripReplyMention hideReplyContext message = Some plain)
    /\ (loginName message = [] -> plain = messageText message)
    /\ (loginName message <> [] -> localizedName message = [] ->
        plain = loginName message ++ QStringLiteral ": " ++ messageText message)
    /\ (loginName message <> [] -> localizedName message <> [] ->
        plain = localizedName message ++ QStringLiteral " " ++ loginName message
                ++ QStringLiteral ": " ++ messageText message)
    /\ (has (msg_flags message) MessageFlag_ReplyMessage = true ->
        (58 ∉ plain -> LoggingChannel.logText true false message = Some plain)
        /\ forall before after,
             plain = before ++ 58 :: after -> 58 ∉ before ->
             LoggingChannel.logText true false message
             = (fun rootMessageChatter =>
                  before ++ QStringLiteral ": @" ++ rootMessageChatter ++ after)
               <$> match replyParent message with
                   | Some parent => Some (loginName parent)
                   | Datatypes.None => loginName <$> replyThread_root message
                   end).
Proof.
  unfold LoggingChannel.logText.
  match goal with |- context [indexOf ?text 58] => exists text; set (plain := text) end.
  split; [intros hide; by rewrite andb_false_r|].
  split; [intros strip; by rewrite andb_false_r|].
  split; [by intros -> ? ?|].
  split; [intros Hlogin; subst plain; by rewrite bool_decide_eq_true_2|].
  split.
  { intros Hlogin Hlocalized. subst plain.
    by rewrite bool_decide_eq_false_2, bool_decide_eq_true_2. }
  split.
  { intros Hlogin Hlocalized. subst plain.
    by rewrite !bool_decide_eq_false_2. }
  intros ->. cbn [andb negb]. split.
  - intros Hnone. by rewrite indexOf_none.
  - intros before after Hplain Hfirst. rewrite Hplain, indexOf_first by done.
    unfold QString_insert.
    assert (Hinsert : forall text : QString,
              take (length before + 1) (before ++ 58 :: after) ++ text
              ++ drop (length before + 1) (before ++ 58 :: after)
              = before ++ [58] ++ text ++ after).
    { intros text.
      replace (length before + 1)%nat with (length (before ++ [58])) by
        (rewrite length_app; reflexivity).
      rewrite (cons_middle 58 before after), (assoc_L (++) before [58] after).
      rewrite take_app_length, drop_app_length. by rewrite <- !(assoc_L (++)). }
    destruct (replyParent message), (replyThread_root message);
      cbn [fmap option_fmap option_map]; try done; by rewrite Hinsert.
Qed.

Lemma openLogFile_handle {QDateTime : Type} (toString : QDateTime -> QString -> QString)
    (timeZoneAbbreviation : QDateTime -> QString) (separator : QChar)
    (mkpath open : QString -> bool) (now : QDateTime) (this : LoggingChannel.t) :
  let opened :=
    LoggingChannel.openLogFile toString timeZoneAbbreviation separator mkpath open now this in
  LoggingChannel.handleOk separator opened.1
  /\ Forall (fun w => LoggingChannel.file w = LoggingChannel.logFileName separator opened.1)
       opened.2
  /\ LoggingChannel.dateString opened.1 = LoggingChannel.generateDateString toString now
  /\ (QFile.isOpen (LoggingChannel.fileHandle opened.1) = true ->
      opened.2
      = [LoggingChannel.written (LoggingChannel.logFileName separator opened.1)
           (LoggingChannel.generateOpeningString toString timeZoneAbbreviation now)])
  /\ (QFile.isOpen (LoggingChannel.fileHandle opened.1) = false -> opened.2 = [])
  /\ LoggingChannel.channelName opened.1 = LoggingChannel.channelName this
  /\ LoggingChannel.baseDirectory opened.1 = LoggingChannel.baseDirectory this
  /\ LoggingChannel.subDirectory opened.1 = LoggingChannel.subDirectory this.
Proof.
  intros opened. subst opened.
  destruct this as [name platform base sub date [fileName isOpen]].
  unfold LoggingChannel.openLogFile, LoggingChannel.handleOk, LoggingChannel.logFileName,
    LoggingChannel.appendLine.
  destruct isOpen;
    cbn [LoggingChannel.set_dateString LoggingChannel.set_fileHandle
         LoggingChannel.fileHandle LoggingChannel.channelName LoggingChannel.dateString
         LoggingChannel.baseDirectory LoggingChannel.subDirectory LoggingChannel.platform
         QFile.isOpen QFile.fileName];
    destruct (mkpath _);
    cbn [negb fst snd LoggingChannel.set_dateString LoggingChannel.set_fileHandle
         LoggingChannel.fileHandle LoggingChannel.channelName LoggingChannel.dateString
         LoggingChannel.baseDirectory LoggingChannel.subDirectory LoggingChannel.platform
         QFile.isOpen QFile.fileName];
    try destruct (open _);
    repeat split; try done; by repeat constructor.
Qed.

(** X21. Opening the log file, also from the callback of the log path
    setting, leaves the channel with the date of the moment and, when the
    directory could be made and the file opened, with an open file named
    [<base directory>/<sub directory>/<channel name>-<date>.log], to which
    the opening line was written; otherwise with a closed file and nothing
    written.  An empty log path stands for the default message log
    directory. *)
Theorem openLogFile_opens_dated_file {QDateTime : Type}
    (toString : QDateTime -> QString -> QString)
    (timeZoneAbbreviation : QDateTime -> QString) (separator : QChar)
    (mkpath open : QString -> bool) (messageLogDirectory logPath : QString)
    (now : QDateTime) (this : LoggingChannel.t) :
  let describes :=
    fun (base : QString) (opened : LoggingChannel.t * list LoggingChannel.Write) =>
      let fileName :=
        base ++ [separator] ++ LoggingChannel.subDirectory this ++ [separator]
        ++ LoggingChannel.channelName this ++ QStringLiteral "-"
        ++ toString now (QStringLiteral "yyyy-MM-dd") ++ QStringLiteral ".log" in
      LoggingChannel.dateString opened.1 = toString now (QStringLiteral "yyyy-MM-dd")
      /\ LoggingChannel.baseDirectory opened.1 = base
      /\ (if mkpath (base ++ [separator] ++ LoggingChannel.subDirectory this)
             && open fileName
          then LoggingChannel.fileHandle opened.1 = QFile.mk fileName true
               /\ opened.2
                  = [LoggingChannel.written fileName
                       (LoggingChannel.generateOpeningString toString timeZoneAbbreviation
                          now)]
          else QFile.isOpen (LoggingChannel.fileHandle opened.1) = false
               /\ opened.2 = []) in
  describes (LoggingChannel.baseDirectory this)
    (LoggingChannel.openLogFile toString timeZoneAbbreviation separator mkpath open now this)
  /\ describes (if bool_decide (logPath = []) then messageLogDirectory else logPath)
       (LoggingChannel.onLogPath toString timeZoneAbbreviation separator mkpath open
          messageLogDirectory now logPath this).
Proof.
  assert (Hopen : forall this' : LoggingChannel.t,
            LoggingChannel.subDirectory this' = LoggingChannel.subDirectory this ->
            LoggingChannel.channelName this' = LoggingChannel.channelName this ->
            let opened :=
              LoggingChannel.openLogFile toString timeZoneAbbreviation separator mkpath open
                now this' in
            let base := LoggingChannel.baseDirectory this' in
            let fileName :=
              base ++ [separator] ++ LoggingChannel.subDirectory this ++ [separator]
              ++ LoggingChannel.channelName this ++ QStringLiteral "-"
              ++ toString now (QStringLiteral "yyyy-MM-dd") ++ QStringLiteral ".log" in
            LoggingChannel.dateString opened.1 = toString now (QStringLiteral "yyyy-MM-dd")
            /\ LoggingChannel.baseDirectory opened.1 = base
            /\ (if mkpath (base ++ [separator] ++ LoggingChannel.subDirectory this)
                   && open fileName
                then LoggingChannel.fileHandle opened.1 = QFile.mk fileName true
                     /\ opened.2
                        = [LoggingChannel.written fileName
                             (LoggingChannel.generateOpeningString toString
                                timeZoneAbbreviation now)]
                else QFile.isOpen (LoggingChannel.fileHandle opened.1) = false
                     /\ opened.2 = [])).
  { intros this' Hsub Hname opened base fileName. subst opened base fileName.
    rewrite <- Hsub, <- Hname. clear Hsub Hname.
    destruct this' as [name platform base sub date [fileName isOpen]].
    unfold LoggingChannel.openLogFile, LoggingChannel.generateDateString,
      LoggingChannel.appendLine.
    destruct isOpen;
      cbn [LoggingChannel.set_dateString LoggingChannel.set_fileHandle
           LoggingChannel.fileHandle LoggingChannel.channelName LoggingChannel.dateString
           LoggingChannel.baseDirectory LoggingChannel.subDirectory LoggingChannel.platform
           QFile.isOpen QFile.fileName];
      rewrite <- !(assoc_L (++));
      destruct (mkpath _);
      cbn [negb fst snd andb LoggingChannel.set_dateString LoggingChannel.set_fileHandle
           LoggingChannel.fileHandle LoggingChannel.channelName LoggingChannel.dateString
           LoggingChannel.baseDirectory LoggingChannel.subDirectory LoggingChannel.platform
           QFile.isOpen QFile.fileName];
      try (destruct (open _) eqn:Hcan; cbn [fst snd]);
      repeat split; done. }
  intros describes. subst describes. cbv beta zeta. split.
  - by apply (Hopen this).
  - unfold LoggingChannel.onLogPath.
    by apply (Hopen (LoggingChannel.set_baseDirectory this _)).
Qed.

(** X22. A message is added to a channel whose open file is the log file
    for the date it holds.  The line of the message is, for a channel whose
    name starts with [/mentions], a [#], the channel name of the message and a
    space, and for every channel the time in brackets, a space, the text of
    the message in the log and a line feed.  While the date of the message is
    the date the channel holds, the channel does not change and the line is
    the only write, to the log file of the channel; it is lost when the file
    is not open.  When the date has changed the log file is opened anew: the
    channel keeps its name and directories and holds the date of the moment
    of opening, and the opening line and then the line of the message are
    written to the log file for that date, or nothing when the file could not
    be opened.  Either way the open file is the log file for the date the
    channel holds afterwards, and every write goes there and ends with a line
    feed. *)
Theorem addMessage_writes_to_dated_file {QDateTime : Type}
    (toString : QDateTime -> QString -> QString)
    (timeZoneAbbreviation : QDateTime -> QString) (separator : QChar)
    (mkpath open : QString -> bool) (stripReplyMention hideReplyContext : bool)
    (now reopened : QDateTime) (message : Message)
    (this this' : LoggingChannel.t) (writes : list LoggingChannel.Write) :
  LoggingChannel.handleOk separator this ->
  LoggingChannel.addMessage toString timeZoneAbbreviation separator mkpath open
    stripReplyMention hideReplyContext now reopened message this
  = Some (this', writes) ->
  exists text,
    LoggingChannel.logText stripReplyMention hideReplyContext message = Some text
    /\ let line :=
         (if startsWith (LoggingChannel.channelName this) (QStringLiteral "/mentions")
          then QStringLiteral "#" ++ msg_channelName message ++ QStringLiteral " "
          else [])
         ++ QStringLiteral "[" ++ toString now (QStringLiteral "HH:mm:ss")
         ++ QStringLiteral "] " ++ text ++ LoggingChannel.endline in
       LoggingChannel.handleOk separator this'
       /\ Forall (fun w =>
                    LoggingChannel.file w = LoggingChannel.logFileName separator this'
                    /\ exists body, LoggingChannel.data w = body ++ LoggingChannel.endline)
            writes
       /\ (QFile.isOpen (LoggingChannel.fileHandle this') = false -> writes = [])
       /\ (toString now (QStringLiteral "yyyy-MM-dd") = LoggingChannel.dateString this ->
           this' = this
           /\ writes
              = if QFile.isOpen (LoggingChannel.fileHandle this)
                then [LoggingChannel.written (LoggingChannel.logFileName separator this)
                        line]
                else [])
       /\ (toString now (QStringLiteral "yyyy-MM-dd") <> LoggingChannel.dateString this ->
           LoggingChannel.dateString this' = toString reopened (QStringLiteral "yyyy-MM-dd")
           /\ LoggingChannel.channelName this' = LoggingChannel.channelName this
           /\ LoggingChannel.baseDirectory this' = LoggingChannel.baseDirectory this
           /\ LoggingChannel.subDirectory this' = LoggingChannel.subDirectory this
           /\ writes
              = if QFile.isOpen (LoggingChannel.fileHandle this')
                then [LoggingChannel.written (LoggingChannel.logFileName separator this')
                        (LoggingChannel.generateOpeningString toString
                           timeZoneAbbreviation reopened);
                      LoggingChannel.written (LoggingChannel.logFileName separator this')
                        line]
                else []).
Proof.
  intros Hok. unfold LoggingChannel.addMessage.
  fold (LoggingChannel.generateDateString toString now).
  case_bool_decide as Hdate.
  - pose proof (openLogFile_handle toString timeZoneAbbreviation separator mkpath open
                  reopened
                  (LoggingChannel.set_dateString this
                     (LoggingChannel.generateDateString toString now)))
      as (Hok' & Hfiles & Hdate' & Hopened & Hclosed & Hname & Hbase & Hsub).
    destruct (LoggingChannel.openLogFile _ _ _ _ _ _ _) as [opened writes0].
    cbn [fst snd LoggingChannel.set_dateString LoggingChannel.channelName
         LoggingChannel.baseDirectory LoggingChannel.subDirectory] in *.
    destruct (LoggingChannel.logText _ _ message) as [text|]; [|done].
    cbn [fmap option_fmap option_map]. intros [= <- <-].
    exists text. split; [done|]. cbv zeta. rewrite Hname.
    split; [done|]. unfold LoggingChannel.appendLine.
    destruct (QFile.isOpen (LoggingChannel.fileHandle opened)) eqn:Hisopen.
    + rewrite Hopened by done. split.
      * constructor; [|constructor; [|constructor]];
          cbn [LoggingChannel.file LoggingChannel.data].
        -- split; [done|]. unfold LoggingChannel.generateOpeningString.
           eexists. by rewrite !(assoc_L (++)).
        -- split; [by apply Hok'|]. by eexists.
      * split; [done|]. split; [done|]. intros _.
        do 4 (split; [done|]). cbn [app]. rewrite (Hok' Hisopen).
        by rewrite <- !(assoc_L (++)).
    + rewrite Hclosed by done. split; [constructor|]. split; [done|].
      split; [done|]. intros _. by do 4 (split; [done|]).
  - destruct (LoggingChannel.logText _ _ message) as [text|]; [|done].
    cbn [fmap option_fmap option_map]. intros [= <- <-].
    exists text. split; [done|]. cbv zeta.
    split; [done|]. unfold LoggingChannel.appendLine.
    destruct (QFile.isOpen (LoggingChannel.fileHandle this)) eqn:Hisopen.
    + split.
      * constructor; [|constructor]. cbn [LoggingChannel.file LoggingChannel.data].
        split; [by apply Hok|]. by eexists.
      * split; [done|]. split; [|done]. intros _. split; [done|].
        cbn [app]. rewrite (Hok Hisopen). by rewrite <- !(assoc_L (++)).
    + split; [constructor|]. split; [done|]. split; [|done]. by intros _.
Qed.

End Properties.

(** ** Paints *)

Section UrlPaintProperties.

Context {QRectF PaintDropShadow : Type} (toRect : QRectF -> QRect.t).

(** C10. [asBrush] returns a brush for every paint, user colour and drawing
    rectangle; when the pixmap of the paint's image is not loaded, that brush
    is the solid brush of the user colour. *)
Theorem asBrush_solid_when_not_loaded (this : UrlPaint PaintDropShadow)
    (userColor : QColor) (drawingRect : QRectF) :
  Image.pixmapOrLoad (paint_image_ this) = Datatypes.None ->
  (exists brush, asBrush toRect this userColor drawingRect = brush)
  /\ asBrush toRect this userColor drawingRect = SolidBrush userColor.
Proof.
  intros Hpixmap. unfold asBrush. rewrite Hpixmap. eauto.
Qed.

(** With the pixmap loaded the brush is a texture, never an empty brush. *)
Lemma asBrush_texture_when_loaded (this : UrlPaint PaintDropShadow)
    (userColor : QColor) (drawingRect : QRectF) (pixmap : QPixmap) :
  Image.pixmapOrLoad (paint_image_ this) = Some pixmap ->
  exists combined, asBrush toRect this userColor drawingRect = TextureBrush combined.
Proof.
  intros Hpixmap. unfold asBrush. rewrite Hpixmap. eauto.
Qed.

End UrlPaintProperties.

(** * The properties on the sample platform *)

(** C1, on a concrete input.  The element says "hi Kappa x"; the image of
    Kappa is 200 pixels wide and the line 100, so the image does not fit after
    "hi".  The code appends the ellipsis and leaves the loop over the tokens of
    that word, and then goes on with the next word: "x" is processed and
    emitted after the ellipsis. *)
Theorem SingleLineText_continues_after_emote_overflow :
  let this := SingleLineTextElement_new (QStringLiteral "hi Kappa x") Sample.Text
                MessageColor_Text ChatMedium in
  fitsInLine Sample.container
    (horizontalAdvance Sample.metrics (QStringLiteral "hi")
     + Image.width Sample.kappaImage) = false
  /\ emitted (SingleLineTextElement_addToContainer Sample.fixedPoint (Sample.settings [])
                Sample.app this Sample.container Sample.Text)
     = [Element
          {| kind := KText (QStringLiteral "hi... x") 0xffffff ChatMedium 100;
             rect_size := QSize.mk 70 20;
             le_link := Link.mk Link.None [];
             le_trailingSpace := false;
             le_text := QStringLiteral "hi... x";
             listensToLinkChanges := false |};
        LineBreak].
Proof. by vm_compute. Qed.

(** The scenario of the spec with an emote that fits: "hi", the image of
    Keepo, the rest of the text cut short with an ellipsis, one line break. *)
Example SingleLineText_scenario :
  (fun p : Primitive Z =>
     match p with
     | Element e => match kind e with KImage _ => inr true | _ => inl (le_text e) end
     | LineBreak => inr false
     end)
  <$> emitted (SingleLineTextElement_addToContainer Sample.fixedPoint (Sample.settings [])
                 Sample.app
                 (SingleLineTextElement_new (QStringLiteral "hi Keepo abcdefgh x y")
                    Sample.Text MessageColor_Text ChatMedium)
                 Sample.container Sample.Text)
  = [inl (QStringLiteral "hi"); inr true;
     inl (QStringLiteral "abc" ++ [0x2026]); inr false].
Proof. by vm_compute. Qed.

(** Two words that fit on one line: two fragments and no line break. *)
Example TextElement_two_words_one_line :
  (fun p : Primitive Z =>
     match p with
     | Element e => Some (le_text e, le_trailingSpace e)
     | LineBreak => Datatypes.None
     end)
  <$> emitted (TextElement_addToContainer Sample.app
                 (TextElement_new (QStringLiteral "hey you") Sample.Text
                    MessageColor_Text ChatMedium)
                 Sample.container Sample.Text).2
  = [Some (QStringLiteral "hey", true); Some (QStringLiteral "you", true)].
Proof. by vm_compute. Qed.

(** Layers with a repeated emote: each emote once, in first-seen order. *)
Example getUniqueEmotes_sample :
  identity
  <$> getUniqueEmotes
        (LayeredEmoteElement_new Sample.Flag
           [Sample.layer Sample.Keepo; Sample.layer Sample.Kappa;
            Sample.layer Sample.Keepo; Sample.layer Sample.Pending;
            Sample.layer Sample.Kappa]
           Sample.TwitchEmoteImage MessageColor_Text)
  = [2; 1; 3]%positive.
Proof. by vm_compute. Qed.

Lemma Sample_metricsOk : metricsOk Sample.metrics.
Proof. split; simpl; unfold Sample.advance; intros; lia. Qed.

Lemma Sample_charactersFit (text : QString) : charactersFit Sample.metrics 100 text.
Proof.
  intros i Hi. unfold charWidthAt. destruct (isSurrogateAt text i); simpl; [|lia].
  unfold Sample.advance, mid. rewrite length_take. lia.
Qed.

Lemma Sample_containerOk : containerOk Sample.container.
Proof. unfold containerOk. simpl. split_and!; [lia|lia|done]. Qed.

(** The wrap invariant on the text "hello abcdefghijklmnopqrstuvwxyz". *)
Lemma TextElement_greedy_wrap_invariant_witness :
  let this := TextElement_new (QStringLiteral "hello abcdefghijklmnopqrstuvwxyz")
                Sample.Text MessageColor_Text ChatMedium in
  (containerOk Sample.container /\ 0 <= width_ Sample.container
   /\ metricsOk (getFontMetrics Sample.app (text_style_ this) (getScale Sample.container))
   /\ Forall (fun word =>
                charactersFit
                  (getFontMetrics Sample.app (text_style_ this) (getScale Sample.container))
                  (width_ Sample.container) (Word.text word))
             (text_words_ this))
  /\ exists new,
       emitted (TextElement_addToContainer Sample.app this Sample.container Sample.Text).2
       = emitted Sample.container ++ new
       /\ width_ (TextElement_addToContainer Sample.app this Sample.container Sample.Text).2
          = width_ Sample.container
       /\ Forall (fun p => primitiveWidth p <= width_ Sample.container) new
       /\ Forall (primitiveMeasured
                    (getFontMetrics Sample.app (text_style_ this)
                       (getScale Sample.container))) new
       /\ (hasAny Sample.Text (flags_ (text_base this)) = true ->
           emittedText new = concat (Word.text <$> text_words_ this)).
Proof.
  intros this.
  assert (Hok : containerOk Sample.container) by apply Sample_containerOk.
  assert (Hwidth : 0 <= width_ Sample.container) by (simpl; lia).
  assert (Hm : metricsOk (getFontMetrics Sample.app (text_style_ this)
                            (getScale Sample.container))) by apply Sample_metricsOk.
  assert (Hchars : Forall (fun word =>
                     charactersFit
                       (getFontMetrics Sample.app (text_style_ this)
                          (getScale Sample.container))
                       (width_ Sample.container) (Word.text word))
                     (text_words_ this)).
  { apply Forall_forall. intros word _. apply Sample_charactersFit. }
  split; [done|].
  exact (TextElement_greedy_wrap_invariant Sample.app this Sample.container Sample.Text
           Hok Hwidth Hm Hchars).
Defined.

(** The split of the 26-letter word on a line of ten letters. *)
Lemma TextElement_split_word_trailing_space_witness :
  let this := TextElement_new (QStringLiteral "abcdefghijklmnopqrstuvwxyz")
                Sample.Text MessageColor_Text ChatMedium in
  let word := Word.mk (QStringLiteral "abcdefghijklmnopqrstuvwxyz") (-1) in
  (fitsInLine Sample.container (horizontalAdvance Sample.metrics (Word.text word)) = false
   /\ (atStartOfLine Sample.container = false ->
       fitsInLine (breakLine Sample.container)
         (horizontalAdvance Sample.metrics (Word.text word)) = false))
  /\ exists pieces last,
       emitted (TextElement_addWord Sample.app Sample.metrics this Sample.container word).2
       = emitted Sample.container
           ++ (if atStartOfLine Sample.container then [] else [LineBreak])
           ++ forcedPieces pieces ++ [Element last]
       /\ Forall (fun piece => le_trailingSpace piece = false) pieces
       /\ le_trailingSpace last = trailingSpace (text_base this)
       /\ concat (le_text <$> pieces) ++ le_text last = Word.text word.
Proof.
  intros this word.
  assert (Hfits : fitsInLine Sample.container
                    (horizontalAdvance Sample.metrics (Word.text word)) = false)
    by reflexivity.
  assert (Hfresh : atStartOfLine Sample.container = false ->
                   fitsInLine (breakLine Sample.container)
                     (horizontalAdvance Sample.metrics (Word.text word)) = false)
    by reflexivity.
  split; [done|].
  exact (TextElement_split_word_trailing_space Sample.app Sample.metrics this
           Sample.container word Hfits Hfresh).
Defined.

(** C4 as stated does not hold: the tooltip of a layered emote with the one
    layer Kappa is the copy string "Kappa", not the tooltip text of the
    layer. *)
Lemma LayeredEmoteElement_tooltip_is_not_layer_tooltips :
  tooltip_ (layered_base
              (LayeredEmoteElement_new Sample.Flag [Sample.layer Sample.Kappa]
                 Sample.TwitchEmoteImage MessageColor_Text))
  = QStringLiteral "Kappa"
  /\ spaceJoined ((fun l => tooltip (deref (ptr l))) <$> [Sample.layer Sample.Kappa])
     = QStringLiteral "Kappa<br>Twitch Emote"
  /\ tooltip_ (layered_base
                 (LayeredEmoteElement_new Sample.Flag [Sample.layer Sample.Kappa]
                    Sample.TwitchEmoteImage MessageColor_Text))
     <> spaceJoined ((fun l => tooltip (deref (ptr l))) <$> [Sample.layer Sample.Kappa]).
Proof. split_and!; [by vm_compute|by vm_compute|by vm_compute]. Qed.

(** Two renders of a timestamp, the format changed in between. *)
Lemma TimestampElement_format_cache_witness :
  let settings1 := Sample.settings (QStringLiteral "h:mm") in
  let settings2 := Sample.settings (QStringLiteral "hh:mm:ss") in
  let this := TimestampElement_new Sample.Flag settings1 Sample.app 7 in
  let first := TimestampElement_addToContainer Sample.Flag settings1 Sample.app this
                 Sample.container 8 in
  let second := TimestampElement_addToContainer Sample.Flag settings2 Sample.app first.1
                  Sample.container 8 in
  hasAny 8 (flags_ (timestamp_base this)) = true /\
  (timestampFormat settings2 <> timestampFormat settings1 ->
     format_ second.1 = timestampFormat settings2
     /\ (element_ second.1, second.2)
        = TextElement_addToContainer Sample.app
            (TextElement_new
               (locale_toString Sample.app (time_ this) (timestampFormat settings2))
               (Timestamp Sample.Flag) MessageColor_System ChatMedium)
            Sample.container 8
     /\ (hasAny 8 (Timestamp Sample.Flag) = true ->
         exists new,
           emitted second.2 = emitted Sample.container ++ new
           /\ emittedText new
              = concat (split 32 (locale_toString Sample.app (time_ this)
                                    (timestampFormat settings2)))))
  /\ (timestampFormat settings2 = timestampFormat settings1 ->
     TimestampElement_refresh Sample.Flag settings2 Sample.app first.1 = first.1
     /\ format_ second.1 = format_ first.1
     /\ (element_ second.1, second.2)
        = TextElement_addToContainer Sample.app (element_ first.1) Sample.container 8).
Proof.
  intros settings1 settings2 this.
  split; [reflexivity|].
  apply (TimestampElement_format_cache Sample.Flag settings1 settings2 Sample.app this
           Sample.container Sample.container 8 8); reflexivity.
Defined.

(** A clone of a text element in a store of one element. *)
Lemma clone_is_independent_copy_witness :
  let el : MessageElement Z :=
    Text (TextElement_new (QStringLiteral "hello") Sample.Text MessageColor_Text ChatMedium) in
  let store : gmap positive (MessageElement Z) := {[ 1%positive := el ]} in
  store !! 1%positive = Some el /\
  exists q copy,
    clone_at Sample.Flag (Sample.settings []) Sample.app store 1
    = Some (q, <[q := copy]> store)
    /\ q <> 1%positive /\ store !! q = Datatypes.None
    /\ getFlags copy = getFlags el
    /\ getText copy = getText el
    /\ getLink copy = getLink el
    /\ getTooltip copy = getTooltip el
    /\ getThumbnail copy = getThumbnail el
    /\ forall ms : list Mutation,
         foldl (fun store m => call_at store q m) (<[q := copy]> store) ms !! 1%positive
         = Some el.
Proof.
  intros el store.
  split; [reflexivity|].
  apply (clone_is_independent_copy Sample.Flag (Sample.settings []) Sample.app store 1 el).
  reflexivity.
Defined.

(** The flag gate on a moderation element rendered without [ModeratorTools]. *)
Lemma addToContainer_flag_gate_witness :
  carriesOwnFlag Sample.Flag (TwitchModerationElement_new (float:=Z) Sample.Flag) /\
  hasAny Sample.Text (getFlags (TwitchModerationElement_new (float:=Z) Sample.Flag)) = false /\
  addToContainer Sample.fixedPoint Sample.Flag (Sample.settings []) Sample.app
    (TwitchModerationElement_new Sample.Flag) Sample.container Sample.Text
  = (TwitchModerationElement_new Sample.Flag, Sample.container).
Proof.
  split; [reflexivity|]. split; [reflexivity|].
  apply (addToContainer_flag_gate Sample.fixedPoint Sample.Flag (Sample.settings [])
           Sample.app (TwitchModerationElement_new Sample.Flag) Sample.container
           Sample.Text).
  reflexivity.
Defined.

(** C9 as stated does not hold: the image of the emote is the empty image,
    and still, under render flags that ask for emote text, the element emits
    its fallback text. *)
Lemma EmoteElement_text_fallback_with_missing_image :
  imageMissing (EmoteE Sample.pendingElement) (getScale Sample.container) = true
  /\ emittedText
       (emitted (addToContainer Sample.fixedPoint Sample.Flag (Sample.settings [])
                   Sample.app (EmoteE Sample.pendingElement) Sample.container
                   Sample.TwitchEmoteText).2)
     = QStringLiteral "Pending"
  /\ emitted (addToContainer Sample.fixedPoint Sample.Flag (Sample.settings [])
                Sample.app (EmoteE Sample.pendingElement) Sample.container
                Sample.TwitchEmoteText).2
     <> emitted Sample.container.
Proof. split_and!; [by vm_compute|by vm_compute|by vm_compute]. Qed.

(** The same emote under render flags that ask for emote images. *)
Lemma addToContainer_skips_missing_image_witness :
  imageMissing (EmoteE Sample.pendingElement) (getScale Sample.container) = true /\
  asksForImage Sample.Flag (EmoteE Sample.pendingElement) Sample.TwitchEmoteImage = true /\
  addToContainer Sample.fixedPoint Sample.Flag (Sample.settings []) Sample.app
    (EmoteE Sample.pendingElement) Sample.container Sample.TwitchEmoteImage
  = (EmoteE Sample.pendingElement, Sample.container)
  /\ (forall this : LayeredEmoteElement Z,
        getLoadedImages this (getScale Sample.container)
        = filter (fun image => Image.isEmpty image = false)
                 (layerImage (getScale Sample.container) <$> emotes_ this)).
Proof.
  split; [reflexivity|]. split; [reflexivity|].
  apply (addToContainer_skips_missing_image Sample.fixedPoint Sample.Flag
           (Sample.settings []) Sample.app (EmoteE Sample.pendingElement)
           Sample.container Sample.TwitchEmoteImage); reflexivity.
Defined.

(** A paint whose image has no pixmap yet. *)
Lemma asBrush_solid_when_not_loaded_witness :
  let paint : UrlPaint unit :=
    UrlPaint_new (QStringLiteral "paint") (QStringLiteral "id") Sample.emptyImage [] in
  Image.pixmapOrLoad (paint_image_ paint) = Datatypes.None /\
  (exists brush, asBrush (fun r : QRect.t => r) paint 0xff0000 (QRect.mk 0 0 10 10) = brush)
  /\ asBrush (fun r : QRect.t => r) paint 0xff0000 (QRect.mk 0 0 10 10) = SolidBrush 0xff0000.
Proof.
  intros paint.
  split; [reflexivity|].
  apply (asBrush_solid_when_not_loaded (fun r : QRect.t => r) paint 0xff0000
           (QRect.mk 0 0 10 10)).
  reflexivity.
Defined.

(** Rendering the text "hello world" twice at the same scale. *)
Lemma TextElement_addToContainer_measures_witness :
  let this := TextElement_new (QStringLiteral "hello world") Sample.Text MessageColor_Text
                ChatMedium in
  let metrics := getFontMetrics Sample.app (text_style_ this) (getScale Sample.container) in
  let rendered :=
    (TextElement_addToContainer Sample.app this Sample.container Sample.Text).1 in
  (hasAny Sample.Text (flags_ (text_base this)) = true
   /\ getScale Sample.container = getScale Sample.container)
  /\ text_words_ rendered = measured metrics <$> text_words_ this
  /\ text_base rendered = text_base this
  /\ text_color_ rendered = text_color_ this
  /\ text_style_ rendered = text_style_ this
  /\ (TextElement_addToContainer Sample.app rendered Sample.container Sample.Text).1
     = rendered.
Proof.
  intros this metrics rendered. split; [by split|].
  apply (TextElement_addToContainer_measures Sample.app this Sample.container
           Sample.container Sample.Text); reflexivity.
Defined.

(** The single-line text "hello Kappa" on the sample container. *)
Lemma SingleLineTextElement_emits_one_line_witness :
  let this := SingleLineTextElement_new (QStringLiteral "hello Kappa") Sample.Text
                MessageColor_Text ChatMedium in
  let rendered :=
    SingleLineTextElement_addToContainer Sample.fixedPoint (Sample.settings []) Sample.app
      this Sample.container Sample.Text in
  hasAny Sample.Text (flags_ (single_base this)) = true
  /\ exists es,
       emitted rendered = emitted Sample.container ++ (Element <$> es) ++ [LineBreak]
       /\ first rendered = Neutral
       /\ atStartOfLine rendered = true
       /\ currentX_ rendered = 0
       /\ Forall (singleLinePiece Sample.app
                    (getFontMetrics Sample.app (single_style_ this)
                       (getScale Sample.container))
                    (getScale Sample.container) this) es.
Proof.
  intros this rendered. split; [reflexivity|].
  apply (SingleLineTextElement_emits_one_line Sample.fixedPoint (Sample.settings [])
           Sample.app this Sample.container Sample.Text).
  reflexivity.
Defined.

(** The single-line text "hi  you", with two spaces, which fits the line. *)
Lemma SingleLineTextElement_plain_text_witness :
  let this := SingleLineTextElement_new (QStringLiteral "hi  you") Sample.Text
                MessageColor_Text ChatMedium in
  let metrics :=
    getFontMetrics Sample.app (single_style_ this) (getScale Sample.container) in
  (hasAny Sample.Text (flags_ (single_base this)) = true
   /\ Forall (fun word =>
                parse Sample.app (Word.text word) = [ParsedText (Word.text word)])
        (single_words_ this)
   /\ Forall (fun text => elidedText metrics text (remainingWidth Sample.container) = text)
        (pendingTexts [] (Word.text <$> single_words_ this)))
  /\ emitted (SingleLineTextElement_addToContainer Sample.fixedPoint (Sample.settings [])
                Sample.app this Sample.container Sample.Text)
     = emitted Sample.container
       ++ (if bool_decide (pendingText (Word.text <$> single_words_ this) = []) then []
           else [Element
                   (getTextLayoutElement Sample.app metrics Sample.container
                      (single_base this) (single_color_ this) (single_style_ this)
                      (trimmed (pendingText (Word.text <$> single_words_ this)))
                      (horizontalAdvance metrics
                         (trimmed (pendingText (Word.text <$> single_words_ this))))
                      false)])
       ++ [LineBreak]
  /\ trimmed (pendingText (Word.text <$> single_words_ this))
     = trimmed (spaceJoined (Word.text <$> single_words_ this)).
Proof.
  intros this metrics.
  assert (Hplain : Forall (fun word =>
                     parse Sample.app (Word.text word) = [ParsedText (Word.text word)])
                     (single_words_ this)) by (repeat constructor).
  assert (Hfits : Forall (fun text =>
                     elidedText metrics text (remainingWidth Sample.container) = text)
                    (pendingTexts [] (Word.text <$> single_words_ this)))
    by (repeat constructor).
  split; [by repeat split|].
  apply (SingleLineTextElement_plain_text Sample.fixedPoint (Sample.settings [])
           Sample.app this Sample.container Sample.Text); [reflexivity|exact Hplain|exact Hfits].
Defined.

(** A timestamp constructed under the format "h:mm" and first rendered under
    "hh:mm:ss", and a clone of it. *)
Lemma TimestampElement_first_render_witness :
  let settings0 := Sample.settings (QStringLiteral "h:mm") in
  let settings := Sample.settings (QStringLiteral "hh:mm:ss") in
  let original := TimestampElement_new Sample.Flag settings0 Sample.app 7 in
  let shown :=
    fun time =>
      formatTime Sample.Flag
        (if bool_decide (timestampFormat settings = []) then settings0 else settings)
        Sample.app time in
  let constructed :=
    TimestampElement_addToContainer Sample.Flag settings Sample.app
      (TimestampElement_new Sample.Flag settings0 Sample.app 7) Sample.container 8 in
  let cloned :=
    TimestampElement_addToContainer Sample.Flag settings Sample.app
      (TimestampElement_clone Sample.Flag settings0 Sample.app original)
      Sample.container 8 in
  (hasAny 8 (Timestamp Sample.Flag) = true
   /\ hasAny 8 (flags_ (timestamp_base original)) = true)
  /\ (format_ constructed.1 = timestampFormat settings
      /\ (element_ constructed.1, constructed.2)
         = TextElement_addToContainer Sample.app (shown 7) Sample.container 8)
  /\ (format_ cloned.1 = timestampFormat settings
      /\ (element_ cloned.1, cloned.2)
         = TextElement_addToContainer Sample.app (shown (time_ original))
             Sample.container 8).
Proof.
  intros settings0 settings original shown constructed cloned.
  split; [by split|].
  apply (TimestampElement_first_render Sample.Flag settings0 settings Sample.app 7
           original Sample.container 8); reflexivity.
Defined.

(** The fallback text of the emote Kappa and of the layers Kappa and Keepo,
    under render flags that ask for emote text. *)
Lemma emote_fallback_text_witness :
  let own := Z.lor Sample.TwitchEmoteImage Sample.TwitchEmoteText in
  let link := Link.mk Link.Url (QStringLiteral "https://example.com") in
  let fallback :=
    fun (el : MessageElement Z) (textElement : option TextElement) (text : QString) =>
      exists inner new,
        textElement = Some inner
        /\ emitted (addToContainer Sample.fixedPoint Sample.Flag (Sample.settings [])
                      Sample.app (setLink el link) Sample.container
                      Sample.TwitchEmoteText).2
           = emitted Sample.container ++ new
        /\ emittedText new = concat (split 32 text)
        /\ Forall (fun e =>
                     isTextFragment Sample.app
                       (getFontMetrics Sample.app (text_style_ inner)
                          (getScale Sample.container))
                       (getScale Sample.container) (MessageElement_new (Misc Sample.Flag))
                       MessageColor_Text (text_style_ inner) e)
                  (elementsOf new) in
  (hasAny Sample.TwitchEmoteText own = true
   /\ has Sample.TwitchEmoteText (EmoteImages Sample.Flag) = false
   /\ hasAny (Misc Sample.Flag) (Misc Sample.Flag) = true)
  /\ fallback (EmoteE (EmoteElement_new Sample.Flag Sample.Kappa own MessageColor_Text))
       (emote_textElement_ (EmoteElement_new Sample.Flag Sample.Kappa own MessageColor_Text))
       (getCopyString (deref Sample.Kappa))
  /\ fallback
       (LayeredEmoteE
          (LayeredEmoteElement_new Sample.Flag
             (Sample.layer Sample.Kappa :: [Sample.layer Sample.Keepo]) own
             MessageColor_Text))
       (layered_textElement_
          (LayeredEmoteElement_new Sample.Flag
             (Sample.layer Sample.Kappa :: [Sample.layer Sample.Keepo]) own
             MessageColor_Text))
       (spaceJoined
          ((fun layer => getCopyString (deref (ptr layer)))
           <$> Sample.layer Sample.Kappa :: [Sample.layer Sample.Keepo])).
Proof.
  intros own link fallback. split; [by repeat split|].
  apply (emote_fallback_text Sample.fixedPoint Sample.Flag (Sample.settings []) Sample.app
           Sample.Kappa (Sample.layer Sample.Kappa) [Sample.layer Sample.Keepo] own
           MessageColor_Text link Sample.container Sample.TwitchEmoteText); reflexivity.
Defined.

(** The emote Kappa, whose image is loaded, under render flags that ask for
    emote images. *)
Lemma addToContainer_shows_loaded_image_witness :
  let el : MessageElement Z :=
    EmoteE (EmoteElement_new Sample.Flag Sample.Kappa Sample.TwitchEmoteImage
              MessageColor_Text) in
  let rendered :=
    addToContainer Sample.fixedPoint Sample.Flag (Sample.settings []) Sample.app el
      Sample.container Sample.TwitchEmoteImage in
  (hasAny Sample.TwitchEmoteImage (getFlags el) = true
   /\ asksForImage Sample.Flag el Sample.TwitchEmoteImage = true
   /\ imageMissing el (getScale Sample.container) = false
   /\ elementImages el (getScale Sample.container) <> [])
  /\ rendered.1 = el
  /\ exists new e,
       emitted rendered.2 = emitted Sample.container ++ new
       /\ elementsOf new = [e]
       /\ shownImages e = elementImages el (getScale Sample.container)
       /\ le_link e = getLink el.
Proof.
  intros el rendered. split; [by repeat split|].
  apply (addToContainer_shows_loaded_image Sample.fixedPoint Sample.Flag
           (Sample.settings []) Sample.app el Sample.container Sample.TwitchEmoteImage);
    done.
Defined.

(** [/timeout #someone 30 spam links]: the ban request that the lookup of
    the user leads to. *)
Lemma sendTimeout_duration_positive_witness :
  reaches (sendTimeout BanSample.strip BanSample.parse BanSample.moderator
             BanSample.timeoutContext).2 BanSample.timeoutRequest
  /\ exists seconds,
       Some 30 = Some seconds
       /\ 0 < seconds <= 2147483647
       /\ seconds
          = (if bool_decide (3 <= length (CommandContext.words BanSample.timeoutContext))%nat
             then to_int (BanSample.parse
                            (CommandContext.words BanSample.timeoutContext !!! 2%nat))
             else 600)
       /\ QStringLiteral "spam links"
          = join (QStringLiteral " ") (drop 3 (CommandContext.words BanSample.timeoutContext)).
Proof.
  assert (Hreaches : reaches (sendTimeout BanSample.strip BanSample.parse BanSample.moderator
                                BanSample.timeoutContext).2 BanSample.timeoutRequest).
  { eapply (reaches_user_found _ _ _ _ BanSample.someone).
    - apply list_elem_of_here.
    - apply reaches_here, list_elem_of_here. }
  split; [exact Hreaches|].
  exact (sendTimeout_duration_positive BanSample.strip BanSample.parse BanSample.moderator
           BanSample.timeoutContext BanSample.timeoutRequest Hreaches).
Defined.

(** [/ban #someone spam links]: the ban request that the lookup of the user
    leads to. *)
Lemma sendBan_permanent_witness :
  (reaches (sendBan BanSample.strip BanSample.moderator BanSample.banContext).2
     BanSample.banRequest
   \/ reaches (sendBanById BanSample.moderator BanSample.banContext).2 BanSample.banRequest)
  /\ (@Datatypes.None Z = Datatypes.None
      /\ QStringLiteral "spam links"
         = join (QStringLiteral " ") (drop 2 (CommandContext.words BanSample.banContext))
      /\ @nil Effect = []).
Proof.
  assert (Hreaches : reaches (sendBan BanSample.strip BanSample.moderator
                                BanSample.banContext).2 BanSample.banRequest).
  { eapply (reaches_user_found _ _ _ _ BanSample.someone).
    - apply list_elem_of_here.
    - apply reaches_here, list_elem_of_here. }
  split; [by left|].
  exact (sendBan_permanent BanSample.strip BanSample.moderator BanSample.banContext
           BanSample.banRequest (or_introl Hreaches)).
Defined.

(** The message of the failure callback of that ban request is added to the
    channel of the command. *)
Lemma ban_commands_stay_in_channel_witness :
  (reaches (sendBan BanSample.strip BanSample.moderator BanSample.banContext).2
     BanSample.alreadyBanned
   \/ reaches (sendBanById BanSample.moderator BanSample.banContext).2
        BanSample.alreadyBanned
   \/ reaches (sendTimeout BanSample.strip BanSample.parse BanSample.moderator
                 BanSample.banContext).2 BanSample.alreadyBanned)
  /\ CommandContext.channel BanSample.banContext = Some 1%positive.
Proof.
  assert (Hreaches : reaches (sendBan BanSample.strip BanSample.moderator
                                BanSample.banContext).2 BanSample.alreadyBanned).
  { eapply (reaches_user_found _ _ _ _ BanSample.someone).
    - apply list_elem_of_here.
    - eapply (reaches_ban_failed _ _ _ _ _ _ _ _ HelixBanUserError.TargetBanned []).
      + apply list_elem_of_here.
      + apply reaches_here, list_elem_of_here. }
  split; [by left|].
  exact (ban_commands_stay_in_channel BanSample.strip BanSample.parse BanSample.moderator
           BanSample.banContext BanSample.alreadyBanned (or_introl Hreaches)).
Defined.

(** A reply added to the log on the day after the one the channel holds. *)
Lemma addMessage_writes_to_dated_file_witness :
  let now := 2 * 1440 + 5 in
  let this' :=
    LoggingChannel.mk (QStringLiteral "pajlada") (QStringLiteral "twitch")
      (QStringLiteral "/logs") (QStringLiteral "Twitch/Channels/pajlada") [50]
      (QFile.mk (QStringLiteral "/logs/Twitch/Channels/pajlada/pajlada-2.log") true) in
  let writes :=
    [LoggingChannel.written (QStringLiteral "/logs/Twitch/Channels/pajlada/pajlada-2.log")
       (QStringLiteral "# Start logging at 2 5UTC" ++ LoggingChannel.endline);
     LoggingChannel.written (QStringLiteral "/logs/Twitch/Channels/pajlada/pajlada-2.log")
       (QStringLiteral "[5] bob: @alice hi" ++ LoggingChannel.endline)] in
  (LoggingChannel.handleOk 47 LogSample.channel
   /\ LoggingChannel.addMessage LogSample.toString LogSample.timeZoneAbbreviation 47
        LogSample.mkpath LogSample.open true false now now LogSample.reply LogSample.channel
      = Some (this', writes))
  /\ exists text,
       LoggingChannel.logText true false LogSample.reply = Some text
       /\ let line :=
            (if startsWith (LoggingChannel.channelName LogSample.channel)
                  (QStringLiteral "/mentions")
             then QStringLiteral "#" ++ msg_channelName LogSample.reply ++ QStringLiteral " "
             else [])
            ++ QStringLiteral "[" ++ LogSample.toString now (QStringLiteral "HH:mm:ss")
            ++ QStringLiteral "] " ++ text ++ LoggingChannel.endline in
          LoggingChannel.handleOk 47 this'
          /\ Forall (fun w =>
                       LoggingChannel.file w = LoggingChannel.logFileName 47 this'
                       /\ exists body,
                            LoggingChannel.data w = body ++ LoggingChannel.endline)
               writes
          /\ (QFile.isOpen (LoggingChannel.fileHandle this') = false -> writes = [])
          /\ (LogSample.toString now (QStringLiteral "yyyy-MM-dd")
              = LoggingChannel.dateString LogSample.channel ->
              this' = LogSample.channel
              /\ writes
                 = if QFile.isOpen (LoggingChannel.fileHandle LogSample.channel)
                   then [LoggingChannel.written
                           (LoggingChannel.logFileName 47 LogSample.channel) line]
                   else [])
          /\ (LogSample.toString now (QStringLiteral "yyyy-MM-dd")
              <> LoggingChannel.dateString LogSample.channel ->
              LoggingChannel.dateString this'
              = LogSample.toString now (QStringLiteral "yyyy-MM-dd")
              /\ LoggingChannel.channelName this'
                 = LoggingChannel.channelName LogSample.channel
              /\ LoggingChannel.baseDirectory this'
                 = LoggingChannel.baseDirectory LogSample.channel
              /\ LoggingChannel.subDirectory this'
                 = LoggingChannel.subDirectory LogSample.channel
              /\ writes
                 = if QFile.isOpen (LoggingChannel.fileHandle this')
                   then [LoggingChannel.written (LoggingChannel.logFileName 47 this')
                           (LoggingChannel.generateOpeningString LogSample.toString
                              LogSample.timeZoneAbbreviation now);
                         LoggingChannel.written (LoggingChannel.logFileName 47 this') line]
                   else []).
Proof.
  intros now this' writes.
  assert (Hok : LoggingChannel.handleOk 47 LogSample.channel) by (intros _; reflexivity).
  assert (Hrun : LoggingChannel.addMessage LogSample.toString
                   LogSample.timeZoneAbbreviation 47 LogSample.mkpath LogSample.open
                   true false now now LogSample.reply LogSample.channel
                 = Some (this', writes)) by reflexivity.
  split; [by split|].
  exact (addMessage_writes_to_dated_file LogSample.toString LogSample.timeZoneAbbreviation
           47 LogSample.mkpath LogSample.open true false now now LogSample.reply
           LogSample.channel this' writes Hok Hrun).
Defined.
